(** * AIWendy roundtable: client state and roster selection

    A shallow embedding of the roundtable front end of AIWendy:

    - [CoachMultiSelector]: the roster selector (components/roundtable,
      [CoachMultiSelector.handleToggle] and [isValid]);
    - [RoundtableChat]: the chat component's React state, the request
      builder of [handleSend] and the stream-event reducer
      [handleStreamEvent] (components/roundtable/RoundtableChat.tsx);
    - [Orchestrator]: the server-side round orchestrator.  Its Python
      source (apps/api/routers/roundtable.py) is not part of the
      sources at hand, so it is modelled from the design document.

    React state is modelled by explicit state passing: every
    [setX (prev => ...)] becomes a function on the component state, and a
    dictionary [Record<string, _>] becomes a [gmap string _] of its own
    properties, read through [member] where the code reads the object by
    key.  A [string] holds the UTF-8 encoding of a JavaScript string. *)

From stdpp Require Import base numbers option list strings gmap.
From Stdlib Require Import QArith.

Local Open Scope string_scope.
Local Open Scope list_scope.
Local Open Scope Z_scope.

(* ===================================================================== *)
(** ** Roster selector *)
(* ===================================================================== *)

Module CoachMultiSelector.

(** The props the selection logic reads.  [minCount] and [maxCount] are
    optional props with destructuring defaults 2 and 5. *)
Record CoachMultiSelectorProps := {
  selectedIds : list string;
  minCount : option Z;
  maxCount : option Z;
}.

Definition minCountOf (p : CoachMultiSelectorProps) : Z := default 2 (minCount p).
Definition maxCountOf (p : CoachMultiSelectorProps) : Z := default 5 (maxCount p).

(** [Array.prototype.includes] on strings. *)
Definition includes (ids : list string) (c : string) : bool :=
  bool_decide (c ∈ ids).

(** [handleToggle]: the argument handed to [onSelectionChange], or [None]
    when the callback is not invoked. *)
Definition handleToggle (p : CoachMultiSelectorProps) (coachId : string)
  : option (list string) :=
  if includes (selectedIds p) coachId then
    Some (filter (λ id, id ≠ coachId) (selectedIds p))
  else if bool_decide (Z.of_nat (length (selectedIds p)) < maxCountOf p) then
    Some (selectedIds p ++ [coachId])
  else None.

Definition isValid (p : CoachMultiSelectorProps) : bool :=
  bool_decide (minCountOf p ≤ Z.of_nat (length (selectedIds p)))
  && bool_decide (Z.of_nat (length (selectedIds p)) ≤ maxCountOf p).

(** The selector is a controlled component: the parent stores what
    [onSelectionChange] receives and passes it back as [selectedIds]. *)
Definition withSelection (p : CoachMultiSelectorProps) (ids : list string)
  : CoachMultiSelectorProps :=
  {| selectedIds := ids; minCount := minCount p; maxCount := maxCount p |}.

Definition toggle (p : CoachMultiSelectorProps) (coachId : string)
  : CoachMultiSelectorProps :=
  match handleToggle p coachId with
  | Some ids => withSelection p ids
  | None => p
  end.

Definition toggles (p : CoachMultiSelectorProps) (cs : list string)
  : CoachMultiSelectorProps :=
  foldl toggle p cs.

Definition within_max (p : CoachMultiSelectorProps) : Prop :=
  Z.of_nat (length (selectedIds p)) ≤ maxCountOf p.

End CoachMultiSelector.

(* ===================================================================== *)
(** ** Chat component *)
(* ===================================================================== *)

Module RoundtableChat.

(** *** Data

    The type declarations the component imports (lib/types/roundtable,
    components/chat/ModelSelector, types/chat) are not among the sources:
    each type below lists the fields and cases the component reads, writes
    or compares against, and an optional field is an [option]. *)

Inductive DiscussionMode := Free | Moderated.
Inductive DebateStyle := Converge | Clash.
Inductive KbTiming := KbOff | KbMessage | KbRound | KbCoach | KbModerator.
Inductive Role := User | Assistant.

Record CoachBrief := {
  cb_id : string;
  cb_name : string;
  cb_avatar_url : option string;
}.

(** [session_id] is [None] when [session?.id] is undefined. *)
Record RoundtableSession := {
  session_id : option string;
  discussion_mode : DiscussionMode;
  coaches : option (list CoachBrief);
  moderator : option CoachBrief;
  is_active : bool;
}.

Record ModelConfig := {
  configId : option string;
  provider : string;
  model : string;
  temperature : Q;
  maxTokens : Z;
}.

Record ChatAttachment := {
  ca_id : string;
  ca_type : string;
  ca_fileName : string;
  ca_fileSize : Z;
  ca_mimeType : string;
  ca_url : string;
  ca_thumbnailUrl : option string;
  ca_extractedText : option string;
  ca_transcription : option string;
}.

Record ApiMessageAttachment := {
  aa_id : string;
  aa_type : string;
  aa_fileName : string;
  aa_fileSize : Z;
  aa_mimeType : string;
  aa_url : string;
  aa_base64Data : option string;
  aa_extractedText : option string;
  aa_transcription : option string;
}.

(** [m_content] is what the object literal's [content] evaluates to: a
    string, or [undefined] ([None]) when an end event reads [content] off a
    member the streaming map inherits (see [member]). *)
Record RoundtableMessage := {
  m_id : string;
  m_session_id : option string;
  m_coach_id : option string;
  m_coach : option CoachBrief;
  m_role : Role;
  m_content : option string;
  m_attachments : option (list ChatAttachment);
  m_message_type : string;
  m_turn_number : option Z;
  m_created_at : string;
}.

(** An in-flight response.  Every field but [content] is optional: the
    [content] case builds the entry as [{...prev[id], content: ...}], and
    spreading an absent entry yields an object holding [content] alone. *)
Record StreamingCoachResponse := {
  s_coach_id : option string;
  s_coach_name : option string;
  s_coach_avatar : option string;
  s_content : string;
  s_isStreaming : option bool;
  s_message_type : option string;
}.

Inductive RoundtableEvent :=
| round_start (round : Z)
| coach_start (coach_id coach_name : string) (coach_avatar : option string)
| moderator_start (coach_id coach_name : string) (coach_avatar : option string)
    (message_type : string)
| content (coach_id : string) (fragment : string)
| coach_end (coach_id : string)
| moderator_end (coach_id : string) (message_type : string)
| round_end (round : Z)
| done
| error (coach_id : option string) (message : string).

(** A reading of the wall clock: the decimal rendering of [Date.now()] and
    [new Date().toISOString()]. *)
Record Clock := {
  now : string;
  iso : string;
}.

Record Props := {
  session : RoundtableSession;
  modelConfig : ModelConfig;
  kbTiming : KbTiming;
  kbTopK : Z;
  kbMaxCandidates : Z;
}.

(** The [useState] cells of the component. *)
Record State := {
  messages : list RoundtableMessage;
  input : string;
  isLoading : bool;
  currentRound : Z;
  maxRounds : Z;
  debateStyle : DebateStyle;
  streamingResponses : gmap string StreamingCoachResponse;
  currentCoachId : option string;
  overrideEnabled : bool;
  overrideModelConfig : ModelConfig;
  overrideKbTiming : KbTiming;
  overrideKbTopK : Z;
  overrideKbMaxCandidates : Z;
}.

(** *** State setters *)

Definition setMessages (f : list RoundtableMessage → list RoundtableMessage) (st : State) : State :=
  {| messages := f (messages st); input := input st; isLoading := isLoading st;
     currentRound := currentRound st; maxRounds := maxRounds st;
     debateStyle := debateStyle st; streamingResponses := streamingResponses st;
     currentCoachId := currentCoachId st; overrideEnabled := overrideEnabled st;
     overrideModelConfig := overrideModelConfig st;
     overrideKbTiming := overrideKbTiming st; overrideKbTopK := overrideKbTopK st;
     overrideKbMaxCandidates := overrideKbMaxCandidates st |}.

Definition setInput (v : string) (st : State) : State :=
  {| messages := messages st; input := v; isLoading := isLoading st;
     currentRound := currentRound st; maxRounds := maxRounds st;
     debateStyle := debateStyle st; streamingResponses := streamingResponses st;
     currentCoachId := currentCoachId st; overrideEnabled := overrideEnabled st;
     overrideModelConfig := overrideModelConfig st;
     overrideKbTiming := overrideKbTiming st; overrideKbTopK := overrideKbTopK st;
     overrideKbMaxCandidates := overrideKbMaxCandidates st |}.

Definition setIsLoading (v : bool) (st : State) : State :=
  {| messages := messages st; input := input st; isLoading := v;
     currentRound := currentRound st; maxRounds := maxRounds st;
     debateStyle := debateStyle st; streamingResponses := streamingResponses st;
     currentCoachId := currentCoachId st; overrideEnabled := overrideEnabled st;
     overrideModelConfig := overrideModelConfig st;
     overrideKbTiming := overrideKbTiming st; overrideKbTopK := overrideKbTopK st;
     overrideKbMaxCandidates := overrideKbMaxCandidates st |}.

Definition setCurrentRound (v : Z) (st : State) : State :=
  {| messages := messages st; input := input st; isLoading := isLoading st;
     currentRound := v; maxRounds := maxRounds st;
     debateStyle := debateStyle st; streamingResponses := streamingResponses st;
     currentCoachId := currentCoachId st; overrideEnabled := overrideEnabled st;
     overrideModelConfig := overrideModelConfig st;
     overrideKbTiming := overrideKbTiming st; overrideKbTopK := overrideKbTopK st;
     overrideKbMaxCandidates := overrideKbMaxCandidates st |}.

Definition setStreamingResponses
    (f : gmap string StreamingCoachResponse → gmap string StreamingCoachResponse)
    (st : State) : State :=
  {| messages := messages st; input := input st; isLoading := isLoading st;
     currentRound := currentRound st; maxRounds := maxRounds st;
     debateStyle := debateStyle st; streamingResponses := f (streamingResponses st);
     currentCoachId := currentCoachId st; overrideEnabled := overrideEnabled st;
     overrideModelConfig := overrideModelConfig st;
     overrideKbTiming := overrideKbTiming st; overrideKbTopK := overrideKbTopK st;
     overrideKbMaxCandidates := overrideKbMaxCandidates st |}.

Definition setCurrentCoachId (v : option string) (st : State) : State :=
  {| messages := messages st; input := input st; isLoading := isLoading st;
     currentRound := currentRound st; maxRounds := maxRounds st;
     debateStyle := debateStyle st; streamingResponses := streamingResponses st;
     currentCoachId := v; overrideEnabled := overrideEnabled st;
     overrideModelConfig := overrideModelConfig st;
     overrideKbTiming := overrideKbTiming st; overrideKbTopK := overrideKbTopK st;
     overrideKbMaxCandidates := overrideKbMaxCandidates st |}.

Definition setOverrideEnabled (f : bool → bool) (st : State) : State :=
  {| messages := messages st; input := input st; isLoading := isLoading st;
     currentRound := currentRound st; maxRounds := maxRounds st;
     debateStyle := debateStyle st; streamingResponses := streamingResponses st;
     currentCoachId := currentCoachId st; overrideEnabled := f (overrideEnabled st);
     overrideModelConfig := overrideModelConfig st;
     overrideKbTiming := overrideKbTiming st; overrideKbTopK := overrideKbTopK st;
     overrideKbMaxCandidates := overrideKbMaxCandidates st |}.

(** *** JavaScript helpers *)

(** [x || d] on strings: the empty string is falsy. *)
Definition str_or (x d : string) : string :=
  if decide (x = "") then d else x.

(** [x || undefined] on a string. *)
Definition str_or_undefined (x : string) : option string :=
  if decide (x = "") then None else Some x.

(** Truthiness of a possibly undefined string. *)
Definition truthy (x : option string) : bool :=
  match x with
  | Some s => negb (bool_decide (s = ""))
  | None => false
  end.

(** The names of the members of [Object.prototype].  A plain object, such
    as the streaming map, inherits them: [obj[key]] finds them when [obj] has
    no own property [key]. *)
Definition objectPrototypeKeys : list string :=
  ["constructor"; "hasOwnProperty"; "isPrototypeOf"; "propertyIsEnumerable";
   "toLocaleString"; "toString"; "valueOf"; "__proto__"; "__defineGetter__";
   "__defineSetter__"; "__lookupGetter__"; "__lookupSetter__"].

(** *** White space

    A [string] holds the UTF-8 encoding of the JavaScript string it stands
    for.  [String.prototype.trim] removes from both ends the code points
    ECMA-262 calls WhiteSpace (U+0009, U+000B, U+000C, U+FEFF and the
    Unicode space separators U+0020, U+00A0, U+1680, U+2000 to U+200A,
    U+202F, U+205F, U+3000) and LineTerminator (U+000A, U+000D, U+2028,
    U+2029); [whiteSpace] lists their encodings. *)
Definition bytes (codes : list Z) : list Ascii.ascii :=
  map (λ c, Ascii.ascii_of_nat (Z.to_nat c)) codes.

Definition whiteSpace : list (list Ascii.ascii) :=
  map bytes
    [[9]; [10]; [11]; [12]; [13]; [32]; [194; 160]; [225; 154; 128];
     [226; 128; 128]; [226; 128; 129]; [226; 128; 130]; [226; 128; 131];
     [226; 128; 132]; [226; 128; 133]; [226; 128; 134]; [226; 128; 135];
     [226; 128; 136]; [226; 128; 137]; [226; 128; 138]; [226; 128; 168];
     [226; 128; 169]; [226; 128; 175]; [226; 129; 159]; [227; 128; 128];
     [239; 187; 191]].

(** [l] without the character of [ws] it starts with, if it starts with
    one. *)
Fixpoint dropSpace (ws : list (list Ascii.ascii)) (l : list Ascii.ascii)
  : option (list Ascii.ascii) :=
  match ws with
  | [] => None
  | w :: ws' =>
      if decide (w `prefix_of` l) then Some (drop (length w) l)
      else dropSpace ws' l
  end.

(** [l] without the characters of [ws] it starts with.  Every character
    holds at least one byte, so [length l] steps are enough
    ([trimStartBytes]). *)
Fixpoint dropSpaces (ws : list (list Ascii.ascii)) (fuel : nat)
    (l : list Ascii.ascii) : list Ascii.ascii :=
  match fuel with
  | O => l
  | S fuel' =>
      match dropSpace ws l with
      | Some l' => dropSpaces ws fuel' l'
      | None => l
      end
  end.

Definition trimStartBytes (l : list Ascii.ascii) : list Ascii.ascii :=
  dropSpaces whiteSpace (length l) l.

Definition trimEndBytes (l : list Ascii.ascii) : list Ascii.ascii :=
  reverse (dropSpaces (map reverse whiteSpace) (length l) (reverse l)).

(** [String.prototype.trim] *)
Definition trim (s : string) : string :=
  String.string_of_list_ascii
    (trimEndBytes (trimStartBytes (String.list_ascii_of_string s))).

(** *** Coach lookup table *)

Definition coachesMap (session : RoundtableSession) : gmap string CoachBrief :=
  let m := foldl (λ acc c, <[cb_id c := c]> acc) ∅ (default [] (coaches session)) in
  match moderator session with
  | Some md => <[cb_id md := md]> m
  | None => m
  end.

(** *** The stream-event reducer *)

(** The value of [prev[id]] on the streaming map, a plain object: the own
    entry; else, for the name of a member of [Object.prototype], the member
    inherited (a function, or the prototype itself for "__proto__"); else
    [undefined].  An own entry and an inherited member are truthy. *)
Inductive Member :=
| OwnEntry (response : StreamingCoachResponse)
| InheritedMember
| NoMember.

Definition member (prev : gmap string StreamingCoachResponse) (id : string) : Member :=
  match prev !! id with
  | Some response => OwnEntry response
  | None =>
      if bool_decide (id ∈ objectPrototypeKeys) then InheritedMember else NoMember
  end.

(** [{...prev[id], content: c}]: spreading an inherited member, which has no
    own enumerable property, or [undefined] yields [content] alone. *)
Definition withContent (prev : Member) (c : string) : StreamingCoachResponse :=
  match prev with
  | OwnEntry r =>
      {| s_coach_id := s_coach_id r; s_coach_name := s_coach_name r;
         s_coach_avatar := s_coach_avatar r; s_content := c;
         s_isStreaming := s_isStreaming r; s_message_type := s_message_type r |}
  | InheritedMember | NoMember =>
      {| s_coach_id := None; s_coach_name := None; s_coach_avatar := None;
         s_content := c; s_isStreaming := None; s_message_type := None |}
  end.

(** [prev[id]?.content || ""]: the members of [Object.prototype] have no
    [content]. *)
Definition contentOf (prev : Member) : string :=
  match prev with
  | OwnEntry r => str_or (s_content r) ""
  | InheritedMember | NoMember => ""
  end.

Definition startResponse (id name : string) (avatar : option string) (mt : string)
  : StreamingCoachResponse :=
  {| s_coach_id := Some id; s_coach_name := Some name; s_coach_avatar := avatar;
     s_content := ""; s_isStreaming := Some true; s_message_type := Some mt |}.

(** [response.content] and [response.message_type]: the members of
    [Object.prototype] have neither property. *)
Definition memberContent (response : Member) : option string :=
  match response with
  | OwnEntry r => Some (s_content r)
  | InheritedMember | NoMember => None
  end.

Definition memberMessageType (response : Member) : option string :=
  match response with
  | OwnEntry r => s_message_type r
  | InheritedMember | NoMember => None
  end.

Definition coachMessage (p : Props) (renderRound : Z) (clk : Clock)
    (id : string) (response : Member) : RoundtableMessage :=
  {| m_id := "coach-" +:+ id +:+ "-" +:+ now clk;
     m_session_id := session_id (session p);
     m_coach_id := Some id;
     m_coach := coachesMap (session p) !! id;
     m_role := Assistant;
     m_content := memberContent response;
     m_attachments := None;
     m_message_type := str_or (default "" (memberMessageType response)) "response";
     m_turn_number := Some renderRound;
     m_created_at := iso clk |}.

Definition moderatorMessage (p : Props) (renderRound : Z) (clk : Clock)
    (id mt : string) (response : Member) : RoundtableMessage :=
  {| m_id := "moderator-" +:+ mt +:+ "-" +:+ now clk;
     m_session_id := session_id (session p);
     m_coach_id := Some id;
     m_coach := match moderator (session p) with
                | Some md => Some md
                | None => coachesMap (session p) !! id
                end;
     m_role := Assistant;
     m_content := memberContent response;
     m_attachments := None;
     m_message_type := mt;
     m_turn_number := Some renderRound;
     m_created_at := iso clk |}.

(** [handleStreamEvent].  The function is a closure of the render in which
    [handleSend] was called: [p] and [renderRound] are the props and the
    value of [currentRound] of that render, whereas the functional updates
    [setX (prev => ...)] read the current state [st].  In the two end cases
    [setMessages] is called from within the [setStreamingResponses]
    updater; each updater is taken to run once.

    The streaming map is a plain object and the [gmap] holds its own
    properties: the start and content cases define an own property (a
    computed key, also for "__proto__"), the end cases copy every own
    property but [id].  The content and end cases read [prev[id]], which
    also finds the members the object inherits ([member]); the end cases
    test it for truth. *)
Definition handleStreamEvent (p : Props) (renderRound : Z) (clk : Clock)
    (event : RoundtableEvent) (st : State) : State :=
  match event with
  | round_start r => setCurrentRound r st
  | coach_start id name avatar =>
      setStreamingResponses
        (λ prev, <[id := startResponse id name avatar "response"]> prev)
        (setCurrentCoachId (Some id) st)
  | moderator_start id name avatar mt =>
      setStreamingResponses
        (λ prev, <[id := startResponse id name avatar mt]> prev)
        (setCurrentCoachId (Some id) st)
  | content id fragment =>
      setStreamingResponses
        (λ prev, <[id := withContent (member prev id)
                           (contentOf (member prev id) +:+ fragment)]> prev)
        st
  | coach_end id =>
      let st1 :=
        match member (streamingResponses st) id with
        | NoMember => st
        | response =>
            setMessages (λ prevMessages, prevMessages ++ [coachMessage p renderRound clk id response]) st
        end in
      setCurrentCoachId None (setStreamingResponses (λ prev, delete id prev) st1)
  | moderator_end id mt =>
      let st1 :=
        match member (streamingResponses st) id with
        | NoMember => st
        | response =>
            setMessages (λ prevMessages, prevMessages ++ [moderatorMessage p renderRound clk id mt response]) st
        end in
      setCurrentCoachId None (setStreamingResponses (λ prev, delete id prev) st1)
  | round_end _ => st
  | done => st
  | error _ _ => st
  end.

(** The [for await] loop: events paired with the clock reading at the time
    each one is handled. *)
Definition handleStream (p : Props) (renderRound : Z)
    (stream : list (Clock * RoundtableEvent)) (st : State) : State :=
  foldl (λ s ce, handleStreamEvent p renderRound ce.1 ce.2 s) st stream.

(** *** The request *)

Record ChatRequest := {
  rq_session_id : option string;
  rq_content : string;
  rq_attachments : option (list ApiMessageAttachment);
  rq_max_rounds : Z;
  rq_debate_style : option DebateStyle;
  rq_config_id : option string;
  rq_provider : option string;
  rq_model : option string;
  rq_temperature : Q;
  rq_max_tokens : Z;
  rq_kb_timing : KbTiming;
  rq_kb_top_k : Z;
  rq_kb_max_candidates : Z;
}.

Definition is_free (m : DiscussionMode) : bool :=
  match m with Free => true | Moderated => false end.

(** The object literal [chatRequest] of [handleSend], with the four
    [overrideEnabled ? ... : ...] selections that precede it. *)
Definition chatRequest (p : Props) (st : State) (userContent : string)
    (apiAttachments : list ApiMessageAttachment) : ChatRequest :=
  let effectiveModel := if overrideEnabled st then overrideModelConfig st else modelConfig p in
  let effectiveKbTiming := if overrideEnabled st then overrideKbTiming st else kbTiming p in
  let effectiveKbTopK := if overrideEnabled st then overrideKbTopK st else kbTopK p in
  let effectiveKbMaxCandidates :=
    if overrideEnabled st then overrideKbMaxCandidates st else kbMaxCandidates p in
  {| rq_session_id := session_id (session p);
     rq_content := userContent;
     rq_attachments := match apiAttachments with [] => None | _ => Some apiAttachments end;
     rq_max_rounds := maxRounds st;
     rq_debate_style :=
       if is_free (discussion_mode (session p)) then Some (debateStyle st) else None;
     rq_config_id := configId effectiveModel;
     rq_provider := str_or_undefined (provider effectiveModel);
     rq_model := str_or_undefined (model effectiveModel);
     rq_temperature := temperature effectiveModel;
     rq_max_tokens := maxTokens effectiveModel;
     rq_kb_timing := effectiveKbTiming;
     rq_kb_top_k := effectiveKbTopK;
     rq_kb_max_candidates := effectiveKbMaxCandidates |}.

(** *** [handleSend] *)

(** How the event stream of [roundtableAPI.chat] ends: it is exhausted, or
    an exception is thrown; [message] is [error.message] when the exception
    is an [Error] and [None] otherwise. *)
Inductive StreamEnd :=
| Completed
| Thrown (message : option string) (at_clock : Clock).

Definition invalidSessionMessage (clk : Clock) : RoundtableMessage :=
  {| m_id := "error-" +:+ now clk; m_session_id := Some ""; m_coach_id := None;
     m_coach := None; m_role := Assistant;
     m_content := Some "错误：会话 ID 无效，请刷新页面重试。";
     m_attachments := None; m_message_type := "response"; m_turn_number := None;
     m_created_at := iso clk |}.

Definition userMessage (p : Props) (clk : Clock) (userContent : string)
    (uploadedAttachments : list ChatAttachment) : RoundtableMessage :=
  {| m_id := "temp-" +:+ now clk; m_session_id := session_id (session p);
     m_coach_id := None; m_coach := None; m_role := User;
     m_content := Some userContent;
     m_attachments := match uploadedAttachments with [] => None | _ => Some uploadedAttachments end;
     m_message_type := "response"; m_turn_number := None;
     m_created_at := iso clk |}.

Definition errorMessage (p : Props) (clk : Clock) (message : option string)
  : RoundtableMessage :=
  {| m_id := "error-" +:+ now clk; m_session_id := session_id (session p);
     m_coach_id := None; m_coach := None; m_role := Assistant;
     m_content := Some (str_or (default "" message) "发生错误，请稍后重试。");
     m_attachments := None; m_message_type := "response"; m_turn_number := None;
     m_created_at := iso clk |}.

(** The guards at the head of [handleSend]. *)
Definition ignored (st : State) (value : string) : bool :=
  bool_decide (trim value = "") || isLoading st.

Definition starts_exchange (p : Props) (st : State) (value : string) : bool :=
  negb (ignored st value) && truthy (session_id (session p)).

(** The [catch] block. *)
Definition catchError (p : Props) (fin : StreamEnd) (st : State) : State :=
  match fin with
  | Completed => st
  | Thrown message clk => setMessages (λ prev, prev ++ [errorMessage p clk message]) st
  end.

(** The [finally] block. *)
Definition finally (st : State) : State :=
  setOverrideEnabled (λ _, false)
    (setStreamingResponses (λ _, ∅)
      (setCurrentCoachId None (setIsLoading false st))).

(** The state just before the [try]: input cleared, loading, streaming map
    reset, user message appended. *)
Definition beginExchange (p : Props) (clk : Clock) (value : string)
    (uploaded : list ChatAttachment) (st : State) : State :=
  setMessages (λ prev, prev ++ [userMessage p clk (trim value) uploaded])
    (setStreamingResponses (λ _, ∅) (setIsLoading true (setInput "" st))).

(** [handleSend value attachments].  [processed] is what
    [processAttachments] returned (two empty lists when there are no
    attachments); [stream] holds the events received before the stream ended
    as [fin] says. *)
Definition handleSend (p : Props) (clk : Clock) (value : string)
    (processed : list ChatAttachment * list ApiMessageAttachment)
    (stream : list (Clock * RoundtableEvent)) (fin : StreamEnd)
    (st : State) : State :=
  if ignored st value then st
  else if negb (truthy (session_id (session p))) then
    setMessages (λ prev, prev ++ [invalidSessionMessage clk]) st
  else
    finally
      (catchError p fin
        (handleStream p (currentRound st) stream
          (beginExchange p clk value processed.1 st))).

(** The request [handleSend] hands to [roundtableAPI.chat], when it gets
    that far. *)
Definition requestSent (p : Props) (value : string)
    (processed : list ChatAttachment * list ApiMessageAttachment)
    (st : State) : option ChatRequest :=
  if starts_exchange p st value
  then Some (chatRequest p st (trim value) processed.2)
  else None.

(** The "Override" / "Use session" button. *)
Definition toggleOverride (st : State) : State :=
  setOverrideEnabled negb st.

(** The [useEffect] on [session.id] and [session.discussion_mode] (and the
    initial value of the [maxRounds] cell). *)
Definition setMaxRounds (v : Z) (st : State) : State :=
  {| messages := messages st; input := input st; isLoading := isLoading st;
     currentRound := currentRound st; maxRounds := v;
     debateStyle := debateStyle st; streamingResponses := streamingResponses st;
     currentCoachId := currentCoachId st; overrideEnabled := overrideEnabled st;
     overrideModelConfig := overrideModelConfig st;
     overrideKbTiming := overrideKbTiming st; overrideKbTopK := overrideKbTopK st;
     overrideKbMaxCandidates := overrideKbMaxCandidates st |}.

Definition syncMaxRounds (p : Props) (st : State) : State :=
  setMaxRounds (if is_free (discussion_mode (session p)) then 2 else 1) st.

(** *** Configuration bundles

    The all-or-nothing contract in the design document's terms: a bundle of
    model parameters and knowledge settings, and a tagged choice between the
    session's bundle and an override bundle. *)

Record ConfigBundle := {
  b_model : ModelConfig;
  b_kbTiming : KbTiming;
  b_kbTopK : Z;
  b_kbMaxCandidates : Z;
}.

Definition sessionBundle (p : Props) : ConfigBundle :=
  {| b_model := modelConfig p; b_kbTiming := kbTiming p;
     b_kbTopK := kbTopK p; b_kbMaxCandidates := kbMaxCandidates p |}.

Definition overrideBundle (st : State) : ConfigBundle :=
  {| b_model := overrideModelConfig st; b_kbTiming := overrideKbTiming st;
     b_kbTopK := overrideKbTopK st; b_kbMaxCandidates := overrideKbMaxCandidates st |}.

Inductive ConfigChoice :=
| UseSessionDefaults
| UseOverride (bundle : ConfigBundle).

Definition configChoice (st : State) : ConfigChoice :=
  if overrideEnabled st then UseOverride (overrideBundle st) else UseSessionDefaults.

Definition resolve (p : Props) (c : ConfigChoice) : ConfigBundle :=
  match c with
  | UseSessionDefaults => sessionBundle p
  | UseOverride bundle => bundle
  end.

(** The configuration fields of a request, and the fields a bundle yields
    when it is the one sent. *)
Definition requestConfig (r : ChatRequest)
  : option string * option string * option string * Q * Z * KbTiming * Z * Z :=
  (rq_config_id r, rq_provider r, rq_model r, rq_temperature r, rq_max_tokens r,
   rq_kb_timing r, rq_kb_top_k r, rq_kb_max_candidates r).

Definition bundleConfig (b : ConfigBundle)
  : option string * option string * option string * Q * Z * KbTiming * Z * Z :=
  (configId (b_model b), str_or_undefined (provider (b_model b)),
   str_or_undefined (model (b_model b)), temperature (b_model b),
   maxTokens (b_model b), b_kbTiming b, b_kbTopK b, b_kbMaxCandidates b).

(** *** Reading an event stream *)

Definition is_start_for (id : string) (e : RoundtableEvent) : bool :=
  match e with
  | coach_start i _ _ | moderator_start i _ _ _ => bool_decide (i = id)
  | _ => false
  end.

Definition is_end_for (id : string) (e : RoundtableEvent) : bool :=
  match e with
  | coach_end i | moderator_end i _ => bool_decide (i = id)
  | _ => false
  end.

(** An event that neither starts nor ends a turn of [id]. *)
Definition within_turn (id : string) (ce : Clock * RoundtableEvent) : Prop :=
  is_start_for id ce.2 = false ∧ is_end_for id ce.2 = false.

(** The fragments the content events of [id] carry, in stream order. *)
Definition fragmentsFor (id : string) (stream : list (Clock * RoundtableEvent))
  : list string :=
  omap (λ ce, match ce.2 with
              | content i f => if decide (i = id) then Some f else None
              | _ => None
              end) stream.

Definition concatenation (fs : list string) : string :=
  foldr String.append "" fs.

(** What the message area shows: the cards of [messages], then one card
    per entry of [streamingResponses]. *)
Definition displayed (st : State) (text : string) : Prop :=
  (∃ m, m ∈ messages st ∧ m_content m = Some text)
  ∨ (∃ id r, streamingResponses st !! id = Some r ∧ s_content r = text).

(** *** Sample data *)

Definition sampleModel : ModelConfig :=
  {| configId := None; provider := "openai"; model := "gpt-4o";
     temperature := 7 # 10; maxTokens := 2000 |}.

Definition sampleOverrideModel : ModelConfig :=
  {| configId := Some "cfg-2"; provider := ""; model := "claude";
     temperature := 1 # 5; maxTokens := 512 |}.

Definition coachA : CoachBrief :=
  {| cb_id := "A"; cb_name := "Coach A"; cb_avatar_url := None |}.

Definition coachB : CoachBrief :=
  {| cb_id := "B"; cb_name := "Coach B"; cb_avatar_url := None |}.

Definition sampleSession (m : DiscussionMode) : RoundtableSession :=
  {| session_id := Some "s1"; discussion_mode := m;
     coaches := Some [coachA; coachB]; moderator := None; is_active := true |}.

Definition sampleProps (m : DiscussionMode) : Props :=
  {| session := sampleSession m; modelConfig := sampleModel;
     kbTiming := KbOff; kbTopK := 5; kbMaxCandidates := 400 |}.

Definition sampleState (override : bool) : State :=
  {| messages := []; input := "hello"; isLoading := false; currentRound := 0;
     maxRounds := 2; debateStyle := Clash; streamingResponses := ∅;
     currentCoachId := None; overrideEnabled := override;
     overrideModelConfig := sampleOverrideModel; overrideKbTiming := KbCoach;
     overrideKbTopK := 3; overrideKbMaxCandidates := 100 |}.

Definition sampleClock : Clock :=
  {| now := "1700000000000"; iso := "2023-11-14T22:13:20.000Z" |}.

(** U+3000, the ideographic space, and U+00A0, the no-break space. *)
Definition ideographicSpace : string :=
  String.string_of_list_ascii (bytes [227; 128; 128]).

Definition noBreakSpace : string :=
  String.string_of_list_ascii (bytes [194; 160]).

End RoundtableChat.

(* ===================================================================== *)
(** ** Round orchestrator *)
(* ===================================================================== *)

Module Orchestrator.
Import RoundtableChat.

(** Modelled from the spec: a participant's display persona (name, style,
    system instructions); the server code that defines it is missing. *)
Record Persona := {
  persona_name : string;
  persona_style : string;
  persona_instructions : string;
}.

(** Modelled from the spec: a coach or moderator (identifier, persona,
    avatar reference), immutable during an exchange. *)
Record Participant := {
  participant_id : string;
  persona : Persona;
  avatar : option string;
}.

(** Modelled from the spec: a bundle of model parameters (provider, model
    name, temperature, max output length). *)
Record ModelParams := {
  mp_provider : string;
  mp_model : string;
  mp_temperature : Q;
  mp_max_tokens : Z;
}.

(** Modelled from the spec: the Session of the data model, with the
    session-level default model parameters the override supersedes. *)
Record Session := {
  ses_id : string;
  mode : DiscussionMode;
  roster : list Participant;
  ses_moderator : option Participant;
  active : bool;
  defaults : ModelParams;
}.

(** Modelled from the spec: the Turn Request, one exchange's input. *)
Record TurnRequest := {
  req_session : Session;
  user_message : string;
  attachments : list string;
  max_rounds : nat;
  debate_style : option DebateStyle;
  kb_timing : KbTiming;
  kb_top_k : nat;
  kb_max_candidates : nat;
  model_override : option ModelParams;
}.

(** Modelled from the spec: a retrieved text snippet with its relevance
    score. *)
Record Snippet := {
  snippet_text : string;
  relevance : Q;
}.

(** Modelled from the spec: the snippets attached to a Context Assembler
    call, and the warning a failed retrieval leaves on the turn. *)
Record Knowledge := {
  snippets : list Snippet;
  retrieval_warning : bool;
}.

(** Modelled from the spec: completion state of an Agent Turn. *)
Inductive TurnState := Complete | Failed.

(** Modelled from the spec: an Agent Turn once finalized (participant,
    message kind, round, accumulated text, completion state). *)
Record AgentTurn := {
  turn_participant : string;
  turn_kind : string;
  turn_round : nat;
  turn_text : string;
  turn_state : TurnState;
}.

(** Modelled from the spec: what the Generation Capability yields for one
    turn, a finite sequence of fragments that ends normally or, when
    [failure] is [Some msg], with a failure after the fragments. *)
Record GenResult := {
  fragments : list string;
  failure : option string;
}.

(** Modelled from the spec: the positions of an exchange at which the
    Knowledge Injection Policy is consulted. *)
Inductive Position :=
| BeforeExchange
| BeforeRound (r : nat)
| BeforeCoachTurn (r : nat) (id : string)
| BeforeModeratorPhase.

(** Modelled from the spec: what the external collaborators do in one
    exchange, listed by turn: [generate r id] is what the Generation
    Capability yields for the prompt of coach [id] in round [r], [moderate]
    what it yields for the moderator's prompt; the Knowledge Capability
    yields a ranked list of snippets or fails ([None]); [prior_history] is
    the stored history of the session.  The Generation Capability itself is
    a function of the prompt and the model parameters ([Backend] below), so
    two exchanges whose prompts differ have each an [Env] of their own. *)
Record Env := {
  generate : nat → string → GenResult;
  moderate : GenResult;
  retrieve : Position → option (list Snippet);
  prior_history : list AgentTurn;
}.

(** Modelled from the spec: the framing the debate style adds to the
    persona instructions (convergent critique vs. adversarial framing). *)
Inductive Framing := ConvergentCritique | AdversarialFraming.

(** Modelled from the spec: the input of one Context Assembler call. *)
Record AssemblerInput := {
  history : list AgentTurn;
  who : Persona;
  framing : option Framing;
  round : nat;
  knowledge : Knowledge;
  asm_message : string;
  asm_attachments : list string;
}.

(** Modelled from the spec: what the orchestrator does, in order: calls of
    the Knowledge Capability, of the Context Assembler and of the
    Generation Capability, and the events of the outbound stream. *)
Inductive Action :=
| Fetch (query : string) (top_k max_candidates : nat)
| Assemble (input : AssemblerInput)
| Generate (id : string) (params : ModelParams)
| Emit (e : RoundtableEvent).

(** Modelled from the spec: the Generation Capability, which given a prompt
    and model parameters yields the fragments of a turn.  The prompt is what
    the Context Assembler makes of its input, deterministically, so the
    backend is taken on that input. *)
Definition Backend : Type := AssemblerInput → ModelParams → GenResult.

(** Modelled from the spec: the results [env] lists are those the backend
    [b] yields on the prompts of the trace.  A call of the Context Assembler
    is followed by the call of the Generation Capability with its prompt;
    the moderator's prompt is the one assembled for round 0. *)
Fixpoint servedBy (b : Backend) (env : Env) (tr : list Action) : Prop :=
  match tr with
  | [] => True
  | a :: rest =>
      match a, rest with
      | Assemble i, Generate id params :: _ =>
          match round i with
          | O => moderate env
          | S _ => generate env (round i) id
          end = b i params
      | _, _ => True
      end
      ∧ servedBy b env rest
  end.

(** Modelled from the spec: the state one exchange owns, the actions so
    far and the finalized Agent Turns. *)
Record Run := {
  trace : list Action;
  transcript : list AgentTurn;
}.

(** Modelled from the spec: the two terminal states of the state machine. *)
Inductive Final := Done | Errored.

(** Modelled from the spec: configuration errors, rejected before any
    event is emitted. *)
Inductive ConfigError := EmptyRoster | MissingModerator.

(** Modelled from the spec: the result of invoking an exchange. *)
Inductive Outcome :=
| Rejected (e : ConfigError)
| Ran (run : Run) (final : Final).

Section Exchange.

(** The server-enforced ceiling on rounds, the tag of the moderator's
    message and the text of the exchange-level error are deployment
    constants the design document leaves open. *)
Variable round_ceiling : nat.
Variable moderator_kind : string.
Variable fatal_message : string.

Variable env : Env.
Variable req : TurnRequest.

(** Modelled from the spec: the Knowledge Injection Policy, a decision
    function over the timing and the orchestration position. *)
Definition shouldFetch (t : KbTiming) (pos : Position) : bool :=
  match t, pos with
  | KbMessage, BeforeExchange => true
  | KbRound, BeforeRound _ => true
  | KbCoach, BeforeCoachTurn _ _ => true
  | KbModerator, BeforeModeratorPhase => true
  | _, _ => false
  end.

(** Modelled from the spec: no snippets. *)
Definition noKnowledge : Knowledge :=
  {| snippets := []; retrieval_warning := false |}.

(** Modelled from the spec: a fetch at [pos] when the policy asks for one,
    with the user message as query; a failed retrieval degrades to no
    snippets and a warning.  Otherwise the knowledge in scope is kept. *)
Definition fetch (pos : Position) (current : Knowledge) : list Action * Knowledge :=
  if shouldFetch (kb_timing req) pos then
    ([Fetch (user_message req) (kb_top_k req) (kb_max_candidates req)],
     match retrieve env pos with
     | Some s => {| snippets := s; retrieval_warning := false |}
     | None => {| snippets := []; retrieval_warning := true |}
     end)
  else ([], current).

(** Modelled from the spec: the effective model parameters, a tagged
    choice between the override bundle and the session defaults. *)
Definition effectiveParams : ModelParams :=
  match model_override req with
  | Some bundle => bundle
  | None => defaults (req_session req)
  end.

(** Modelled from the spec: the debate style is meaningful in free mode
    only, where it selects the framing of the persona instructions. *)
Definition framingOf (m : DiscussionMode) (d : option DebateStyle) : option Framing :=
  match m, d with
  | Free, Some Converge => Some ConvergentCritique
  | Free, Some Clash => Some AdversarialFraming
  | _, _ => None
  end.

(** Modelled from the spec: the Coach Turn Executor's events, start, one
    content event per fragment in order, then the end event or, on a
    failure, an error scoped to the turn. *)
Definition executeTurn (g : GenResult) (id : string)
    (start stop : RoundtableEvent) : list RoundtableEvent :=
  start :: map (content id) (fragments g)
    ++ [match failure g with
        | None => stop
        | Some msg => error (Some id) msg
        end].

(** Modelled from the spec: whether the turn's generation ended normally. *)
Definition completed (g : GenResult) : bool :=
  match failure g with None => true | Some _ => false end.

(** Modelled from the spec: the Agent Turn finalized from a generation. *)
Definition finalize (id kind : string) (r : nat) (g : GenResult) : AgentTurn :=
  {| turn_participant := id; turn_kind := kind; turn_round := r;
     turn_text := foldr String.append "" (fragments g);
     turn_state := if completed g then Complete else Failed |}.

(** Modelled from the spec: append actions to the run. *)
Definition emit (acts : list Action) (run : Run) : Run :=
  {| trace := trace run ++ acts; transcript := transcript run |}.

(** Modelled from the spec: the Context Assembler input for a turn. *)
Definition assemblerInput (p : Participant) (r : nat) (k : Knowledge) (run : Run)
  : AssemblerInput :=
  {| history := prior_history env ++ transcript run;
     who := persona p;
     framing := framingOf (mode (req_session req)) (debate_style req);
     round := r;
     knowledge := k;
     asm_message := user_message req;
     asm_attachments := attachments req |}.

(** Modelled from the spec: one coach's turn in round [r]: the policy is
    consulted, the prompt assembled, the turn executed and finalized.  The
    result says whether the coach completed its turn. *)
Definition coachTurn (r : nat) (shared : Knowledge) (run : Run) (p : Participant)
  : Run * bool :=
  let id := participant_id p in
  let fk := fetch (BeforeCoachTurn r id) shared in
  let g := generate env r id in
  ({| trace := trace run ++ fk.1
        ++ [Assemble (assemblerInput p r fk.2 run); Generate id effectiveParams]
        ++ map Emit (executeTurn g id
                       (coach_start id (persona_name (persona p)) (avatar p))
                       (coach_end id));
      transcript := transcript run ++ [finalize id "response" r g] |},
   completed g).

(** Modelled from the spec: the turns of one round, sequentially in roster
    order; the second component lists the coaches that completed. *)
Fixpoint coachTurns (r : nat) (shared : Knowledge) (roster : list Participant)
    (run : Run) : Run * list Participant :=
  match roster with
  | [] => (run, [])
  | p :: rest =>
      let t := coachTurn r shared run p in
      let ts := coachTurns r shared rest t.1 in
      (ts.1, if t.2 then p :: ts.2 else ts.2)
  end.

(** Modelled from the spec: [budget] further rounds from round [r] on.  A
    coach whose turn failed is left out of the later rounds; when every
    coach of a round fails the exchange ends with an unscoped error. *)
Fixpoint rounds (budget r : nat) (shared : Knowledge) (roster : list Participant)
    (run : Run) : Run * Final :=
  match budget with
  | O => (run, Done)
  | S budget' =>
      let fk := fetch (BeforeRound r) shared in
      let ts := coachTurns r fk.2 roster (emit (fk.1 ++ [Emit (round_start (Z.of_nat r))]) run) in
      match ts.2 with
      | [] => (emit [Emit (error None fatal_message)] ts.1, Errored)
      | survivors =>
          rounds budget' (S r) shared survivors
            (emit [Emit (round_end (Z.of_nat r))] ts.1)
      end
  end.

(** Modelled from the spec: the Moderator Synthesizer, the turn executor
    run once with the moderator's persona over the transcript. *)
Definition moderatorPhase (m : Participant) (shared : Knowledge) (run : Run) : Run :=
  let id := participant_id m in
  let fk := fetch BeforeModeratorPhase shared in
  let g := moderate env in
  {| trace := trace run ++ fk.1
       ++ [Assemble (assemblerInput m 0 fk.2 run); Generate id effectiveParams]
       ++ map Emit (executeTurn g id
                      (moderator_start id (persona_name (persona m)) (avatar m) moderator_kind)
                      (moderator_end id moderator_kind));
     transcript := transcript run ++ [finalize id moderator_kind 0 g] |}.

(** Modelled from the spec: the round budget, one round in moderated mode
    and the requested rounds under the server's ceiling in free mode. *)
Definition roundBudget : nat :=
  match mode (req_session req) with
  | Moderated => 1
  | Free => Nat.min (max_rounds req) round_ceiling
  end.

(** Modelled from the spec: the validation of the Init state. *)
Definition validate : option ConfigError :=
  match roster (req_session req), mode (req_session req), ses_moderator (req_session req) with
  | [], _, _ => Some EmptyRoster
  | _, Moderated, None => Some MissingModerator
  | _, _, _ => None
  end.

(** Modelled from the spec: one exchange, Init, the rounds, the moderator
    phase in moderated mode, then [done]. *)
Definition exchange : Outcome :=
  match validate with
  | Some e => Rejected e
  | None =>
      let fk := fetch BeforeExchange noKnowledge in
      let rs := rounds roundBudget 1 fk.2 (roster (req_session req))
                  {| trace := fk.1; transcript := [] |} in
      match rs.2 with
      | Errored => Ran rs.1 Errored
      | Done =>
          let run :=
            match mode (req_session req), ses_moderator (req_session req) with
            | Moderated, Some m => moderatorPhase m fk.2 rs.1
            | _, _ => rs.1
            end in
          Ran (emit [Emit done] run) Done
      end
  end.

End Exchange.

(** *** Observations on a run *)

(** Modelled from the spec: the outbound event stream of a trace. *)
Definition events (tr : list Action) : list RoundtableEvent :=
  omap (λ a, match a with Emit e => Some e | _ => None end) tr.

(** Modelled from the spec: the calls of the Knowledge Capability. *)
Definition isFetch (a : Action) : bool :=
  match a with Fetch _ _ _ => true | _ => false end.

(** The number of calls of the Knowledge Capability in a trace. *)
Definition knowledgeCalls (tr : list Action) : nat :=
  length (List.filter isFetch tr).

(** Modelled from the spec: a trace without its Context Assembler calls
    (whose inputs hold the transcript so far). *)
Definition isAssemble (a : Action) : bool :=
  match a with Assemble _ => true | _ => false end.

(** A trace with its Context Assembler calls left out. *)
Definition skeleton (tr : list Action) : list Action :=
  List.filter (λ a, negb (isAssemble a)) tr.

(** Modelled from the spec: a knowledge call, or the start of a coach's
    turn; what is left of a trace when only these are kept. *)
Inductive KbObs :=
| KnowledgeCall
| CoachStart (id : string).

(** The knowledge call or coach start an action is, if any. *)
Definition kbObs (a : Action) : option KbObs :=
  match a with
  | Fetch _ _ _ => Some KnowledgeCall
  | Emit (coach_start id _ _) => Some (CoachStart id)
  | _ => None
  end.

(** Whether an observation is a knowledge call. *)
Definition isKnowledgeCall (o : KbObs) : bool :=
  match o with KnowledgeCall => true | CoachStart _ => false end.

(** Modelled from the spec: a knowledge call directly before the start of
    each coach's turn, for the turns of a roster. *)
Definition callThenStart (roster : list Participant) : list KbObs :=
  flat_map (λ P, [KnowledgeCall; CoachStart (participant_id P)]) roster.

(** The number of events of a stream that satisfy [f], and the kinds of
    event counted below. *)
Definition countEvents (f : RoundtableEvent → bool) (evs : list RoundtableEvent) : nat :=
  length (List.filter f evs).


(** [round_start] events. *)
Definition isRoundStart (e : RoundtableEvent) : bool :=
  match e with round_start _ => true | _ => false end.

(** [round_end] events. *)
Definition isRoundEnd (e : RoundtableEvent) : bool :=
  match e with round_end _ => true | _ => false end.

(** [moderator_start] events. *)
Definition isModeratorStart (e : RoundtableEvent) : bool :=
  match e with moderator_start _ _ _ _ => true | _ => false end.

(** [moderator_end] events. *)
Definition isModeratorEnd (e : RoundtableEvent) : bool :=
  match e with moderator_end _ _ => true | _ => false end.

(** The [done] event. *)
Definition isDone (e : RoundtableEvent) : bool :=
  match e with done => true | _ => false end.

(** Modelled from the spec: the events of a coach's turn are its start,
    content and end events and errors scoped to a coach. *)
Definition isCoachTurnEvent (e : RoundtableEvent) : bool :=
  match e with
  | coach_start _ _ _ | content _ _ | coach_end _ | error (Some _) _ => true
  | _ => false
  end.

(** *** The plan of an exchange

    The rounds an exchange runs and the roster active in each, as the
    failure policy determines them, and the actions they give rise to. *)

Section Plan.

Variable moderator_kind : string.
Variable fatal_message : string.
Variable env : Env.
Variable req : TurnRequest.

(** Modelled from the spec: the coaches of a round that complete their
    turn, in roster order. *)
Definition survivorsOf (r : nat) (roster : list Participant) : list Participant :=
  List.filter (λ p, completed (generate env r (participant_id p))) roster.

(** Modelled from the spec: the rounds run, with their number and active
    roster: at most [budget] rounds from [r] on, each with the survivors of
    the round before, stopping after a round nobody survives. *)
Fixpoint schedule (budget r : nat) (roster : list Participant)
  : list (nat * list Participant) :=
  match budget with
  | O => []
  | S budget' =>
      (r, roster) ::
      match survivorsOf r roster with
      | [] => []
      | survivors => schedule budget' (S r) survivors
      end
  end.

(** Modelled from the spec: the events of one coach's turn. *)
Definition coachEvents (r : nat) (p : Participant) : list RoundtableEvent :=
  executeTurn (generate env r (participant_id p)) (participant_id p)
    (coach_start (participant_id p) (persona_name (persona p)) (avatar p))
    (coach_end (participant_id p)).

(** Modelled from the spec: the events of the moderator's turn. *)
Definition moderatorEvents (m : Participant) : list RoundtableEvent :=
  executeTurn (moderate env) (participant_id m)
    (moderator_start (participant_id m) (persona_name (persona m)) (avatar m)
       moderator_kind)
    (moderator_end (participant_id m) moderator_kind).

(** Modelled from the spec: the knowledge call the policy makes at a
    position, if any. *)
Definition fetchActions (pos : Position) : list Action :=
  (fetch env req pos noKnowledge).1.

(** Modelled from the spec: the actions of one coach's turn, the Context
    Assembler call aside. *)
Definition turnActions (r : nat) (p : Participant) : list Action :=
  fetchActions (BeforeCoachTurn r (participant_id p))
  ++ Generate (participant_id p) (effectiveParams req)
  :: map Emit (coachEvents r p).

(** Modelled from the spec: how a round closes, [round_end] when a coach
    completed its turn and the unscoped error when none did. *)
Definition closing (r : nat) (roster : list Participant) : RoundtableEvent :=
  match survivorsOf r roster with
  | [] => error None fatal_message
  | _ => round_end (Z.of_nat r)
  end.

(** Modelled from the spec: the actions of a round, the Context Assembler
    calls aside: the round-level fetch, [round_start], the turns of the
    active roster, and the closing event. *)
Definition roundActions (rr : nat * list Participant) : list Action :=
  fetchActions (BeforeRound rr.1)
  ++ Emit (round_start (Z.of_nat rr.1))
  :: flat_map (turnActions rr.1) rr.2
  ++ [Emit (closing rr.1 rr.2)].

(** Modelled from the spec: the events of a round. *)
Definition roundEvents (rr : nat * list Participant) : list RoundtableEvent :=
  round_start (Z.of_nat rr.1)
  :: flat_map (coachEvents rr.1) rr.2
  ++ [closing rr.1 rr.2].

(** Modelled from the spec: a round is fatal when none of its coaches
    completes; the exchange errs when it runs a fatal round. *)
Definition fatalRound (rr : nat * list Participant) : bool :=
  match survivorsOf rr.1 rr.2 with [] => true | _ => false end.

(** Modelled from the spec: the final state a schedule leads to. *)
Definition finalOf (sched : list (nat * list Participant)) : Final :=
  if existsb fatalRound sched then Errored else Done.

End Plan.

(** *** The plan of a whole exchange *)

Section WholePlan.

Variable round_ceiling : nat.
Variable moderator_kind : string.
Variable fatal_message : string.
Variable env : Env.
Variable req : TurnRequest.

(** Modelled from the spec: the rounds of the exchange of [req]. *)
Definition exchangeSchedule : list (nat * list Participant) :=
  schedule env (roundBudget round_ceiling req) 1 (roster (req_session req)).

(** Modelled from the spec: the moderator of a moderated session. *)
Definition moderatorOf : option Participant :=
  match mode (req_session req) with
  | Moderated => ses_moderator (req_session req)
  | Free => None
  end.

(** Modelled from the spec: the actions of the moderator phase, the Context
    Assembler call aside. *)
Definition moderatorActions : list Action :=
  match moderatorOf with
  | Some m =>
      fetchActions env req BeforeModeratorPhase
      ++ Generate (participant_id m) (effectiveParams req)
      :: map Emit (moderatorEvents moderator_kind env m)
  | None => []
  end.

(** Modelled from the spec: the actions of the exchange, the Context
    Assembler calls aside: the up-front fetch, the rounds and, unless a
    round was fatal, the moderator phase and [done]. *)
Definition planActions : list Action :=
  fetchActions env req BeforeExchange
  ++ flat_map (roundActions fatal_message env req) exchangeSchedule
  ++ match finalOf env exchangeSchedule with
     | Errored => []
     | Done => moderatorActions ++ [Emit done]
     end.

(** Modelled from the spec: the events of the exchange. *)
Definition planEvents : list RoundtableEvent :=
  flat_map (roundEvents fatal_message env) exchangeSchedule
  ++ match finalOf env exchangeSchedule with
     | Errored => []
     | Done =>
         match moderatorOf with
         | Some m => moderatorEvents moderator_kind env m
         | None => []
         end ++ [done]
     end.

End WholePlan.

(** The run of an outcome (empty for a rejected request). *)
Definition runOf (o : Outcome) : Run :=
  match o with
  | Ran run _ => run
  | Rejected _ => {| trace := []; transcript := [] |}
  end.

(** The number of coach turns in a schedule. *)
Definition coachTurnCount (sched : list (nat * list Participant)) : nat :=
  length (flat_map snd sched).

(** *** Requests that differ in the debate style only *)

(** Modelled from the spec: the request with another debate style. *)
Definition withStyle (d : option DebateStyle) (req : TurnRequest) : TurnRequest :=
  {| req_session := req_session req; user_message := user_message req;
     attachments := attachments req; max_rounds := max_rounds req;
     debate_style := d; kb_timing := kb_timing req; kb_top_k := kb_top_k req;
     kb_max_candidates := kb_max_candidates req;
     model_override := model_override req |}.

(** Modelled from the spec: an action with the framing of the persona
    instructions blanked. *)
Definition unframe (a : Action) : Action :=
  match a with
  | Assemble i =>
      Assemble {| history := history i; who := who i; framing := None;
                  round := round i; knowledge := knowledge i;
                  asm_message := asm_message i;
                  asm_attachments := asm_attachments i |}
  | _ => a
  end.

(** Modelled from the spec: two runs that differ at most in the framing
    handed to the Context Assembler. *)
Definition sameButFraming (run1 run2 : Run) : Prop :=
  map unframe (trace run1) = map unframe (trace run2)
  ∧ transcript run1 = transcript run2.

(** Modelled from the spec: the framings handed to the Context Assembler. *)
Definition framings (tr : list Action) : list (option Framing) :=
  omap (λ a, match a with Assemble i => Some (framing i) | _ => None end) tr.

(** Modelled from the spec: every Context Assembler call of the run
    received the framing the request's mode and debate style select. *)
Definition framed (req : TurnRequest) (run : Run) : Prop :=
  Forall (λ f, f = framingOf (mode (req_session req)) (debate_style req))
    (framings (trace run)).

(** Modelled from the spec: the kind of an event and the round or
    participant it belongs to: the event without the text the backend
    produced (the fragment of a content event, the message of an error). *)
Definition eventShape (e : RoundtableEvent) : RoundtableEvent :=
  match e with
  | content id _ => content id ""
  | error id _ => error id ""
  | _ => e
  end.

(** Modelled from the spec: an action without what depends on the text the
    collaborators produced or on the debate style: the text of an event, and
    the history, the snippets and the framing handed to the Context
    Assembler. *)
Definition actionShape (a : Action) : Action :=
  match a with
  | Assemble i =>
      Assemble {| history := []; who := who i; framing := None;
                  round := round i; knowledge := noKnowledge;
                  asm_message := asm_message i;
                  asm_attachments := asm_attachments i |}
  | Emit e => Emit (eventShape e)
  | _ => a
  end.

(** Modelled from the spec: two runs that did the same, up to text and
    framing. *)
Definition sameShape (run1 run2 : Run) : Prop :=
  map actionShape (trace run1) = map actionShape (trace run2).

(** Modelled from the spec: what the orchestrator sees of a generation, the
    number of fragments and whether it ended normally. *)
Definition genShape (g : GenResult) : nat * bool :=
  (length (fragments g), completed g).

(** *** Sample exchanges *)

Definition samplePersona (name : string) : Persona :=
  {| persona_name := name; persona_style := "analytical";
     persona_instructions := "Be concise." |}.

(** A participant named after its identifier. *)
Definition participant (id : string) : Participant :=
  {| participant_id := id; persona := samplePersona id; avatar := None |}.

(** Session defaults of the sample sessions. *)
Definition sampleParams : ModelParams :=
  {| mp_provider := "openai"; mp_model := "gpt-4o";
     mp_temperature := 7 # 10; mp_max_tokens := 2000 |}.

(** A session of the coaches [ids] with moderator "M". *)
Definition orchSession (m : DiscussionMode) (ids : list string) : Session :=
  {| ses_id := "s1"; mode := m; roster := map participant ids;
     ses_moderator := Some (participant "M"); active := true;
     defaults := sampleParams |}.

(** A request of [n] rounds with knowledge timing [t]. *)
Definition orchRequest (m : DiscussionMode) (ids : list string) (n : nat)
    (t : KbTiming) : TurnRequest :=
  {| req_session := orchSession m ids; user_message := "Should I size down?";
     attachments := []; max_rounds := n;
     debate_style := match m with Free => Some Converge | Moderated => None end;
     kb_timing := t; kb_top_k := 5; kb_max_candidates := 400;
     model_override := None |}.

(** Every generation yields two fragments and ends normally. *)
Definition calmEnv : Env :=
  {| generate := λ _ _, {| fragments := ["Hold"; " on"]; failure := None |};
     moderate := {| fragments := ["Summary"]; failure := None |};
     retrieve := λ _, Some [];
     prior_history := [] |}.

(** As [calmEnv], with other words. *)
Definition terseEnv : Env :=
  {| generate := λ _ _, {| fragments := ["No"; "."]; failure := None |};
     moderate := {| fragments := ["Summary"]; failure := None |};
     retrieve := λ _, Some [];
     prior_history := [] |}.

(** Every coach's generation fails at once. *)
Definition refusingEnv : Env :=
  {| generate := λ _ _, {| fragments := []; failure := Some "refused" |};
     moderate := {| fragments := ["Summary"]; failure := None |};
     retrieve := λ _, Some [];
     prior_history := [] |}.

(** A backend that answers every prompt as in [calmEnv], except that it
    refuses a prompt with the adversarial framing. *)
Definition framingSensitive : Backend :=
  λ i _,
    match framing i with
    | Some AdversarialFraming => {| fragments := []; failure := Some "refused" |}
    | _ => {| fragments := ["Hold"; " on"]; failure := None |}
    end.

(** As [calmEnv], but coach "A" fails in round 1 after one fragment. *)
Definition failingEnv : Env :=
  {| generate := λ r id,
       if bool_decide (r = 1%nat) && bool_decide (id = "A")
       then {| fragments := ["Ho"]; failure := Some "timeout" |}
       else {| fragments := ["Hold"; " on"]; failure := None |};
     moderate := {| fragments := ["Summary"]; failure := None |};
     retrieve := λ _, Some [];
     prior_history := [] |}.

End Orchestrator.

(* ===================================================================== *)
(** ** Roster selector: what the cards show *)
(* ===================================================================== *)

Module CoachMultiSelectorView.
Import CoachMultiSelector.

(** [isDisabled] of a coach's card: the coach is not selected and the
    selection is full. *)
Definition isDisabled (p : CoachMultiSelectorProps) (coachId : string) : bool :=
  negb (includes (selectedIds p) coachId)
  && bool_decide (maxCountOf p ≤ Z.of_nat (length (selectedIds p))).

(** The card's [onClick]: [!isDisabled && handleToggle(coach.id)]. *)
Definition cardClick (p : CoachMultiSelectorProps) (coachId : string)
  : option (list string) :=
  if isDisabled p coachId then None else handleToggle p coachId.

(** The hint under the grid is rendered when
    [!isValid && selectedIds.length > 0]. *)
Definition showsMinimumHint (p : CoachMultiSelectorProps) : bool :=
  negb (isValid p) && bool_decide (0 < length (selectedIds p))%nat.

(** The own properties of the [labels] object of [getStyleLabel]. *)
Definition labels : list (string * string) :=
  [("empathetic", "温和共情"); ("disciplined", "严厉纪律");
   ("analytical", "数据分析"); ("motivational", "激励鼓舞");
   ("socratic", "苏格拉底")].

(** [labels] is an object literal, so [labels[style]] also finds the
    properties it inherits from [Object.prototype]. *)
Definition objectPrototypeKeys : list string := RoundtableChat.objectPrototypeKeys.

(** What [getStyleLabel] returns: a string, or the function or object that
    [Object.prototype] holds under [key]. *)
Inductive LabelValue :=
| LabelString (s : string)
| InheritedValue (key : string).

Fixpoint ownLabel (ls : list (string * string)) (style : string) : option string :=
  match ls with
  | [] => None
  | (k, v) :: rest => if decide (k = style) then Some v else ownLabel rest style
  end.

(** [labels[style] || style] *)
Definition getStyleLabel (style : string) : LabelValue :=
  match ownLabel labels style with
  | Some v => if decide (v = "") then LabelString style else LabelString v
  | None =>
      if bool_decide (style ∈ objectPrototypeKeys) then InheritedValue style
      else LabelString style
  end.

End CoachMultiSelectorView.

(* ===================================================================== *)
(** ** Chat component: attachments, effects and controls *)
(* ===================================================================== *)

Module RoundtableChatIO.
Import RoundtableChat.

(** *** Uploading attachments *)

(** A response of [fetch]: [ok], the [detail] of an error body (absent
    when the body does not parse or holds none) and the body parsed as an
    [A] ([None] when [response.json()] rejects). *)
Record Response (A : Type) := {
  ok : bool;
  detail : option string;
  json : option A;
}.
Arguments ok {A} _.
Arguments detail {A} _.
Arguments json {A} _.

(** The outcome of a [fetch] call: [None] when the promise rejects. *)
Definition Fetch (A : Type) : Type := option (Response A).

(** What an [async] helper does: it returns, or throws an error with the
    given message ([None] for an error raised by the platform). *)
Inductive Result (A : Type) :=
| Returned (a : A)
| Threw (message : option string).
Arguments Returned {A} _.
Arguments Threw {A} _.

Record UploadResult := {
  up_id : string;
  up_fileName : string;
  up_fileSize : Z;
  up_mimeType : string;
  up_type : string;
  up_url : string;
  up_thumbnailBase64 : option string;
}.

(** The body of /files/extract and of /files/transcribe. *)
Record ExtractBody := {
  eb_success : bool;
  eb_text : option string;
}.

Record TranscribeBody := {
  tb_text : option string;
}.

(** The object [{ text }] two of the helpers return. *)
Record TextResult := {
  text : option string;
}.

(** [uploadFile] *)
Definition uploadFile (f : Fetch UploadResult) : Result UploadResult :=
  match f with
  | None => Threw None
  | Some response =>
      if ok response then
        match json response with
        | Some body => Returned body
        | None => Threw None
        end
      else Threw (Some (str_or (default "" (detail response)) "Failed to upload file"))
  end.

(** [extractText]: [null] on every failure. *)
Definition extractText (f : Fetch ExtractBody) : option TextResult :=
  match f with
  | None => None
  | Some response =>
      if ok response then
        match json response with
        | Some data => if eb_success data then Some {| text := eb_text data |} else None
        | None => None
        end
      else None
  end.

(** [transcribeAudio]: [null] on every failure. *)
Definition transcribeAudio (f : Fetch TranscribeBody) : option TextResult :=
  match f with
  | None => None
  | Some response =>
      if ok response then
        match json response with
        | Some data => Some {| text := tb_text data |}
        | None => None
        end
      else None
  end.

Record File := {
  file_name : string;
}.

Record PendingAttachment := {
  pa_file : File;
  pa_type : string;
  pa_previewUrl : option string;
}.

(** What the network and the [FileReader] do for one attachment:
    the three [fetch] outcomes and the data URL [fileToBase64] resolves to
    ([None] when the reader fails and the promise rejects). *)
Record Outcomes := {
  upload_fetch : Fetch UploadResult;
  base64_read : option string;
  extract_fetch : Fetch ExtractBody;
  transcribe_fetch : Fetch TranscribeBody;
}.

Section Attachments.

(** [isImageForVision] and [canExtractText] of types/chat, which is not
    among the sources. *)
Variable isImageForVision : string → bool.
Variable canExtractText : string → bool.

(** The body of the loop of [processAttachments] for one attachment: the
    pair pushed, or [None] when the [try] block throws. *)
Definition processOne (item : PendingAttachment * Outcomes)
  : option (ChatAttachment * ApiMessageAttachment) :=
  let att := item.1 in
  let o := item.2 in
  match uploadFile (upload_fetch o) with
  | Threw _ => None
  | Returned result =>
      let base64 :=
        if isImageForVision (pa_type att) then
          match base64_read o with
          | Some data => Returned (Some data)
          | None => Threw None
          end
        else Returned None in
      match base64 with
      | Threw _ => None
      | Returned base64Data =>
          let extracted :=
            if canExtractText (pa_type att) then extractText (extract_fetch o)
            else None in
          let transcribed :=
            if decide (pa_type att = "audio") then transcribeAudio (transcribe_fetch o)
            else None in
          Some
            ({| ca_id := up_id result; ca_type := pa_type att;
                ca_fileName := up_fileName result; ca_fileSize := up_fileSize result;
                ca_mimeType := up_mimeType result; ca_url := up_url result;
                ca_thumbnailUrl :=
                  if decide (up_type result = "image") then pa_previewUrl att else None;
                ca_extractedText := extracted ≫= text;
                ca_transcription := transcribed ≫= text |},
             {| aa_id := up_id result; aa_type := pa_type att;
                aa_fileName := up_fileName result; aa_fileSize := up_fileSize result;
                aa_mimeType := up_mimeType result; aa_url := up_url result;
                aa_base64Data := base64Data;
                aa_extractedText := extracted ≫= text;
                aa_transcription := transcribed ≫= text |})
      end
  end.

(** [processAttachments]: the loop pushes to [uploaded] and
    [apiAttachments]; an attachment whose processing threw is skipped. *)
Definition processAttachments (items : list (PendingAttachment * Outcomes))
  : list ChatAttachment * list ApiMessageAttachment :=
  foldl (λ acc item,
           match processOne item with
           | Some ca => (acc.1 ++ [ca.1], acc.2 ++ [ca.2])
           | None => acc
           end) ([], []) items.

(** [handleSend value attachments]: [processAttachments] runs when
    [attachments?.length] is truthy. *)
Definition handleSendAttachments (p : Props) (clk : Clock) (value : string)
    (attachments : option (list (PendingAttachment * Outcomes)))
    (stream : list (Clock * RoundtableEvent)) (fin : StreamEnd)
    (st : State) : State :=
  handleSend p clk value
    match attachments with
    | Some (item :: items) => processAttachments (item :: items)
    | _ => ([], [])
    end stream fin st.

Definition requestSentAttachments (p : Props) (value : string)
    (attachments : option (list (PendingAttachment * Outcomes)))
    (st : State) : option ChatRequest :=
  requestSent p value
    match attachments with
    | Some (item :: items) => processAttachments (item :: items)
    | _ => ([], [])
    end st.

End Attachments.

(** The fields the two records of an attachment share. *)
Definition paired (c : ChatAttachment) (a : ApiMessageAttachment) : Prop :=
  ca_id c = aa_id a ∧ ca_type c = aa_type a ∧ ca_fileName c = aa_fileName a
  ∧ ca_fileSize c = aa_fileSize a ∧ ca_mimeType c = aa_mimeType a
  ∧ ca_url c = aa_url a ∧ ca_extractedText c = aa_extractedText a
  ∧ ca_transcription c = aa_transcription a.

(** The upload answered with a parsed body and, for an image sent to a
    vision model, the file could be read. *)
Definition kept (isImageForVision : string → bool)
    (item : PendingAttachment * Outcomes) : bool :=
  match upload_fetch item.2 with
  | Some response =>
      ok response
      && bool_decide (is_Some (json response))
      && (negb (isImageForVision (pa_type item.1))
          || bool_decide (is_Some (base64_read item.2)))
  | None => false
  end.

(** *** Initial state and effects *)

(** The initial values of the [useState] cells. *)
Definition initialState (p : Props) (initialMessages : list RoundtableMessage) : State :=
  {| messages := initialMessages; input := ""; isLoading := false;
     currentRound := 0;
     maxRounds := if is_free (discussion_mode (session p)) then 2 else 1;
     debateStyle := Converge; streamingResponses := ∅; currentCoachId := None;
     overrideEnabled := false; overrideModelConfig := modelConfig p;
     overrideKbTiming := kbTiming p; overrideKbTopK := kbTopK p;
     overrideKbMaxCandidates := kbMaxCandidates p |}.

Definition setDebateStyle (v : DebateStyle) (st : State) : State :=
  {| messages := messages st; input := input st; isLoading := isLoading st;
     currentRound := currentRound st; maxRounds := maxRounds st;
     debateStyle := v; streamingResponses := streamingResponses st;
     currentCoachId := currentCoachId st; overrideEnabled := overrideEnabled st;
     overrideModelConfig := overrideModelConfig st;
     overrideKbTiming := overrideKbTiming st; overrideKbTopK := overrideKbTopK st;
     overrideKbMaxCandidates := overrideKbMaxCandidates st |}.

(** The four setters of the override cells, as one update of the bundle. *)
Definition setOverrideBundle (b : ConfigBundle) (st : State) : State :=
  {| messages := messages st; input := input st; isLoading := isLoading st;
     currentRound := currentRound st; maxRounds := maxRounds st;
     debateStyle := debateStyle st; streamingResponses := streamingResponses st;
     currentCoachId := currentCoachId st; overrideEnabled := overrideEnabled st;
     overrideModelConfig := b_model b;
     overrideKbTiming := b_kbTiming b; overrideKbTopK := b_kbTopK b;
     overrideKbMaxCandidates := b_kbMaxCandidates b |}.

Definition setOverrideModelConfig (v : ModelConfig) (st : State) : State :=
  setOverrideBundle
    {| b_model := v; b_kbTiming := overrideKbTiming st; b_kbTopK := overrideKbTopK st;
       b_kbMaxCandidates := overrideKbMaxCandidates st |} st.

Definition setOverrideKbTiming (v : KbTiming) (st : State) : State :=
  setOverrideBundle
    {| b_model := overrideModelConfig st; b_kbTiming := v;
       b_kbTopK := overrideKbTopK st;
       b_kbMaxCandidates := overrideKbMaxCandidates st |} st.

Definition setOverrideKbTopK (v : Z) (st : State) : State :=
  setOverrideBundle
    {| b_model := overrideModelConfig st; b_kbTiming := overrideKbTiming st;
       b_kbTopK := v; b_kbMaxCandidates := overrideKbMaxCandidates st |} st.

Definition setOverrideKbMaxCandidates (v : Z) (st : State) : State :=
  setOverrideBundle
    {| b_model := overrideModelConfig st; b_kbTiming := overrideKbTiming st;
       b_kbTopK := overrideKbTopK st; b_kbMaxCandidates := v |} st.

(** The effect on [session.id] and [session.discussion_mode] that resets
    the debate style. *)
Definition syncDebateStyle (st : State) : State := setDebateStyle Converge st.

(** The effect on the session and its settings: the override cells are
    reset to the session's values and the override is switched off. *)
Definition syncOverride (p : Props) (st : State) : State :=
  setOverrideEnabled (λ _, false) (setOverrideBundle (sessionBundle p) st).

(** The three effects that run when the session changes. *)
Definition sessionEffects (p : Props) (st : State) : State :=
  syncOverride p (syncDebateStyle (syncMaxRounds p st)).

(** *** Controls

    One step of the component: a control the user operates, or a step of a
    running [handleSend].  A control is available when it is rendered and
    not disabled.  The steps of [handleSend] are taken one at a time, so the
    controls that stay enabled while an exchange runs may be operated in
    between; the [catch] step is allowed at any point of an exchange. *)

Definition roundChoices : list Z := [1; 2; 3].
Definition topKChoices : list Z := [0; 3; 5; 8; 10; 15; 20].
Definition candidateChoices : list Z := [100; 200; 400; 800; 1200; 2000].

Inductive step (p : Props) : State → State → Prop :=
| step_rounds st n :
    discussion_mode (session p) = Free → is_active (session p) = true →
    n ∈ roundChoices →
    step p st (setMaxRounds n st)
| step_style st d :
    discussion_mode (session p) = Free → is_active (session p) = true →
    step p st (setDebateStyle d st)
| step_override st :
    isLoading st = false → is_active (session p) = true →
    step p st (toggleOverride st)
| step_override_model st c :
    overrideEnabled st = true →
    step p st (setOverrideModelConfig c st)
| step_override_timing st t :
    overrideEnabled st = true →
    step p st (setOverrideKbTiming t st)
| step_override_top_k st n :
    overrideEnabled st = true → n ∈ topKChoices →
    step p st (setOverrideKbTopK n st)
| step_override_candidates st n :
    overrideEnabled st = true → n ∈ candidateChoices →
    step p st (setOverrideKbMaxCandidates n st)
| step_input st v :
    is_active (session p) = true →
    step p st (setInput v st)
| step_send_invalid st clk value :
    is_active (session p) = true →
    ignored st value = false → truthy (session_id (session p)) = false →
    step p st (setMessages (λ prev, prev ++ [invalidSessionMessage clk]) st)
| step_send_begin st clk value uploaded :
    is_active (session p) = true →
    starts_exchange p st value = true →
    step p st (beginExchange p clk value uploaded st)
| step_event st renderRound clk e :
    isLoading st = true →
    step p st (handleStreamEvent p renderRound clk e st)
| step_catch st fin :
    isLoading st = true →
    step p st (catchError p fin st)
| step_finally st :
    isLoading st = true →
    step p st (finally st).

(** Any number of steps. *)
Inductive steps (p : Props) : State → State → Prop :=
| steps_refl st : steps p st st
| steps_step st1 st2 st3 : steps p st1 st2 → step p st2 st3 → steps p st1 st3.

(** A state the component is in right after mounting, or after the
    effects that follow a change of session have run. *)
Definition fresh (p : Props) (st : State) : Prop :=
  (∃ initialMessages, st = initialState p initialMessages)
  ∨ (∃ before, st = sessionEffects p before).

(** *** What the message area renders *)

(** The value of [showRoundIndicator && msg.turn_number && <RoundIndicator
    round={msg.turn_number} />] for the message at [idx]: [false], the number
    0, or the indicator. *)
Inductive IndicatorCell :=
| NoIndicator
| ZeroValue
| RoundIndicator (round : Z).

Definition showRoundIndicator (msgs : list RoundtableMessage) (idx : nat)
    (msg : RoundtableMessage) : bool :=
  match m_turn_number msg with
  | None => false
  | Some _ =>
      match idx with
      | O => true
      | S prev =>
          negb (bool_decide ((msgs !! prev) ≫= m_turn_number = m_turn_number msg))
      end
  end.

Definition indicatorCell (msgs : list RoundtableMessage) (idx : nat)
    (msg : RoundtableMessage) : IndicatorCell :=
  if showRoundIndicator msgs idx msg then
    match m_turn_number msg with
    | Some 0 | None => ZeroValue
    | Some n => RoundIndicator n
    end
  else NoIndicator.

(** The cells of [messages.map((msg, idx) => ...)]. *)
Definition indicatorCells (msgs : list RoundtableMessage) : list IndicatorCell :=
  imap (indicatorCell msgs) msgs.

(** The cell a message of round [r] gets when it opens a round. *)
Definition cellOfRound (r : Z) : IndicatorCell :=
  if decide (r = 0) then ZeroValue else RoundIndicator r.

(** The same cells computed along the list: [prev] is [None] at the first
    message and otherwise the round number of the message before. *)
Definition cellAfter (prev : option (option Z)) (msg : RoundtableMessage)
  : IndicatorCell :=
  match m_turn_number msg with
  | None => NoIndicator
  | Some n =>
      match prev with
      | Some t => if decide (t = Some n) then NoIndicator else cellOfRound n
      | None => cellOfRound n
      end
  end.

Fixpoint cellsAfter (prev : option (option Z)) (msgs : list RoundtableMessage)
  : list IndicatorCell :=
  match msgs with
  | [] => []
  | m :: ms => cellAfter prev m :: cellsAfter (Some (m_turn_number m)) ms
  end.

(** The round number of the last message of [msgs], as [cellsAfter] wants
    it, [prev] for no message. *)
Definition turnBefore (prev : option (option Z)) (msgs : list RoundtableMessage)
  : option (option Z) :=
  match last msgs with
  | Some m => Some (m_turn_number m)
  | None => prev
  end.

(** The spinner is rendered when
    [isLoading && Object.keys(streamingResponses).length === 0]. *)
Definition showsSpinner (st : State) : bool :=
  isLoading st && bool_decide (streamingResponses st = ∅).

(** *** Streams of whole turns *)

(** A turn as the stream carries it: its start event, a content event per
    fragment, its end event.  [turn_type] is [None] for a coach and the
    message type for the moderator. *)
Record Turn := {
  turn_id : string;
  turn_name : string;
  turn_avatar : option string;
  turn_type : option string;
  turn_fragments : list string;
}.

Definition turnEvents (t : Turn) : list RoundtableEvent :=
  match turn_type t with
  | None => coach_start (turn_id t) (turn_name t) (turn_avatar t)
  | Some mt => moderator_start (turn_id t) (turn_name t) (turn_avatar t) mt
  end
  :: map (content (turn_id t)) (turn_fragments t)
  ++ [match turn_type t with
      | None => coach_end (turn_id t)
      | Some mt => moderator_end (turn_id t) mt
      end].

(** Events that touch no in-flight response. *)
Definition is_marker (e : RoundtableEvent) : bool :=
  match e with
  | round_start _ | round_end _ | done | error _ _ => true
  | _ => false
  end.

(** A stream made of whole turns, one after the other, with markers
    between them. *)
Inductive turnStream : list RoundtableEvent → list Turn → Prop :=
| turnStream_nil : turnStream [] []
| turnStream_marker e evs ts :
    is_marker e = true → turnStream evs ts → turnStream (e :: evs) ts
| turnStream_turn t evs ts :
    turnStream evs ts → turnStream (turnEvents t ++ evs) (t :: ts).

(** The message type a turn's message gets. *)
Definition turnMessageType (t : Turn) : string :=
  match turn_type t with
  | None => "response"
  | Some mt => mt
  end.

(** *** White space *)

Definition chars (s : string) : list Ascii.ascii := String.list_ascii_of_string s.

(** A sequence of characters of [ws]. *)
Inductive spaces (ws : list (list Ascii.ascii)) : list Ascii.ascii → Prop :=
| spaces_nil : spaces ws []
| spaces_cons w l : w ∈ ws → spaces ws l → spaces ws (w ++ l).

(** [s] holds white space only. *)
Definition blank (s : string) : Prop := spaces whiteSpace (chars s).




(** *** Looking a coach up *)

(** The last coach of the list with the given id. *)
Definition lastCoachWith (id : string) (cs : list CoachBrief) : option CoachBrief :=
  last (List.filter (λ c, bool_decide (cb_id c = id)) cs).

(** An entry built by content events alone: it holds text and nothing else. *)
Definition bare (r : StreamingCoachResponse) : Prop :=
  s_coach_id r = None ∧ s_coach_name r = None ∧ s_coach_avatar r = None
  ∧ s_isStreaming r = None ∧ s_message_type r = None.

(** What [id]'s entry is after fragments [fs] arrived for a participant
    that had no entry. *)
Definition accumulatedBare (id : string) (fs : list string) (st : State) : Prop :=
  match fs with
  | [] => streamingResponses st !! id = None
  | _ => ∃ r, streamingResponses st !! id = Some r
              ∧ s_content r = concatenation fs ∧ bare r
  end.

(** *** Reading a stream *)

(** An end event for [id], at some point of the stream. *)
Definition endsTurn (stream : list (Clock * RoundtableEvent)) (id : string) : Prop :=
  ∃ ce, ce ∈ stream ∧ is_end_for id ce.2 = true.

Definition is_end (e : RoundtableEvent) : bool :=
  match e with
  | coach_end _ | moderator_end _ _ => true
  | _ => false
  end.

(** The cells no stream event writes. *)
Definition untouched (st : State)
  : string * bool * Z * DebateStyle * bool * ConfigBundle :=
  (input st, isLoading st, maxRounds st, debateStyle st, overrideEnabled st,
   overrideBundle st).

(** What every message recorded from a stream looks like. *)
Definition recorded (p : Props) (rr : Z) (stream : list (Clock * RoundtableEvent))
    (m : RoundtableMessage) : Prop :=
  m_role m = Assistant
  ∧ m_turn_number m = Some rr
  ∧ m_session_id m = session_id (session p)
  ∧ m_attachments m = None
  ∧ ∃ id, m_coach_id m = Some id ∧ endsTurn stream id.

(** The round of the last [round_start] of a stream, [r] when it has none. *)
Definition lastRoundStart (r : Z) (stream : list (Clock * RoundtableEvent)) : Z :=
  foldl (λ acc ce, match ce.2 with round_start n => n | _ => acc end) r stream.

End RoundtableChatIO.

(* ===================================================================== *)
(** ** Properties of the roster selector *)
(* ===================================================================== *)

Module SelectorFacts.
Import CoachMultiSelector.

Lemma includes_spec (ids : list string) (c : string) :
  includes ids c = true ↔ c ∈ ids.
Proof. unfold includes. apply bool_decide_eq_true. Qed.

Lemma maxCountOf_withSelection p ids :
  maxCountOf (withSelection p ids) = maxCountOf p.
Proof. reflexivity. Qed.

Lemma handleToggle_selected p c :
  c ∈ selectedIds p →
  handleToggle p c = Some (filter (λ id, id ≠ c) (selectedIds p)).
Proof.
  intros Hin. unfold handleToggle.
  apply includes_spec in Hin. now rewrite Hin.
Qed.

Lemma handleToggle_unselected p c :
  c ∉ selectedIds p →
  handleToggle p c =
    if bool_decide (Z.of_nat (length (selectedIds p)) < maxCountOf p)
    then Some (selectedIds p ++ [c]) else None.
Proof.
  intros Hnin. unfold handleToggle.
  destruct (includes (selectedIds p) c) eqn:E; [|reflexivity].
  apply includes_spec in E. contradiction.
Qed.

Lemma toggle_within_max p c : within_max p → within_max (toggle p c).
Proof.
  unfold within_max, toggle. intros Hb.
  destruct (decide (c ∈ selectedIds p)) as [Hin|Hnin].
  - rewrite (handleToggle_selected _ _ Hin). simpl.
    rewrite maxCountOf_withSelection.
    pose proof (length_filter (λ id, id ≠ c) (selectedIds p)). lia.
  - rewrite (handleToggle_unselected _ _ Hnin).
    case_bool_decide as Hlt; [|exact Hb].
    simpl. rewrite maxCountOf_withSelection, length_app. simpl. lia.
Qed.

Lemma toggles_within_max cs : ∀ p, within_max p → within_max (toggles p cs).
Proof.
  unfold toggles. induction cs as [|c cs IH]; intros p Hb; simpl.
  - exact Hb.
  - apply IH, toggle_within_max, Hb.
Qed.

Lemma toggle_removes p c : c ∈ selectedIds p → c ∉ selectedIds (toggle p c).
Proof.
  intros Hin. unfold toggle. rewrite (handleToggle_selected _ _ Hin). simpl.
  rewrite list_elem_of_filter. tauto.
Qed.

Lemma isValid_spec p :
  isValid p = true ↔
  minCountOf p ≤ Z.of_nat (length (selectedIds p)) ≤ maxCountOf p.
Proof.
  unfold isValid. rewrite andb_true_iff, !bool_decide_eq_true. tauto.
Qed.

(** C10.  From a selection of at most [maxCount] coaches, every sequence of
    toggles leaves at most [maxCount] coaches selected.  Toggling a selected
    coach hands the selection without that coach to [onSelectionChange];
    toggling an unselected coach appends it when fewer than [maxCount] are
    selected and otherwise changes nothing; [isValid] holds exactly for
    sizes from [minCount] to [maxCount]; the two bounds default to 2 and 5. *)
Theorem roster_selector_bound (p : CoachMultiSelectorProps) :
  (∀ cs, within_max p → within_max (toggles p cs))
  ∧ (∀ c, c ∈ selectedIds p →
       handleToggle p c = Some (filter (λ id, id ≠ c) (selectedIds p))
       ∧ c ∉ selectedIds (toggle p c))
  ∧ (∀ c, c ∉ selectedIds p →
       (Z.of_nat (length (selectedIds p)) < maxCountOf p
        ∧ handleToggle p c = Some (selectedIds p ++ [c]))
       ∨ (maxCountOf p ≤ Z.of_nat (length (selectedIds p))
          ∧ handleToggle p c = None ∧ toggle p c = p))
  ∧ (isValid p = true ↔
       minCountOf p ≤ Z.of_nat (length (selectedIds p)) ≤ maxCountOf p)
  ∧ (minCount p = None → minCountOf p = 2)
  ∧ (maxCount p = None → maxCountOf p = 5).
Proof.
  split; [|split; [|split; [|split; [|split]]]].
  - intros cs. apply toggles_within_max.
  - intros c Hin. split.
    + apply handleToggle_selected, Hin.
    + apply toggle_removes, Hin.
  - intros c Hnin. unfold toggle. rewrite (handleToggle_unselected _ _ Hnin).
    case_bool_decide as Hlt.
    + left. split; [exact Hlt | reflexivity].
    + right. split; [lia | split; reflexivity].
  - apply isValid_spec.
  - unfold minCountOf. intros ->. reflexivity.
  - unfold maxCountOf. intros ->. reflexivity.
Qed.

(** The bound at work: five coaches selected, a sixth is refused, then one
    is removed. *)
Lemma roster_selector_bound_witness :
  let p := {| selectedIds := ["a"; "b"; "c"; "d"; "e"];
              minCount := None; maxCount := None |} in
  within_max (toggles p ["f"; "b"])
  ∧ selectedIds (toggles p ["f"; "b"]) = ["a"; "c"; "d"; "e"].
Proof.
  split.
  - apply (proj1 (roster_selector_bound _) ["f"; "b"]).
    unfold within_max. simpl. vm_compute. discriminate.
  - vm_compute. reflexivity.
Defined.

End SelectorFacts.

(* ===================================================================== *)
(** ** Properties of the chat component *)
(* ===================================================================== *)

Module ChatFacts.
Import RoundtableChat.

(** *** Strings *)

Lemma append_cons a (s t : string) : String a s +:+ t = String a (s +:+ t).
Proof. reflexivity. Qed.

Lemma append_empty_r (s : string) : s +:+ "" = s.
Proof.
  induction s as [|a s IH]; [reflexivity|].
  rewrite append_cons, IH. reflexivity.
Qed.

Lemma append_assoc (s t u : string) : (s +:+ t) +:+ u = s +:+ (t +:+ u).
Proof.
  induction s as [|a s IH]; [reflexivity|].
  rewrite !append_cons, IH. reflexivity.
Qed.

Lemma str_or_empty (x : string) : str_or x "" = x.
Proof. unfold str_or. case_decide; congruence. Qed.

Lemma concatenation_app (fs gs : list string) :
  concatenation (fs ++ gs) = concatenation fs +:+ concatenation gs.
Proof.
  unfold concatenation. induction fs as [|f fs IH]; simpl; [reflexivity|].
  rewrite IH, append_assoc. reflexivity.
Qed.

(** *** Reading the streaming map *)

Lemma member_own (prev : gmap string StreamingCoachResponse) id r :
  prev !! id = Some r → member prev id = OwnEntry r.
Proof. unfold member. intros ->. reflexivity. Qed.

Lemma member_inherited (prev : gmap string StreamingCoachResponse) id :
  prev !! id = None → id ∈ objectPrototypeKeys → member prev id = InheritedMember.
Proof. unfold member. intros -> Hin. rewrite bool_decide_eq_true_2; done. Qed.

Lemma member_absent (prev : gmap string StreamingCoachResponse) id :
  prev !! id = None → id ∉ objectPrototypeKeys → member prev id = NoMember.
Proof. unfold member. intros -> Hin. rewrite bool_decide_eq_false_2; done. Qed.

Lemma member_not_own (prev : gmap string StreamingCoachResponse) id :
  prev !! id = None → ∀ r, member prev id ≠ OwnEntry r.
Proof. unfold member. intros -> r. case_bool_decide; discriminate. Qed.

(** *** The request builder *)

Lemma chatRequest_config p st userContent apiAttachments :
  requestConfig (chatRequest p st userContent apiAttachments)
  = bundleConfig (resolve p (configChoice st)).
Proof.
  unfold requestConfig, bundleConfig, chatRequest, configChoice.
  destruct (overrideEnabled st); reflexivity.
Qed.

(** C1.  The configuration fields of every request are those of one
    bundle, the one the tagged choice [configChoice] selects: the session's
    bundle when no override is enabled, the override bundle otherwise.  All
    eight fields come from the same bundle. *)
Theorem request_config_all_or_nothing (p : Props) (st : State)
    (userContent : string) (apiAttachments : list ApiMessageAttachment) :
  let r := chatRequest p st userContent apiAttachments in
  requestConfig r = bundleConfig (resolve p (configChoice st))
  ∧ ((overrideEnabled st = false ∧ configChoice st = UseSessionDefaults
      ∧ requestConfig r = bundleConfig (sessionBundle p))
     ∨ (overrideEnabled st = true
        ∧ configChoice st = UseOverride (overrideBundle st)
        ∧ requestConfig r = bundleConfig (overrideBundle st))).
Proof.
  intros r. split; [apply chatRequest_config|].
  subst r. rewrite chatRequest_config. unfold configChoice.
  destruct (overrideEnabled st); [right | left]; repeat split; reflexivity.
Qed.

(** *** End events *)

Lemma coach_end_streaming p rr clk id st :
  streamingResponses (handleStreamEvent p rr clk (coach_end id) st)
  = delete id (streamingResponses st).
Proof.
  simpl. destruct (member (streamingResponses st) id); reflexivity.
Qed.

Lemma moderator_end_streaming p rr clk id mt st :
  streamingResponses (handleStreamEvent p rr clk (moderator_end id mt) st)
  = delete id (streamingResponses st).
Proof.
  simpl. destruct (member (streamingResponses st) id); reflexivity.
Qed.

(** An end event for a participant without an entry, whose id is not the
    name of a member of [Object.prototype], leaves the message list as it
    is; after any end event the participant has no entry. *)
Lemma end_event_without_member p rr clk id mt st :
  (member (streamingResponses st) id = NoMember →
     messages (handleStreamEvent p rr clk (coach_end id) st) = messages st
     ∧ messages (handleStreamEvent p rr clk (moderator_end id mt) st) = messages st)
  ∧ streamingResponses (handleStreamEvent p rr clk (coach_end id) st) !! id = None
  ∧ streamingResponses (handleStreamEvent p rr clk (moderator_end id mt) st) !! id
    = None.
Proof.
  split; [|split].
  - intros Hnone. simpl. rewrite Hnone. split; reflexivity.
  - rewrite coach_end_streaming. apply lookup_delete_eq.
  - rewrite moderator_end_streaming. apply lookup_delete_eq.
Qed.

(** C9.  The code at the inputs on which the claim fails.  For a
    participant without an in-flight response whose id is the name of a
    member of [Object.prototype], [prev[id]] is the inherited member, which
    is truthy: either end event appends a message for the participant, without
    content. *)
Theorem end_event_finds_inherited_member (p : Props) (renderRound : Z)
    (clk : Clock) (id mt : string) (st : State) :
  streamingResponses st !! id = None →
  id ∈ objectPrototypeKeys →
  messages (handleStreamEvent p renderRound clk (coach_end id) st)
  = messages st ++ [coachMessage p renderRound clk id InheritedMember]
  ∧ messages (handleStreamEvent p renderRound clk (moderator_end id mt) st)
    = messages st ++ [moderatorMessage p renderRound clk id mt InheritedMember]
  ∧ m_content (coachMessage p renderRound clk id InheritedMember) = None
  ∧ m_content (moderatorMessage p renderRound clk id mt InheritedMember) = None
  ∧ m_coach_id (coachMessage p renderRound clk id InheritedMember) = Some id
  ∧ m_message_type (coachMessage p renderRound clk id InheritedMember) = "response".
Proof.
  intros Hnone Hin. simpl.
  rewrite (member_inherited _ _ Hnone Hin). repeat split.
Qed.

(** A [coach_end] for "constructor" when nothing is streaming. *)
Lemma end_event_finds_inherited_member_witness :
  let st := sampleState false in
  streamingResponses st !! "constructor" = None
  ∧ ∃ m, messages (handleStreamEvent (sampleProps Free) 0 sampleClock
                     (coach_end "constructor") st)
         = messages st ++ [m]
         ∧ m_coach_id m = Some "constructor"
         ∧ m_content m = None.
Proof.
  intros st.
  assert (Hnone : streamingResponses st !! "constructor" = None) by reflexivity.
  assert (Hin : "constructor" ∈ objectPrototypeKeys) by (unfold objectPrototypeKeys; set_solver).
  split; [exact Hnone|].
  destruct (end_event_finds_inherited_member (sampleProps Free) 0 sampleClock
              "constructor" "summary" st Hnone Hin) as (Hc & _ & Hn & _ & Hid & _).
  eexists. split; [exact Hc|]. split; [exact Hid | exact Hn].
Defined.

(** *** Frame properties of the reducer *)

Lemma handleStreamEvent_overrideBundle p rr clk e st :
  overrideBundle (handleStreamEvent p rr clk e st) = overrideBundle st.
Proof.
  destruct e; simpl; try reflexivity;
    destruct (member (streamingResponses st) coach_id); reflexivity.
Qed.

Lemma handleStream_overrideBundle p rr stream :
  ∀ st, overrideBundle (handleStream p rr stream st) = overrideBundle st.
Proof.
  unfold handleStream. induction stream as [|[clk e] stream IH]; intros st; simpl.
  - reflexivity.
  - rewrite IH. apply handleStreamEvent_overrideBundle.
Qed.

Lemma catchError_overrideBundle p fin st :
  overrideBundle (catchError p fin st) = overrideBundle st.
Proof. destruct fin; reflexivity. Qed.

Lemma handleSend_exchange p clk value processed stream fin st :
  starts_exchange p st value = true →
  handleSend p clk value processed stream fin st
  = finally (catchError p fin
      (handleStream p (currentRound st) stream
        (beginExchange p clk value processed.1 st))).
Proof.
  unfold starts_exchange, handleSend. intros H.
  apply andb_true_iff in H as [Hi Ht].
  apply negb_true_iff in Hi. rewrite Hi, Ht. reflexivity.
Qed.

(** C8.  When an exchange has run, whether its stream completed or threw,
    the override flag is off: the next request carries the session's bundle
    (the props, which [handleSend] cannot change), and carries an override
    bundle only after the user enables the override again.  The cells that
    hold the override's values are left as they were. *)
Theorem override_applies_to_one_exchange (p : Props) (clk : Clock)
    (value : string) (processed : list ChatAttachment * list ApiMessageAttachment)
    (stream : list (Clock * RoundtableEvent)) (fin : StreamEnd) (st : State) :
  starts_exchange p st value = true →
  let st' := handleSend p clk value processed stream fin st in
  overrideEnabled st' = false
  ∧ configChoice st' = UseSessionDefaults
  ∧ (∀ userContent apiAttachments,
       requestConfig (chatRequest p st' userContent apiAttachments)
       = bundleConfig (sessionBundle p))
  ∧ (∀ userContent apiAttachments,
       requestConfig (chatRequest p (toggleOverride st') userContent apiAttachments)
       = bundleConfig (overrideBundle st'))
  ∧ overrideBundle st' = overrideBundle st.
Proof.
  intros Hstart st'.
  assert (Hoff : overrideEnabled st' = false).
  { subst st'. rewrite (handleSend_exchange _ _ _ _ _ _ _ Hstart). reflexivity. }
  split; [exact Hoff|].
  split; [unfold configChoice; now rewrite Hoff|].
  split; [|split].
  - intros uc aa. rewrite chatRequest_config.
    unfold configChoice. now rewrite Hoff.
  - intros uc aa. rewrite chatRequest_config.
    unfold configChoice, toggleOverride. simpl. now rewrite Hoff.
  - subst st'. rewrite (handleSend_exchange _ _ _ _ _ _ _ Hstart).
    transitivity (overrideBundle
      (catchError p fin (handleStream p (currentRound st) stream
         (beginExchange p clk value processed.1 st)))); [reflexivity|].
    rewrite catchError_overrideBundle, handleStream_overrideBundle. reflexivity.
Qed.

(** An exchange sent with the override on, whose stream throws. *)
Lemma override_applies_to_one_exchange_witness :
  overrideEnabled
    (handleSend (sampleProps Free) sampleClock " hi " ([], [])
       [(sampleClock, round_start 1)] (Thrown None sampleClock) (sampleState true))
  = false.
Proof.
  refine (proj1 (override_applies_to_one_exchange (sampleProps Free) sampleClock
                   " hi " ([], []) [(sampleClock, round_start 1)]
                   (Thrown None sampleClock) (sampleState true) _)).
  vm_compute. reflexivity.
Defined.

(** *** Accumulation of fragments *)

Lemma event_within_turn p rr clk e id r st :
  streamingResponses st !! id = Some r →
  is_start_for id e = false → is_end_for id e = false →
  ∃ r', streamingResponses (handleStreamEvent p rr clk e st) !! id = Some r'
        ∧ s_content r' = s_content r +:+ concatenation (fragmentsFor id [(clk, e)])
        ∧ s_message_type r' = s_message_type r.
Proof.
  intros Hr Hs He.
  destruct e as [n|i nm av|i nm av mt|i f|i|i mt|n| |oi msg]; simpl in *;
    unfold fragmentsFor; simpl.
  - exists r. rewrite append_empty_r. auto.
  - apply bool_decide_eq_false in Hs.
    exists r. rewrite lookup_insert_ne by exact Hs. rewrite append_empty_r. auto.
  - apply bool_decide_eq_false in Hs.
    exists r. rewrite lookup_insert_ne by exact Hs. rewrite append_empty_r. auto.
  - destruct (decide (i = id)) as [->|Hne].
    + rewrite (member_own _ _ _ Hr). eexists. rewrite lookup_insert_eq.
      split; [reflexivity|].
      simpl. rewrite str_or_empty, append_empty_r. auto.
    + exists r. rewrite lookup_insert_ne by exact Hne.
      simpl. rewrite append_empty_r. auto.
  - apply bool_decide_eq_false in He.
    exists r. rewrite append_empty_r.
    destruct (member (streamingResponses st) i); simpl;
      rewrite lookup_delete_ne by exact He; auto.
  - apply bool_decide_eq_false in He.
    exists r. rewrite append_empty_r.
    destruct (member (streamingResponses st) i); simpl;
      rewrite lookup_delete_ne by exact He; auto.
  - exists r. rewrite append_empty_r. auto.
  - exists r. rewrite append_empty_r. auto.
  - exists r. rewrite append_empty_r. auto.
Qed.

Lemma fragmentsFor_cons id ce stream :
  fragmentsFor id (ce :: stream) = fragmentsFor id [ce] ++ fragmentsFor id stream.
Proof.
  unfold fragmentsFor. simpl.
  destruct ce as [clk e]; simpl. destruct e; try reflexivity.
  case_decide; reflexivity.
Qed.

Lemma stream_within_turn p rr id stream :
  ∀ st r,
  streamingResponses st !! id = Some r →
  Forall (within_turn id) stream →
  ∃ r', streamingResponses (handleStream p rr stream st) !! id = Some r'
        ∧ s_content r' = s_content r +:+ concatenation (fragmentsFor id stream)
        ∧ s_message_type r' = s_message_type r.
Proof.
  unfold handleStream.
  induction stream as [|[clk e] stream IH]; intros st r Hr Hall; cbn [foldl].
  - exists r. split; [exact Hr|]. split; [|reflexivity].
    symmetry. apply append_empty_r.
  - apply Forall_cons in Hall as [[Hs He] Hall]. simpl in Hs, He.
    destruct (event_within_turn p rr clk e id r st Hr Hs He) as (r1 & Hr1 & Hc1 & Hm1).
    destruct (IH _ r1 Hr1 Hall) as (r2 & Hr2 & Hc2 & Hm2).
    exists r2. split; [exact Hr2|]. split; [|congruence].
    rewrite (fragmentsFor_cons id (clk, e) stream), concatenation_app.
    rewrite Hc2, Hc1, append_assoc. reflexivity.
Qed.

Lemma start_event_entry p rr clk e id st :
  is_start_for id e = true →
  ∃ r, streamingResponses (handleStreamEvent p rr clk e st) !! id = Some r
       ∧ s_content r = "".
Proof.
  intros Hs. destruct e; simpl in Hs; try discriminate;
    apply bool_decide_eq_true in Hs; subst; simpl;
    eexists; rewrite lookup_insert_eq; split; reflexivity.
Qed.

Lemma end_event_message p rr clk e id r st :
  streamingResponses st !! id = Some r →
  is_end_for id e = true →
  ∃ m, messages (handleStreamEvent p rr clk e st) = messages st ++ [m]
       ∧ m_content m = Some (s_content r) ∧ m_coach_id m = Some id.
Proof.
  intros Hr He.
  destruct e as [n|i nm av|i nm av mt|i f|i|i mt|n| |oi msg];
    simpl in He; try discriminate;
    apply bool_decide_eq_true in He; subst i; simpl;
    rewrite (member_own _ _ _ Hr); simpl.
  - exists (coachMessage p rr clk id (OwnEntry r)). repeat split.
  - exists (moderatorMessage p rr clk id mt (OwnEntry r)). repeat split.
Qed.

(** C2.  A turn of [id] is a start event for [id], then events none of
    which starts or ends a turn of [id] (content for [id], and anything for
    other participants), then an end event for [id].  Handling the end event
    appends exactly one message; its content is the concatenation, in stream
    order, of the fragments of [id]'s content events since the start. *)
Theorem turn_message_is_concatenation (p : Props) (renderRound : Z)
    (id : string) (clkS clkE : Clock) (startE endE : RoundtableEvent)
    (stream : list (Clock * RoundtableEvent)) (st : State) :
  is_start_for id startE = true →
  Forall (within_turn id) stream →
  is_end_for id endE = true →
  let st1 := handleStream p renderRound ((clkS, startE) :: stream) st in
  ∃ m, messages (handleStreamEvent p renderRound clkE endE st1) = messages st1 ++ [m]
       ∧ m_coach_id m = Some id
       ∧ m_content m = Some (concatenation (fragmentsFor id stream)).
Proof.
  intros Hs Hall He st1.
  destruct (start_event_entry p renderRound clkS startE id st Hs) as (r0 & Hr0 & Hc0).
  destruct (stream_within_turn p renderRound id stream _ r0 Hr0 Hall)
    as (r1 & Hr1 & Hc1 & _).
  destruct (end_event_message p renderRound clkE endE id r1 st1 Hr1 He)
    as (m & Hm & Hc & Hid).
  exists m. split; [exact Hm|]. split; [exact Hid|].
  rewrite Hc, Hc1, Hc0. reflexivity.
Qed.

(** Coach "A" streams "Hel" and "lo" while an event of "B" is interleaved. *)
Lemma turn_message_is_concatenation_witness :
  let stream := [(sampleClock, content "A" "Hel");
                 (sampleClock, content "B" "x");
                 (sampleClock, content "A" "lo")] in
  let st1 := handleStream (sampleProps Free) 1
               ((sampleClock, coach_start "A" "Coach A" None) :: stream)
               (sampleState false) in
  ∃ m, messages (handleStreamEvent (sampleProps Free) 1 sampleClock (coach_end "A") st1)
       = messages st1 ++ [m]
       ∧ m_coach_id m = Some "A"
       ∧ m_content m = Some "Hello".
Proof.
  intros stream st1.
  refine (turn_message_is_concatenation (sampleProps Free) 1 "A" sampleClock
            sampleClock (coach_start "A" "Coach A" None) (coach_end "A")
            stream (sampleState false) _ _ _).
  - reflexivity.
  - subst stream. repeat constructor.
  - reflexivity.
Defined.

(** *** What stays on screen *)

Lemma handleStreamEvent_messages_prefix p rr clk e st :
  messages st `prefix_of` messages (handleStreamEvent p rr clk e st).
Proof.
  destruct e as [n|i nm av|i nm av mt|i f|i|i mt|n| |oi msg]; simpl;
    try reflexivity;
    destruct (member (streamingResponses st) i); simpl;
    first [reflexivity | eexists; reflexivity].
Qed.

Lemma exchange_end_messages_prefix p fin st :
  messages st `prefix_of` messages (finally (catchError p fin st)).
Proof.
  destruct fin; simpl; [reflexivity | eexists; reflexivity].
Qed.

(** C5, as the code has it.  While the stream of an exchange is handled
    nothing is taken back: the message list only grows; the in-flight text
    of a participant only grows, by the fragment received, as long as no
    start or end event for that participant arrives; and an end event moves
    the in-flight text unchanged into a new message.  When the exchange ends
    the message list is kept, with the error message appended when the stream
    threw, and every in-flight entry is cleared. *)
Theorem streamed_text_kept_while_streaming (p : Props) (renderRound : Z)
    (clk : Clock) (e : RoundtableEvent) (st : State) :
  messages st `prefix_of` messages (handleStreamEvent p renderRound clk e st)
  ∧ (∀ id r, streamingResponses st !! id = Some r →
       is_start_for id e = false → is_end_for id e = false →
       ∃ r', streamingResponses (handleStreamEvent p renderRound clk e st) !! id = Some r'
             ∧ s_content r'
               = s_content r +:+ concatenation (fragmentsFor id [(clk, e)]))
  ∧ (∀ id r, streamingResponses st !! id = Some r →
       is_end_for id e = true →
       ∃ m, messages (handleStreamEvent p renderRound clk e st) = messages st ++ [m]
            ∧ m_content m = Some (s_content r))
  ∧ (∀ fin, messages (finally (catchError p fin st))
            = messages st
              ++ match fin with
                 | Completed => []
                 | Thrown message clkE => [errorMessage p clkE message]
                 end
            ∧ streamingResponses (finally (catchError p fin st)) = ∅).
Proof.
  split; [apply handleStreamEvent_messages_prefix|].
  split; [|split].
  - intros id r Hr Hs He.
    destruct (event_within_turn p renderRound clk e id r st Hr Hs He)
      as (r' & Hr' & Hc & _).
    exists r'. split; assumption.
  - intros id r Hr He.
    destruct (end_event_message p renderRound clk e id r st Hr He)
      as (m & Hm & Hc & _).
    exists m. split; assumption.
  - intros fin. split; [|reflexivity].
    destruct fin; simpl; [symmetry; apply app_nil_r | reflexivity].
Qed.

(** The in-flight text of "A" grows by the fragment received. *)
Lemma streamed_text_kept_while_streaming_witness :
  let st := handleStreamEvent (sampleProps Free) 0 sampleClock
              (coach_start "A" "Coach A" None) (sampleState false) in
  ∃ r', streamingResponses
          (handleStreamEvent (sampleProps Free) 0 sampleClock (content "A" "Hi") st)
        !! "A" = Some r'
        ∧ s_content r' = "Hi".
Proof.
  intros st.
  refine (proj1 (proj2 (streamed_text_kept_while_streaming (sampleProps Free) 0
                          sampleClock (content "A" "Hi") st))
            "A" (startResponse "A" "Coach A" None "response") _ _ _).
  - subst st. simpl. apply lookup_insert_eq.
  - reflexivity.
  - reflexivity.
Defined.

(** C5 as stated fails: a fragment of "A" is on screen while the stream is
    handled; the stream then throws before "A"'s end event, and after
    [handleSend] the text is neither in a message nor in a streaming card. *)
Lemma partial_output_dropped_at_stream_error :
  let p := sampleProps Free in
  let stream := [(sampleClock, round_start 1);
                 (sampleClock, coach_start "A" "Coach A" None);
                 (sampleClock, content "A" "partial")] in
  let shown := handleStream p 0 stream
                 (beginExchange p sampleClock "hi" [] (sampleState false)) in
  let final := handleSend p sampleClock "hi" ([], []) stream
                 (Thrown (Some "boom") sampleClock) (sampleState false) in
  displayed shown "partial"
  ∧ map m_content (messages final) = [Some "hi"; Some "boom"]
  ∧ streamingResponses final = ∅
  ∧ ¬ displayed final "partial".
Proof.
  intros p stream shown final.
  assert (Hm : map m_content (messages final) = [Some "hi"; Some "boom"])
    by (vm_compute; reflexivity).
  assert (Hs : streamingResponses final = ∅) by (vm_compute; reflexivity).
  split; [|split; [exact Hm | split; [exact Hs|]]].
  - right.
    exists "A", (withContent (OwnEntry (startResponse "A" "Coach A" None "response"))
                   "partial").
    split; [|reflexivity].
    subst shown stream. vm_compute. reflexivity.
  - intros [(m & Hin & Hc) | (id & r & Hl & _)].
    + assert (Hin' : m_content m ∈ map m_content (messages final))
        by (apply list_elem_of_fmap; eauto).
      rewrite Hm, Hc in Hin'.
      apply elem_of_cons in Hin' as [Hin'|Hin']; [discriminate|].
      apply elem_of_cons in Hin' as [Hin'|Hin']; [discriminate|].
      apply elem_of_nil in Hin'. exact Hin'.
    + rewrite Hs, lookup_empty in Hl. discriminate.
Qed.

End ChatFacts.

(* ===================================================================== *)
(** ** Properties of the round orchestrator *)
(* ===================================================================== *)

Module OrchestratorFacts.
Import RoundtableChat Orchestrator.

(** *** Traces and their skeleton *)

Lemma skeleton_app (tr1 tr2 : list Action) :
  skeleton (tr1 ++ tr2) = skeleton tr1 ++ skeleton tr2.
Proof. apply List.filter_app. Qed.

Lemma skeleton_emits (evs : list RoundtableEvent) :
  skeleton (map Emit evs) = map Emit evs.
Proof.
  induction evs as [|e evs IH]; [reflexivity|].
  cbn. unfold skeleton in IH. rewrite IH. reflexivity.
Qed.

Lemma events_app (tr1 tr2 : list Action) :
  events (tr1 ++ tr2) = events tr1 ++ events tr2.
Proof. apply omap_app. Qed.

Lemma events_emits (evs : list RoundtableEvent) : events (map Emit evs) = evs.
Proof.
  induction evs as [|e evs IH]; [reflexivity|].
  cbn. unfold events in IH. rewrite IH. reflexivity.
Qed.

Lemma events_skeleton (tr : list Action) : events (skeleton tr) = events tr.
Proof.
  induction tr as [|a tr IH]; [reflexivity|].
  destruct a; cbn; unfold events, skeleton in IH; rewrite IH; reflexivity.
Qed.

Lemma knowledgeCalls_skeleton (tr : list Action) :
  knowledgeCalls (skeleton tr) = knowledgeCalls tr.
Proof.
  unfold knowledgeCalls.
  induction tr as [|a tr IH]; [reflexivity|].
  destruct a; cbn; unfold skeleton in IH; rewrite ?IH; reflexivity.
Qed.

Lemma kbObs_skeleton (tr : list Action) :
  omap kbObs (skeleton tr) = omap kbObs tr.
Proof.
  induction tr as [|a tr IH]; [reflexivity|].
  destruct a; cbn; unfold skeleton in IH; rewrite IH; reflexivity.
Qed.

Section Runs.

Variable round_ceiling : nat.
Variable moderator_kind : string.
Variable fatal_message : string.
Variable env : Env.
Variable req : TurnRequest.

Lemma fetch_actions pos k : (fetch env req pos k).1 = fetchActions env req pos.
Proof.
  unfold fetchActions, fetch. destruct (shouldFetch _ _); reflexivity.
Qed.

Lemma skeleton_fetchActions pos :
  skeleton (fetchActions env req pos) = fetchActions env req pos.
Proof.
  unfold fetchActions, fetch. destruct (shouldFetch _ _); reflexivity.
Qed.

Lemma events_fetchActions pos : events (fetchActions env req pos) = [].
Proof.
  unfold fetchActions, fetch. destruct (shouldFetch _ _); reflexivity.
Qed.

(** *** One turn, one round *)

Lemma coachTurn_skeleton r k run p :
  skeleton (trace (coachTurn env req r k run p).1)
  = skeleton (trace run) ++ turnActions env req r p.
Proof.
  unfold coachTurn, turnActions, coachEvents. cbn [fst trace].
  rewrite !skeleton_app, fetch_actions, skeleton_fetchActions, skeleton_emits.
  reflexivity.
Qed.

Lemma coachTurns_skeleton r k roster :
  ∀ run,
  skeleton (trace (coachTurns env req r k roster run).1)
  = skeleton (trace run) ++ flat_map (turnActions env req r) roster.
Proof.
  induction roster as [|p rest IH]; intros run; cbn [coachTurns fst flat_map].
  - symmetry. apply app_nil_r.
  - rewrite IH, coachTurn_skeleton, <- app_assoc. reflexivity.
Qed.

Lemma coachTurns_survivors r k roster :
  ∀ run, (coachTurns env req r k roster run).2 = survivorsOf env r roster.
Proof.
  induction roster as [|p rest IH]; intros run; cbn [coachTurns snd].
  - reflexivity.
  - rewrite IH. unfold survivorsOf. cbn [List.filter coachTurn snd].
    destruct (completed _); reflexivity.
Qed.

(** *** The rounds *)

Lemma rounds_skeleton budget :
  ∀ r k roster run,
  skeleton (trace (rounds fatal_message env req budget r k roster run).1)
  = skeleton (trace run)
    ++ flat_map (roundActions fatal_message env req) (schedule env budget r roster).
Proof.
  induction budget as [|budget IH]; intros r k roster run;
    cbn [rounds schedule flat_map].
  - symmetry. apply app_nil_r.
  - rewrite coachTurns_survivors.
    unfold roundActions at 1, closing. cbn [fst snd].
    destruct (survivorsOf env r roster) as [|q qs] eqn:E.
    + cbn [fst emit trace flat_map].
      rewrite skeleton_app, coachTurns_skeleton. cbn [emit trace].
      rewrite !skeleton_app, fetch_actions, skeleton_fetchActions.
      rewrite app_nil_r, <- !app_assoc. reflexivity.
    + rewrite IH. cbn [emit trace].
      rewrite skeleton_app, coachTurns_skeleton. cbn [emit trace].
      rewrite !skeleton_app, fetch_actions, skeleton_fetchActions.
      change (skeleton [Emit (round_start (Z.of_nat r))])
        with [Emit (round_start (Z.of_nat r))].
      change (skeleton [Emit (round_end (Z.of_nat r))])
        with [Emit (round_end (Z.of_nat r))].
      cbn [app]. rewrite <- !app_assoc. cbn [app]. rewrite <- !app_assoc.
      reflexivity.
Qed.

Lemma rounds_final budget :
  ∀ r k roster run,
  (rounds fatal_message env req budget r k roster run).2
  = finalOf env (schedule env budget r roster).
Proof.
  induction budget as [|budget IH]; intros r k roster run;
    cbn [rounds schedule].
  - reflexivity.
  - rewrite coachTurns_survivors.
    unfold finalOf. cbn [existsb]. unfold fatalRound at 1. cbn [fst snd].
    destruct (survivorsOf env r roster) as [|q qs] eqn:E.
    + reflexivity.
    + rewrite IH. reflexivity.
Qed.

(** *** The whole exchange *)

Lemma moderatorPhase_skeleton m k run :
  skeleton (trace (moderatorPhase moderator_kind env req m k run))
  = skeleton (trace run)
    ++ fetchActions env req BeforeModeratorPhase
    ++ Generate (participant_id m) (effectiveParams req)
    :: map Emit (moderatorEvents moderator_kind env m).
Proof.
  unfold moderatorPhase, moderatorEvents. cbn [trace].
  rewrite !skeleton_app, fetch_actions, skeleton_fetchActions, skeleton_emits.
  reflexivity.
Qed.

Lemma exchange_validated :
  exchange round_ceiling moderator_kind fatal_message env req
  = match validate req with
    | Some e => Rejected e
    | None =>
        let fk := fetch env req BeforeExchange noKnowledge in
        let rs := rounds fatal_message env req (roundBudget round_ceiling req) 1 fk.2
                    (roster (req_session req)) {| trace := fk.1; transcript := [] |} in
        match rs.2 with
        | Errored => Ran rs.1 Errored
        | Done =>
            Ran (emit [Emit done]
                   match mode (req_session req), ses_moderator (req_session req) with
                   | Moderated, Some m => moderatorPhase moderator_kind env req m fk.2 rs.1
                   | _, _ => rs.1
                   end) Done
        end
    end.
Proof. reflexivity. Qed.

(** Every valid request runs, and only valid requests do. *)
Lemma exchange_runs :
  validate req = None
  ↔ ∃ run fin, exchange round_ceiling moderator_kind fatal_message env req = Ran run fin.
Proof.
  rewrite exchange_validated. split.
  - intros ->. cbn zeta. destruct (rounds _ _ _ _ _ _ _ _).2; eauto.
  - intros (run & fin & H). destruct (validate req); [discriminate | reflexivity].
Qed.

Lemma exchange_plan run fin :
  exchange round_ceiling moderator_kind fatal_message env req = Ran run fin →
  skeleton (trace run)
  = planActions round_ceiling moderator_kind fatal_message env req
  ∧ fin = finalOf env (exchangeSchedule round_ceiling env req).
Proof.
  rewrite exchange_validated. destruct (validate req) as [e|]; [discriminate|].
  cbn zeta. rewrite rounds_final. unfold planActions.
  fold (exchangeSchedule round_ceiling env req).
  destruct (finalOf env (exchangeSchedule round_ceiling env req)) eqn:F;
    intros H; inversion H; subst run fin; clear H; (split; [|reflexivity]).
  - cbn [emit trace]. rewrite skeleton_app.
    change (skeleton [Emit done]) with [Emit done].
    unfold moderatorActions, moderatorOf.
    destruct (mode (req_session req)), (ses_moderator (req_session req)) as [m|];
      rewrite ?moderatorPhase_skeleton, rounds_skeleton; cbn [trace];
      rewrite fetch_actions, skeleton_fetchActions;
      unfold exchangeSchedule; rewrite <- ?app_assoc; cbn [app];
      rewrite ?app_nil_r; reflexivity.
  - rewrite rounds_skeleton. cbn [trace].
    rewrite fetch_actions, skeleton_fetchActions, app_nil_r. reflexivity.
Qed.

Lemma events_turnActions r p :
  events (turnActions env req r p) = coachEvents env r p.
Proof.
  unfold turnActions. rewrite events_app, events_fetchActions.
  cbn [app]. change (events (?a :: ?l)) with (events l) at 1.
  apply events_emits.
Qed.

Lemma events_flat_turnActions r roster :
  events (flat_map (turnActions env req r) roster)
  = flat_map (coachEvents env r) roster.
Proof.
  induction roster as [|p rest IH]; [reflexivity|].
  cbn [flat_map]. rewrite events_app, events_turnActions, IH. reflexivity.
Qed.

Lemma events_roundActions rr :
  events (roundActions fatal_message env req rr) = roundEvents fatal_message env rr.
Proof.
  unfold roundActions, roundEvents.
  rewrite events_app, events_fetchActions. cbn [app].
  change (events (Emit ?e :: ?l)) with (e :: events l).
  rewrite events_app, events_flat_turnActions. reflexivity.
Qed.

Lemma events_flat_roundActions sched :
  events (flat_map (roundActions fatal_message env req) sched)
  = flat_map (roundEvents fatal_message env) sched.
Proof.
  induction sched as [|rr sched IH]; [reflexivity|].
  cbn [flat_map]. rewrite events_app, events_roundActions, IH. reflexivity.
Qed.

Lemma events_planActions :
  events (planActions round_ceiling moderator_kind fatal_message env req)
  = planEvents round_ceiling moderator_kind fatal_message env req.
Proof.
  unfold planActions, planEvents.
  rewrite !events_app, events_fetchActions, events_flat_roundActions. cbn [app].
  destruct (finalOf _ _); [|reflexivity].
  rewrite events_app. unfold moderatorActions.
  destruct (moderatorOf req) as [m|]; [|reflexivity].
  rewrite events_app, events_fetchActions. cbn [app].
  change (events (Generate ?i ?q :: ?l)) with (events l).
  rewrite events_emits. reflexivity.
Qed.

Lemma exchange_events run fin :
  exchange round_ceiling moderator_kind fatal_message env req = Ran run fin →
  events (trace run) = planEvents round_ceiling moderator_kind fatal_message env req.
Proof.
  intros H. apply exchange_plan in H as [H _].
  rewrite <- events_skeleton, H. apply events_planActions.
Qed.

End Runs.

(** *** The schedule *)

Section Schedule.

Variable fatal_message : string.
Variable env : Env.

Lemma survivorsOf_elem r roster P :
  P ∈ survivorsOf env r roster
  ↔ P ∈ roster ∧ completed (generate env r (participant_id P)) = true.
Proof.
  unfold survivorsOf. rewrite !list_elem_of_In. apply List.filter_In.
Qed.

Lemma survivorsOf_nil r roster :
  survivorsOf env r roster = []
  ↔ ∀ P, P ∈ roster → completed (generate env r (participant_id P)) = false.
Proof.
  split.
  - intros E P HP.
    destruct (completed (generate env r (participant_id P))) eqn:C; [|reflexivity].
    assert (H : P ∈ survivorsOf env r roster) by (apply survivorsOf_elem; auto).
    rewrite E in H. inversion H.
  - intros H. destruct (survivorsOf env r roster) as [|P ps] eqn:E; [reflexivity|].
    assert (HP : P ∈ survivorsOf env r roster) by (rewrite E; left).
    apply survivorsOf_elem in HP as [HP C]. rewrite (H P HP) in C. discriminate.
Qed.

Lemma survivorsOf_all r roster :
  (∀ P, P ∈ roster → completed (generate env r (participant_id P)) = true) →
  survivorsOf env r roster = roster.
Proof.
  unfold survivorsOf. induction roster as [|P ps IH]; intros H; [reflexivity|].
  cbn [List.filter]. rewrite (H P) by left.
  f_equal. apply IH. intros Q HQ. apply H. now right.
Qed.

(** The schedule, one step unfolded. *)
Lemma schedule_S budget r roster :
  schedule env (S budget) r roster
  = (r, roster) ::
    match survivorsOf env r roster with
    | [] => []
    | _ :: _ => schedule env budget (S r) (survivorsOf env r roster)
    end.
Proof. cbn [schedule]. destruct (survivorsOf env r roster); reflexivity. Qed.

Lemma schedule_tail budget r roster rr :
  rr ∈ match survivorsOf env r roster with
       | [] => []
       | _ :: _ => schedule env budget (S r) (survivorsOf env r roster)
       end →
  rr ∈ schedule env budget (S r) (survivorsOf env r roster).
Proof.
  destruct (survivorsOf env r roster); [intros H; inversion H | auto].
Qed.

(** Rounds are numbered from [r] on and their rosters only shrink. *)
Lemma schedule_bounds budget :
  ∀ r roster r' roster',
  (r', roster') ∈ schedule env budget r roster →
  (r ≤ r' < r + budget)%nat ∧ ∀ P, P ∈ roster' → P ∈ roster.
Proof.
  induction budget as [|budget IH]; intros r roster r' roster' Hin.
  - inversion Hin.
  - rewrite schedule_S in Hin. apply elem_of_cons in Hin as [Heq|Hin].
    + inversion Heq; subst. split; [lia | auto].
    + apply schedule_tail, IH in Hin as [Hr Hsub].
      split; [lia|]. intros P HP.
      apply Hsub, survivorsOf_elem in HP. tauto.
Qed.

(** A later round's roster lies within the survivors of an earlier one. *)
Lemma schedule_later budget :
  ∀ r roster r1 roster1 r2 roster2,
  (r1, roster1) ∈ schedule env budget r roster →
  (r2, roster2) ∈ schedule env budget r roster →
  (r1 < r2)%nat →
  ∀ P, P ∈ roster2 → P ∈ survivorsOf env r1 roster1.
Proof.
  induction budget as [|budget IH]; intros r roster r1 roster1 r2 roster2 H1 H2 Hlt.
  - inversion H1.
  - rewrite schedule_S in H1, H2.
    apply elem_of_cons in H1 as [E1|H1]; apply elem_of_cons in H2 as [E2|H2].
    + inversion E1; inversion E2; subst. lia.
    + inversion E1; subst.
      apply schedule_tail, schedule_bounds in H2 as [_ Hsub]. exact Hsub.
    + inversion E2; subst.
      apply schedule_tail, schedule_bounds in H1 as [Hr _]. lia.
    + apply schedule_tail in H1. apply schedule_tail in H2.
      exact (IH _ _ _ _ _ _ H1 H2 Hlt).
Qed.

(** After a round with survivors, and budget left, the next round runs
    with exactly the survivors. *)
Lemma schedule_next budget :
  ∀ r roster i ri rosteri,
  schedule env budget r roster !! i = Some (ri, rosteri) →
  (S i < budget)%nat →
  survivorsOf env ri rosteri ≠ [] →
  schedule env budget r roster !! S i = Some (S ri, survivorsOf env ri rosteri).
Proof.
  induction budget as [|budget IH]; intros r roster i ri rosteri Hi Hlt Hne.
  - lia.
  - rewrite schedule_S in Hi |- *. destruct i as [|i]; cbn in Hi |- *.
    + inversion Hi; subst.
      destruct (survivorsOf env ri rosteri) as [|q qs] eqn:E; [congruence|].
      destruct budget as [|budget]; [lia|]. rewrite schedule_S. reflexivity.
    + destruct (survivorsOf env r roster) as [|q qs] eqn:E; [discriminate|].
      apply IH; [exact Hi | lia | exact Hne].
Qed.

(** Every scheduled round has a coach to run. *)
Lemma schedule_nonempty budget :
  ∀ r roster r' roster',
  roster ≠ [] →
  (r', roster') ∈ schedule env budget r roster → roster' ≠ [].
Proof.
  induction budget as [|budget IH]; intros r roster r' roster' Hne Hin.
  - inversion Hin.
  - rewrite schedule_S in Hin. apply elem_of_cons in Hin as [Heq|Hin].
    + inversion Heq; subst. exact Hne.
    + destruct (survivorsOf env r roster) as [|q qs] eqn:E; [inversion Hin|].
      eapply IH; [|exact Hin]. discriminate.
Qed.

(** With no failing coach every round runs the whole roster. *)
Lemma schedule_no_failure budget :
  ∀ r roster,
  roster ≠ [] →
  (∀ r' P, P ∈ roster → failure (generate env r' (participant_id P)) = None) →
  schedule env budget r roster = map (λ r', (r', roster)) (seq r budget).
Proof.
  induction budget as [|budget IH]; intros r roster Hne Hok; [reflexivity|].
  rewrite schedule_S. cbn [seq map].
  rewrite survivorsOf_all.
  - destruct roster as [|q qs]; [congruence|]. f_equal. apply IH; auto.
  - intros P HP. unfold completed. now rewrite (Hok r P HP).
Qed.

Lemma finalOf_Errored sched :
  finalOf env sched = Errored
  ↔ ∃ r roster, (r, roster) ∈ sched
      ∧ ∀ P, P ∈ roster → completed (generate env r (participant_id P)) = false.
Proof.
  unfold finalOf. destruct (existsb (fatalRound env) sched) eqn:E.
  - split; [intros _|reflexivity].
    apply existsb_exists in E as ([r roster] & Hin & Hf).
    exists r, roster. split; [now apply list_elem_of_In|].
    apply survivorsOf_nil. unfold fatalRound in Hf. cbn [fst snd] in Hf.
    destruct (survivorsOf env r roster); [reflexivity | discriminate].
  - split; [discriminate|]. intros (r & roster & Hin & Hall). exfalso.
    assert (existsb (fatalRound env) sched = true); [|congruence].
    apply existsb_exists. exists (r, roster).
    split; [now apply list_elem_of_In|].
    unfold fatalRound. cbn [fst snd].
    apply survivorsOf_nil in Hall. now rewrite Hall.
Qed.

Lemma finalOf_cons_survivors r roster sched :
  survivorsOf env r roster ≠ [] →
  finalOf env ((r, roster) :: sched) = finalOf env sched.
Proof.
  intros Hne. unfold finalOf. cbn [existsb]. unfold fatalRound at 1. cbn [fst snd].
  destruct (survivorsOf env r roster); [congruence | reflexivity].
Qed.

(** A fatal round is the last one, and the stream ends with its error. *)
Lemma schedule_Errored_last budget :
  ∀ r roster,
  finalOf env (schedule env budget r roster) = Errored →
  last (flat_map (roundEvents fatal_message env) (schedule env budget r roster))
  = Some (error None fatal_message).
Proof.
  induction budget as [|budget IH]; intros r roster HE; [discriminate|].
  rewrite schedule_S in HE |- *. cbn [flat_map].
  destruct (survivorsOf env r roster) as [|q qs] eqn:E.
  - cbn [flat_map]. rewrite app_nil_r. unfold roundEvents, closing. cbn [fst snd].
    rewrite E. rewrite app_comm_cons. apply last_snoc.
  - rewrite finalOf_cons_survivors in HE by (rewrite E; discriminate).
    rewrite <- E in HE |- *. apply last_app_Some. left. apply IH, HE.
Qed.

End Schedule.

(** *** Failing turns *)

Section Failures.

Variable round_ceiling : nat.
Variable moderator_kind : string.
Variable fatal_message : string.
Variable env : Env.
Variable req : TurnRequest.

Lemma elem_of_flat_map {A B} (f : A → list B) (l : list A) (y : B) :
  y ∈ flat_map f l ↔ ∃ x, x ∈ l ∧ y ∈ f x.
Proof.
  rewrite list_elem_of_In, in_flat_map. split.
  - intros (x & Hx & Hy). exists x. now rewrite !list_elem_of_In.
  - intros (x & Hx & Hy). exists x. now rewrite <- !list_elem_of_In.
Qed.

Lemma scoped_error_in_coachEvents r P msg :
  failure (generate env r (participant_id P)) = Some msg →
  error (Some (participant_id P)) msg ∈ coachEvents env r P.
Proof.
  intros Hf. unfold coachEvents, executeTurn. rewrite Hf.
  apply elem_of_cons. right. apply elem_of_app. right. left.
Qed.

Lemma scoped_error_in_roundEvents r roster P msg :
  P ∈ roster →
  failure (generate env r (participant_id P)) = Some msg →
  error (Some (participant_id P)) msg ∈ roundEvents fatal_message env (r, roster).
Proof.
  intros HP Hf. unfold roundEvents. cbn [fst snd].
  apply elem_of_cons. right. apply elem_of_app. left.
  apply elem_of_flat_map. exists P. split; [exact HP|].
  apply scoped_error_in_coachEvents, Hf.
Qed.

Lemma free_planEvents :
  mode (req_session req) = Free →
  planEvents round_ceiling moderator_kind fatal_message env req
  = flat_map (roundEvents fatal_message env) (exchangeSchedule round_ceiling env req)
    ++ match finalOf env (exchangeSchedule round_ceiling env req) with
       | Errored => []
       | Done => [done]
       end.
Proof.
  intros Hfree. unfold planEvents, moderatorOf. rewrite Hfree. reflexivity.
Qed.

(** C4.  In a free-mode exchange the event stream is the rounds of the
    schedule, each closed by [round_end], followed by [done], unless a round
    is fatal.  A coach whose turn fails in a round gets an error event scoped
    to it and is in the roster of no later round; a round some coach survives
    is followed, while the budget lasts, by a round with exactly its
    survivors.  The exchange ends with the unscoped error exactly when, in
    some round, every coach of the active roster fails; otherwise it ends
    with [done]. *)
Theorem failed_coach_leaves_the_exchange (run : Run) (fin : Final) :
  mode (req_session req) = Free →
  exchange round_ceiling moderator_kind fatal_message env req = Ran run fin →
  let sched := exchangeSchedule round_ceiling env req in
  events (trace run)
  = flat_map (roundEvents fatal_message env) sched
    ++ match fin with Errored => [] | Done => [done] end
  ∧ (∀ r roster P msg,
       (r, roster) ∈ sched → P ∈ roster →
       failure (generate env r (participant_id P)) = Some msg →
       error (Some (participant_id P)) msg ∈ events (trace run)
       ∧ ∀ r' roster' P',
           (r', roster') ∈ sched → (r < r')%nat → P' ∈ roster' →
           participant_id P' ≠ participant_id P)
  ∧ (∀ i r roster,
       sched !! i = Some (r, roster) →
       (S i < roundBudget round_ceiling req)%nat →
       survivorsOf env r roster ≠ [] →
       sched !! S i = Some (S r, survivorsOf env r roster))
  ∧ (fin = Done → last (events (trace run)) = Some done)
  ∧ (fin = Errored → last (events (trace run)) = Some (error None fatal_message))
  ∧ (fin = Errored
     ↔ ∃ r roster, (r, roster) ∈ sched
         ∧ ∀ P, P ∈ roster →
             completed (generate env r (participant_id P)) = false).
Proof.
  intros Hfree Hrun sched.
  pose proof (exchange_events _ _ _ _ _ _ _ Hrun) as Hev.
  apply exchange_plan in Hrun as [_ Hfin].
  rewrite (free_planEvents Hfree) in Hev. fold sched in Hev, Hfin.
  rewrite <- Hfin in Hev.
  split; [exact Hev|]. split; [|split; [|split; [|split]]].
  - intros r roster P msg Hin HP Hf. split.
    + rewrite Hev. apply elem_of_app. left.
      apply elem_of_flat_map. exists (r, roster). split; [exact Hin|].
      apply scoped_error_in_roundEvents; assumption.
    + intros r' roster' P' Hin' Hlt HP' Heq.
      pose proof (schedule_later env _ _ _ _ _ _ _ Hin Hin' Hlt P' HP') as Hs.
      apply survivorsOf_elem in Hs as [_ Hc].
      unfold completed in Hc. rewrite Heq, Hf in Hc. discriminate.
  - intros i r roster Hi Hlt Hne. apply schedule_next; assumption.
  - intros ->. rewrite Hev. apply last_snoc.
  - intros ->. rewrite Hev, app_nil_r.
    apply schedule_Errored_last. symmetry. exact Hfin.
  - rewrite Hfin. apply finalOf_Errored.
Qed.

End Failures.

(** Coach "A" fails in round 1 of a three-round exchange of "A" and "B":
    its error is in the stream, "B" alone runs rounds 2 and 3 and the
    exchange ends with [done]. *)
Lemma failed_coach_leaves_the_exchange_witness :
  let req := orchRequest Free ["A"; "B"] 3 KbOff in
  let run := runOf (exchange 3 "summary" "all coaches failed" failingEnv req) in
  error (Some "A") "timeout" ∈ events (trace run)
  ∧ last (events (trace run)) = Some done
  ∧ exchangeSchedule 3 failingEnv req
    = [(1%nat, [participant "A"; participant "B"]);
       (2%nat, [participant "B"]); (3%nat, [participant "B"])].
Proof.
  intros req run.
  pose proof (failed_coach_leaves_the_exchange 3 "summary" "all coaches failed"
                failingEnv req run Done eq_refl eq_refl) as (_ & Hfail & _ & Hdone & _).
  split; [|split; [exact (Hdone eq_refl) | reflexivity]].
  refine (proj1 (Hfail 1%nat [participant "A"; participant "B"] (participant "A")
                   "timeout" _ _ _)).
  - apply elem_of_cons. left. reflexivity.
  - apply elem_of_cons. left. reflexivity.
  - reflexivity.
Defined.

(** *** Knowledge calls under the [coach] timing *)

Section CoachTiming.

Variable round_ceiling : nat.
Variable moderator_kind : string.
Variable fatal_message : string.
Variable env : Env.
Variable req : TurnRequest.
Hypothesis timing : kb_timing req = KbCoach.

Lemma coach_timing_fetchActions pos :
  fetchActions env req pos
  = match pos with
    | BeforeCoachTurn _ _ =>
        [Fetch (user_message req) (kb_top_k req) (kb_max_candidates req)]
    | _ => []
    end.
Proof.
  unfold fetchActions, fetch. rewrite timing. destruct pos; reflexivity.
Qed.

Lemma omap_cons {A B} (f : A → option B) (a : A) (l : list A) :
  omap f (a :: l)
  = match f a with Some b => b :: omap f l | None => omap f l end.
Proof. reflexivity. Qed.

Lemma kbObs_contents id (fs : list string) :
  omap kbObs (map Emit (map (content id) fs)) = [].
Proof. induction fs as [|f fs IH]; [reflexivity | exact IH]. Qed.

Lemma kbObs_turnActions r P :
  omap kbObs (turnActions env req r P) = [KnowledgeCall; CoachStart (participant_id P)].
Proof.
  unfold turnActions, coachEvents, executeTurn.
  rewrite coach_timing_fetchActions. cbn [app map].
  rewrite !omap_cons. cbn [kbObs].
  rewrite map_app, omap_app, kbObs_contents.
  destruct (failure _); reflexivity.
Qed.

Lemma kbObs_flat_turnActions r roster :
  omap kbObs (flat_map (turnActions env req r) roster) = callThenStart roster.
Proof.
  unfold callThenStart.
  induction roster as [|P ps IH]; [reflexivity|].
  cbn [flat_map]. rewrite omap_app, kbObs_turnActions, IH. reflexivity.
Qed.

Lemma kbObs_roundActions rr :
  omap kbObs (roundActions fatal_message env req rr) = callThenStart rr.2.
Proof.
  unfold roundActions. rewrite coach_timing_fetchActions.
  cbn [app]. rewrite omap_cons. cbn [kbObs].
  rewrite omap_app, kbObs_flat_turnActions.
  unfold closing. destruct (survivorsOf _ _ _); apply app_nil_r.
Qed.

Lemma kbObs_flat_roundActions sched :
  omap kbObs (flat_map (roundActions fatal_message env req) sched)
  = flat_map (λ rr, callThenStart rr.2) sched.
Proof.
  induction sched as [|rr sched IH]; [reflexivity|].
  cbn [flat_map]. rewrite omap_app, kbObs_roundActions, IH. reflexivity.
Qed.

Lemma kbObs_moderatorActions :
  omap kbObs (moderatorActions moderator_kind env req) = [].
Proof.
  unfold moderatorActions. destruct (moderatorOf req) as [m|]; [|reflexivity].
  rewrite coach_timing_fetchActions. unfold moderatorEvents, executeTurn.
  cbn [app map]. rewrite !omap_cons. cbn [kbObs].
  rewrite map_app, omap_app, kbObs_contents.
  destruct (failure _); reflexivity.
Qed.

Lemma kbObs_planActions :
  omap kbObs (planActions round_ceiling moderator_kind fatal_message env req)
  = flat_map (λ rr, callThenStart rr.2) (exchangeSchedule round_ceiling env req).
Proof.
  unfold planActions.
  rewrite !omap_app, coach_timing_fetchActions, kbObs_flat_roundActions.
  change (omap kbObs []) with (@nil KbObs). cbn [app].
  destruct (finalOf _ _); [|apply app_nil_r].
  rewrite omap_app, kbObs_moderatorActions. apply app_nil_r.
Qed.

End CoachTiming.

Lemma knowledgeCalls_kbObs (tr : list Action) :
  knowledgeCalls tr = length (List.filter isKnowledgeCall (omap kbObs tr)).
Proof.
  unfold knowledgeCalls. induction tr as [|a tr IH]; [reflexivity|].
  destruct a as [q k c|i|id params|e]; cbn; rewrite ?IH; try reflexivity.
  destruct e; cbn; rewrite ?IH; reflexivity.
Qed.

Lemma callThenStart_calls (roster : list Participant) :
  length (List.filter isKnowledgeCall (callThenStart roster)) = length roster.
Proof.
  unfold callThenStart. induction roster as [|P ps IH]; [reflexivity|].
  cbn. rewrite IH. reflexivity.
Qed.

Lemma schedule_calls (sched : list (nat * list Participant)) :
  length (List.filter isKnowledgeCall (flat_map (λ rr, callThenStart rr.2) sched))
  = coachTurnCount sched.
Proof.
  unfold coachTurnCount. induction sched as [|rr sched IH]; [reflexivity|].
  cbn [flat_map]. rewrite List.filter_app, !length_app, callThenStart_calls, IH.
  reflexivity.
Qed.

Lemma coachTurnCount_constant (roster : list Participant) (rs : list nat) :
  coachTurnCount (map (λ r, (r, roster)) rs) = (length roster * length rs)%nat.
Proof.
  unfold coachTurnCount. induction rs as [|r rs IH]; cbn [map flat_map length].
  - lia.
  - cbn [snd]. rewrite length_app, IH. lia.
Qed.

Lemma validate_roster (req : TurnRequest) :
  validate req = None → roster (req_session req) ≠ [].
Proof.
  unfold validate. destruct (roster (req_session req)); [discriminate | discriminate].
Qed.

(** C6, as the failure policy allows it.  Under the [coach] timing the
    Knowledge Capability is called once directly before the start of each
    coach turn that is run, and nowhere else: every round of the schedule
    contributes one call per coach of its active roster.  When no coach of
    the roster fails this makes K×R calls, for K coaches and a budget of R
    rounds. *)
Theorem knowledge_call_before_each_coach_turn (round_ceiling : nat)
    (moderator_kind fatal_message : string) (env : Env) (req : TurnRequest)
    (run : Run) (fin : Final) :
  kb_timing req = KbCoach →
  exchange round_ceiling moderator_kind fatal_message env req = Ran run fin →
  let sched := exchangeSchedule round_ceiling env req in
  omap kbObs (trace run) = flat_map (λ rr, callThenStart rr.2) sched
  ∧ knowledgeCalls (trace run) = coachTurnCount sched
  ∧ ((∀ r P, P ∈ roster (req_session req) →
             failure (generate env r (participant_id P)) = None) →
     knowledgeCalls (trace run)
     = (length (roster (req_session req)) * roundBudget round_ceiling req)%nat).
Proof.
  intros Htiming Hrun sched.
  assert (Hvalid : validate req = None).
  { apply (exchange_runs round_ceiling moderator_kind fatal_message env). eauto. }
  apply exchange_plan in Hrun as [Hsk _].
  assert (Hobs : omap kbObs (trace run) = flat_map (λ rr, callThenStart rr.2) sched).
  { rewrite <- kbObs_skeleton, Hsk. apply kbObs_planActions, Htiming. }
  assert (Hcalls : knowledgeCalls (trace run) = coachTurnCount sched).
  { rewrite knowledgeCalls_kbObs, Hobs. apply schedule_calls. }
  split; [exact Hobs|]. split; [exact Hcalls|].
  intros Hok. rewrite Hcalls. subst sched. unfold exchangeSchedule.
  rewrite schedule_no_failure by (auto using validate_roster).
  rewrite coachTurnCount_constant, length_seq. reflexivity.
Qed.

(** Two coaches, two rounds, no failure: four calls. *)
Lemma knowledge_call_before_each_coach_turn_witness :
  let req := orchRequest Free ["A"; "B"] 2 KbCoach in
  let run := runOf (exchange 3 "summary" "all coaches failed" calmEnv req) in
  knowledgeCalls (trace run) = 4%nat.
Proof.
  intros req run.
  refine (proj2 (proj2 (knowledge_call_before_each_coach_turn 3 "summary"
            "all coaches failed" calmEnv req run Done _ _)) _).
  - reflexivity.
  - reflexivity.
  - intros r P HP. reflexivity.
Defined.

(** C6 as stated fails: two coaches and two rounds under the [coach]
    timing, coach "A" fails in round 1 and takes no turn in round 2, and
    the Knowledge Capability is called three times, not 2×2. *)
Lemma knowledge_calls_fewer_after_failure :
  let req := orchRequest Free ["A"; "B"] 2 KbCoach in
  let run := runOf (exchange 3 "summary" "all coaches failed" failingEnv req) in
  kb_timing req = KbCoach
  ∧ length (roster (req_session req)) = 2%nat
  ∧ roundBudget 3 req = 2%nat
  ∧ countEvents isRoundStart (events (trace run)) = 2%nat
  ∧ knowledgeCalls (trace run) = 3%nat
  ∧ knowledgeCalls (trace run)
    ≠ (length (roster (req_session req)) * roundBudget 3 req)%nat.
Proof.
  intros req run. split; [reflexivity|]. split; [reflexivity|].
  split; [reflexivity|]. split; [vm_compute; reflexivity|].
  split; [vm_compute; reflexivity|]. vm_compute. discriminate.
Qed.

(** *** Moderated exchanges *)

Lemma countEvents_app f (evs1 evs2 : list RoundtableEvent) :
  countEvents f (evs1 ++ evs2) = (countEvents f evs1 + countEvents f evs2)%nat.
Proof. unfold countEvents. rewrite List.filter_app. apply length_app. Qed.

Lemma countEvents_cons f (e : RoundtableEvent) evs :
  countEvents f (e :: evs)
  = ((if f e then 1 else 0) + countEvents f evs)%nat.
Proof. unfold countEvents. cbn [List.filter]. destruct (f e); reflexivity. Qed.

Lemma countEvents_none f (evs : list RoundtableEvent) :
  Forall (λ e, f e = false) evs → countEvents f evs = 0%nat.
Proof.
  induction 1 as [|e evs He _ IH]; [reflexivity|].
  rewrite countEvents_cons, He, IH. reflexivity.
Qed.

Lemma Forall_flat_map {A B} (P : B → Prop) (f : A → list B) (l : list A) :
  (∀ x, x ∈ l → Forall P (f x)) → Forall P (flat_map f l).
Proof.
  induction l as [|x l IH]; intros H; cbn [flat_map]; [constructor|].
  apply Forall_app. split; [apply H; left | apply IH; intros y Hy; apply H; now right].
Qed.

Lemma turn_event_kinds (e : RoundtableEvent) :
  isCoachTurnEvent e = true →
  isRoundStart e = false ∧ isRoundEnd e = false ∧ isModeratorStart e = false
  ∧ isModeratorEnd e = false ∧ isDone e = false.
Proof.
  destruct e as [| | | | | | | |[c|] msg]; try discriminate; intros _;
    repeat split.
Qed.

Section Moderated.

Variable round_ceiling : nat.
Variable moderator_kind : string.
Variable fatal_message : string.
Variable env : Env.
Variable req : TurnRequest.
Hypothesis moderated : mode (req_session req) = Moderated.

Lemma moderated_schedule :
  exchangeSchedule round_ceiling env req = [(1%nat, roster (req_session req))].
Proof.
  unfold exchangeSchedule, roundBudget. rewrite moderated. rewrite schedule_S.
  destruct (survivorsOf _ _ _); reflexivity.
Qed.

Lemma moderated_validate :
  validate req = None → ∃ m, ses_moderator (req_session req) = Some m.
Proof.
  unfold validate. rewrite moderated.
  destruct (roster (req_session req)); [discriminate|].
  destruct (ses_moderator (req_session req)) as [m|]; [eauto | discriminate].
Qed.

Lemma coachEvents_are_turn_events r P :
  Forall (λ e, isCoachTurnEvent e = true) (coachEvents env r P).
Proof.
  unfold coachEvents, executeTurn. constructor; [reflexivity|].
  apply Forall_app. split.
  - apply Forall_fmap, Forall_true. reflexivity.
  - constructor; [|constructor]. destruct (failure _); reflexivity.
Qed.

Lemma round_coachEvents_are_turn_events r roster :
  Forall (λ e, isCoachTurnEvent e = true) (flat_map (coachEvents env r) roster).
Proof. apply Forall_flat_map. intros P _. apply coachEvents_are_turn_events. Qed.

Lemma moderatorEvents_no_round_start m :
  Forall (λ e, isRoundStart e = false) (moderatorEvents moderator_kind env m).
Proof.
  unfold moderatorEvents, executeTurn. constructor; [reflexivity|].
  apply Forall_app. split.
  - apply Forall_fmap, Forall_true. reflexivity.
  - constructor; [|constructor]. destruct (failure _); reflexivity.
Qed.

(** A moderated exchange opens round 1 and no other round. *)
Lemma moderated_single_round run fin :
  exchange round_ceiling moderator_kind fatal_message env req = Ran run fin →
  ∃ rest, events (trace run) = round_start 1 :: rest
          ∧ Forall (λ e, isRoundStart e = false) rest.
Proof.
  intros Hrun. rewrite (exchange_events _ _ _ _ _ _ _ Hrun).
  unfold planEvents. rewrite moderated_schedule. cbn [flat_map].
  unfold roundEvents at 1. cbn [fst snd app].
  eexists. split; [reflexivity|].
  rewrite app_nil_r. apply Forall_app. split; [apply Forall_app; split|].
  - eapply Forall_impl; [apply round_coachEvents_are_turn_events|].
    intros e He. destruct e as [| | | | | | | |[c|] msg]; try discriminate; reflexivity.
  - constructor; [|constructor]. unfold closing.
    destruct (survivorsOf _ _ _); reflexivity.
  - destruct (finalOf _ _); [|constructor].
    apply Forall_app. split; [|repeat constructor].
    destruct (moderatorOf req); [apply moderatorEvents_no_round_start | constructor].
Qed.

End Moderated.

(** C3, as the failure policy allows it.  A moderated exchange opens
    exactly one round, round 1, whatever the outcome of its turns and
    whatever number of rounds was requested.  When some coach completes its
    turn and the moderator's generation does not fail, the stream is
    [round_start 1], the turns of all coaches of the roster, [round_end 1],
    the moderator's start, content and end events, then [done]: one round
    pair, one moderator pair.  The client sends [max_rounds = 1] once its
    state is synchronised with a moderated session. *)
Theorem moderated_exchange_shape (round_ceiling : nat)
    (moderator_kind fatal_message : string) (env : Env) (req : TurnRequest)
    (run : Run) (fin : Final) :
  mode (req_session req) = Moderated →
  exchange round_ceiling moderator_kind fatal_message env req = Ran run fin →
  countEvents isRoundStart (events (trace run)) = 1%nat
  ∧ (∀ n, round_start n ∈ events (trace run) → n = 1)
  ∧ ((∃ P, P ∈ roster (req_session req)
           ∧ failure (generate env 1 (participant_id P)) = None) →
     failure (moderate env) = None →
     ∃ m coachEvs,
       ses_moderator (req_session req) = Some m
       ∧ coachEvs = flat_map (coachEvents env 1) (roster (req_session req))
       ∧ Forall (λ e, isCoachTurnEvent e = true) coachEvs
       ∧ events (trace run)
         = round_start 1 :: coachEvs
           ++ round_end 1
           :: moderator_start (participant_id m) (persona_name (persona m))
                (avatar m) moderator_kind
           :: map (content (participant_id m)) (fragments (moderate env))
           ++ [moderator_end (participant_id m) moderator_kind; done]
       ∧ countEvents isRoundEnd (events (trace run)) = 1%nat
       ∧ countEvents isModeratorStart (events (trace run)) = 1%nat
       ∧ countEvents isModeratorEnd (events (trace run)) = 1%nat
       ∧ countEvents isDone (events (trace run)) = 1%nat
       ∧ fin = Done)
  ∧ (∀ p st userContent apiAttachments,
       discussion_mode (session p) = Moderated →
       rq_max_rounds (chatRequest p (syncMaxRounds p st) userContent apiAttachments)
       = 1).
Proof.
  intros Hmod Hrun.
  destruct (moderated_single_round round_ceiling moderator_kind fatal_message
              env req Hmod run fin Hrun) as (rest & Hev & Hrest).
  split; [|split; [|split]].
  - rewrite Hev, countEvents_cons, countEvents_none by exact Hrest. reflexivity.
  - intros n Hin. rewrite Hev in Hin. apply elem_of_cons in Hin as [Heq|Hin].
    + congruence.
    + rewrite Forall_forall in Hrest. apply Hrest in Hin. discriminate.
  - intros (P & HP & HPok) Hmok.
    assert (Hvalid : validate req = None).
    { apply (exchange_runs round_ceiling moderator_kind fatal_message env). eauto. }
    destruct (moderated_validate req Hmod Hvalid) as (m & Hm).
    assert (Hsurv : survivorsOf env 1 (roster (req_session req)) ≠ []).
    { intros E. rewrite survivorsOf_nil in E. specialize (E P HP).
      unfold completed in E. rewrite HPok in E. discriminate. }
    pose proof (exchange_events _ _ _ _ _ _ _ Hrun) as Hpe.
    apply exchange_plan in Hrun as [_ Hfin].
    rewrite (moderated_schedule round_ceiling env req Hmod) in Hfin.
    rewrite (finalOf_cons_survivors env _ _ [] Hsurv) in Hfin.
    change (finalOf env []) with Done in Hfin.
    unfold planEvents in Hpe.
    rewrite (moderated_schedule round_ceiling env req Hmod) in Hpe.
    rewrite (finalOf_cons_survivors env _ _ [] Hsurv) in Hpe.
    change (finalOf env []) with Done in Hpe.
    unfold moderatorOf in Hpe. rewrite Hmod, Hm in Hpe.
    cbn [flat_map] in Hpe. unfold roundEvents, closing in Hpe. cbn [fst snd] in Hpe.
    destruct (survivorsOf env 1 (roster (req_session req))) as [|q qs] eqn:E;
      [congruence|].
    unfold moderatorEvents, executeTurn in Hpe. rewrite Hmok in Hpe.
    rewrite app_nil_r in Hpe. cbn [app] in Hpe.
    rewrite <- !app_assoc in Hpe. cbn [app] in Hpe.
    change (Z.of_nat 1) with 1 in Hpe.
    pose proof (round_coachEvents_are_turn_events env 1 (roster (req_session req)))
      as Hturn.
    assert (Hcontents : Forall (λ e, isCoachTurnEvent e = true)
              (map (content (participant_id m)) (fragments (moderate env)))).
    { apply Forall_fmap, Forall_true. reflexivity. }
    assert (Hcount : ∀ f, (∀ e, isCoachTurnEvent e = true → f e = false) →
              f (round_start 1) = false →
              countEvents f (events (trace run))
              = ((if f (round_end 1) then 1 else 0)
                 + ((if f (moderator_start (participant_id m)
                            (persona_name (persona m)) (avatar m) moderator_kind)
                     then 1 else 0)
                    + ((if f (moderator_end (participant_id m) moderator_kind)
                        then 1 else 0)
                       + (if f done then 1 else 0))))%nat).
    { intros f Hf Hrs. rewrite Hpe.
      rewrite countEvents_cons, Hrs, countEvents_app, !countEvents_cons,
        countEvents_app, !countEvents_cons.
      rewrite (countEvents_none f (flat_map _ _))
        by (eapply Forall_impl; [exact Hturn | exact Hf]).
      rewrite (countEvents_none f (map _ _))
        by (eapply Forall_impl; [exact Hcontents | exact Hf]).
      change (countEvents f []) with 0%nat. lia. }
    exists m, (flat_map (coachEvents env 1) (roster (req_session req))).
    split; [exact Hm|]. split; [reflexivity|]. split; [exact Hturn|].
    split; [exact Hpe|].
    split; [rewrite (Hcount isRoundEnd) by
              (first [reflexivity | intros e He; apply turn_event_kinds, He]);
            reflexivity|].
    split; [rewrite (Hcount isModeratorStart) by
              (first [reflexivity | intros e He; apply turn_event_kinds, He]);
            reflexivity|].
    split; [rewrite (Hcount isModeratorEnd) by
              (first [reflexivity | intros e He; apply turn_event_kinds, He]);
            reflexivity|].
    split; [rewrite (Hcount isDone) by
              (first [reflexivity | intros e He; apply turn_event_kinds, He]);
            reflexivity|].
    exact Hfin.
  - intros p st uc aa Hm. unfold chatRequest, syncMaxRounds. cbn.
    rewrite Hm. reflexivity.
Qed.

(** One coach and a moderator, nothing fails. *)
Lemma moderated_exchange_shape_witness :
  let req := orchRequest Moderated ["A"] 3 KbModerator in
  let run := runOf (exchange 3 "summary" "all coaches failed" calmEnv req) in
  countEvents isRoundStart (events (trace run)) = 1%nat
  ∧ countEvents isModeratorEnd (events (trace run)) = 1%nat.
Proof.
  intros req run.
  pose proof (moderated_exchange_shape 3 "summary" "all coaches failed"
                calmEnv req run Done eq_refl eq_refl) as (Hone & _ & Hshape & _).
  split; [exact Hone|].
  destruct Hshape as (m & coachEvs & _ & _ & _ & _ & _ & _ & Hend & _).
  - exists (participant "A"). split; [|reflexivity].
    apply elem_of_cons. left. reflexivity.
  - reflexivity.
  - exact Hend.
Defined.

(** C3 as stated fails: the only coach of a moderated exchange fails, and
    the stream ends with the unscoped error, without a [round_end], a
    moderator turn or [done]. *)
Lemma moderated_exchange_without_moderator_turn :
  let req := orchRequest Moderated ["A"] 1 KbOff in
  let run := runOf (exchange 3 "summary" "all coaches failed" failingEnv req) in
  mode (req_session req) = Moderated
  ∧ events (trace run)
    = [round_start 1; coach_start "A" "A" None; content "A" "Ho";
       error (Some "A") "timeout"; error None "all coaches failed"]
  ∧ countEvents isRoundEnd (events (trace run)) = 0%nat
  ∧ countEvents isModeratorStart (events (trace run)) = 0%nat
  ∧ countEvents isDone (events (trace run)) = 0%nat.
Proof.
  intros req run. split; [reflexivity|].
  split; [vm_compute; reflexivity|].
  split; [vm_compute; reflexivity|].
  split; vm_compute; reflexivity.
Qed.

(** *** The debate style *)

Lemma events_unframe (tr : list Action) : events (map unframe tr) = events tr.
Proof.
  induction tr as [|a tr IH]; [reflexivity|].
  destruct a; cbn; unfold events in IH; rewrite IH; reflexivity.
Qed.

Lemma framings_app (tr1 tr2 : list Action) :
  framings (tr1 ++ tr2) = framings tr1 ++ framings tr2.
Proof. apply omap_app. Qed.

Lemma framings_emits (evs : list RoundtableEvent) : framings (map Emit evs) = [].
Proof. induction evs as [|e evs IH]; [reflexivity | exact IH]. Qed.

Section Style.

Variable moderator_kind : string.
Variable fatal_message : string.
Variable env : Env.
Variable req : TurnRequest.
Variable d : option DebateStyle.

Lemma emit_sameButFraming acts run' run :
  sameButFraming run' run → sameButFraming (emit acts run') (emit acts run).
Proof.
  intros [Ht Hs]. split; cbn [emit trace transcript]; [|exact Hs].
  rewrite !map_app, Ht. reflexivity.
Qed.

Lemma coachTurn_style r k run' run p :
  sameButFraming run' run →
  sameButFraming (coachTurn env (withStyle d req) r k run' p).1
                 (coachTurn env req r k run p).1
  ∧ (coachTurn env (withStyle d req) r k run' p).2 = (coachTurn env req r k run p).2.
Proof.
  intros [Ht Hs]. split; [|reflexivity].
  unfold coachTurn. split; cbn [fst trace transcript].
  - change (fetch env (withStyle d req)) with (fetch env req).
    change (effectiveParams (withStyle d req)) with (effectiveParams req).
    rewrite !map_app, Ht. f_equal. f_equal. cbn [map]. f_equal.
    unfold assemblerInput, unframe. cbn. rewrite Hs. reflexivity.
  - rewrite Hs. reflexivity.
Qed.

Lemma coachTurns_style r k roster :
  ∀ run' run,
  sameButFraming run' run →
  sameButFraming (coachTurns env (withStyle d req) r k roster run').1
                 (coachTurns env req r k roster run).1
  ∧ (coachTurns env (withStyle d req) r k roster run').2
    = (coachTurns env req r k roster run).2.
Proof.
  induction roster as [|p rest IH]; intros run' run Hsim; cbn [coachTurns fst snd].
  - split; [exact Hsim | reflexivity].
  - destruct (coachTurn_style r k run' run p Hsim) as [H1 H2].
    destruct (IH _ _ H1) as [H3 H4].
    split; [exact H3|]. rewrite H2, H4. reflexivity.
Qed.

Lemma rounds_style budget :
  ∀ r k roster run' run,
  sameButFraming run' run →
  sameButFraming (rounds fatal_message env (withStyle d req) budget r k roster run').1
                 (rounds fatal_message env req budget r k roster run).1
  ∧ (rounds fatal_message env (withStyle d req) budget r k roster run').2
    = (rounds fatal_message env req budget r k roster run).2.
Proof.
  induction budget as [|budget IH]; intros r k roster run' run Hsim; cbn [rounds].
  - split; [exact Hsim | reflexivity].
  - change (fetch env (withStyle d req)) with (fetch env req).
    set (acts := (fetch env req (BeforeRound r) k).1 ++ [Emit (round_start (Z.of_nat r))]).
    set (k1 := (fetch env req (BeforeRound r) k).2).
    destruct (coachTurns_style r k1 roster _ _
                (emit_sameButFraming acts _ _ Hsim)) as [H1 H2].
    rewrite H2.
    destruct (coachTurns env req r k1 roster (emit acts run)).2 as [|q qs].
    + split; [|reflexivity]. cbn [fst]. apply emit_sameButFraming, H1.
    + apply IH, emit_sameButFraming, H1.
Qed.

Lemma moderatorPhase_style m k run' run :
  sameButFraming run' run →
  sameButFraming (moderatorPhase moderator_kind env (withStyle d req) m k run')
                 (moderatorPhase moderator_kind env req m k run).
Proof.
  intros [Ht Hs]. unfold moderatorPhase. split; cbn [trace transcript].
  - change (fetch env (withStyle d req)) with (fetch env req).
    change (effectiveParams (withStyle d req)) with (effectiveParams req).
    rewrite !map_app, Ht. f_equal. f_equal. cbn [map]. f_equal.
    unfold assemblerInput, unframe. cbn. rewrite Hs. reflexivity.
  - rewrite Hs. reflexivity.
Qed.

(** *** The framing every Context Assembler call receives *)


Lemma framings_fetch pos k : framings (fetch env req pos k).1 = [].
Proof. unfold fetch. destruct (shouldFetch _ _); reflexivity. Qed.

Lemma emit_framed acts run :
  framings acts = [] → framed req run → framed req (emit acts run).
Proof.
  unfold framed. intros Ha Hr. cbn [emit trace].
  rewrite framings_app, Ha, app_nil_r. exact Hr.
Qed.

Lemma coachTurn_framed r k run p :
  framed req run → framed req (coachTurn env req r k run p).1.
Proof.
  unfold framed, coachTurn. intros Hr. cbn [fst trace].
  rewrite !framings_app, framings_fetch. cbn [app].
  apply Forall_app. split; [exact Hr|].
  change (framings (Assemble ?i :: Generate ?id ?q :: ?l))
    with (framing i :: framings l).
  rewrite framings_emits. constructor; [reflexivity | constructor].
Qed.

Lemma coachTurns_framed r k roster :
  ∀ run, framed req run → framed req (coachTurns env req r k roster run).1.
Proof.
  induction roster as [|p rest IH]; intros run Hr; cbn [coachTurns fst].
  - exact Hr.
  - apply IH, coachTurn_framed, Hr.
Qed.

Lemma rounds_framed budget :
  ∀ r k roster run,
  framed req run → framed req (rounds fatal_message env req budget r k roster run).1.
Proof.
  induction budget as [|budget IH]; intros r k roster run Hr; cbn [rounds].
  - exact Hr.
  - assert (H1 : framed req (coachTurns env req r (fetch env req (BeforeRound r) k).2 roster
             (emit ((fetch env req (BeforeRound r) k).1
                    ++ [Emit (round_start (Z.of_nat r))]) run)).1).
    { apply coachTurns_framed, emit_framed; [|exact Hr].
      rewrite framings_app, framings_fetch. reflexivity. }
    destruct (coachTurns env req r _ roster _).2 as [|q qs].
    + cbn [fst]. apply emit_framed; [reflexivity | exact H1].
    + apply IH, emit_framed; [reflexivity | exact H1].
Qed.

Lemma moderatorPhase_framed m k run :
  framed req run → framed req (moderatorPhase moderator_kind env req m k run).
Proof.
  unfold framed, moderatorPhase. intros Hr. cbn [trace].
  rewrite !framings_app, framings_fetch. cbn [app].
  apply Forall_app. split; [exact Hr|].
  change (framings (Assemble ?i :: Generate ?id ?q :: ?l))
    with (framing i :: framings l).
  rewrite framings_emits. constructor; [reflexivity | constructor].
Qed.

End Style.

Lemma exchange_style (round_ceiling : nat) (moderator_kind fatal_message : string)
    (env : Env) (req : TurnRequest) (d : option DebateStyle) :
  match exchange round_ceiling moderator_kind fatal_message env (withStyle d req),
        exchange round_ceiling moderator_kind fatal_message env req with
  | Ran run' fin', Ran run fin => sameButFraming run' run ∧ fin' = fin
  | Rejected e', Rejected e => e' = e
  | _, _ => False
  end.
Proof.
  rewrite !exchange_validated.
  change (validate (withStyle d req)) with (validate req).
  destruct (validate req) as [e|]; [reflexivity|]. cbn zeta.
  change (fetch env (withStyle d req)) with (fetch env req).
  change (roundBudget round_ceiling (withStyle d req))
    with (roundBudget round_ceiling req).
  change (req_session (withStyle d req)) with (req_session req).
  set (k0 := (fetch env req BeforeExchange noKnowledge).2).
  set (run0 := {| trace := (fetch env req BeforeExchange noKnowledge).1;
                  transcript := [] |}).
  destruct (rounds_style fatal_message env req d (roundBudget round_ceiling req) 1 k0
              (roster (req_session req)) run0 run0 (conj eq_refl eq_refl))
    as [H1 H2].
  rewrite H2.
  destruct (rounds fatal_message env req (roundBudget round_ceiling req) 1 k0
              (roster (req_session req)) run0).2.
  - split; [|reflexivity]. apply emit_sameButFraming.
    destruct (mode (req_session req)); [exact H1|].
    destruct (ses_moderator (req_session req)) as [m|]; [|exact H1].
    apply moderatorPhase_style, H1.
  - split; [exact H1 | reflexivity].
Qed.

Lemma exchange_framed (round_ceiling : nat) (moderator_kind fatal_message : string)
    (env : Env) (req : TurnRequest) (run : Run) (fin : Final) :
  exchange round_ceiling moderator_kind fatal_message env req = Ran run fin →
  framed req run.
Proof.
  rewrite exchange_validated. destruct (validate req) as [e|]; [discriminate|].
  cbn zeta.
  set (k0 := (fetch env req BeforeExchange noKnowledge).2).
  set (run0 := {| trace := (fetch env req BeforeExchange noKnowledge).1;
                  transcript := [] |}).
  assert (H0 : framed req run0).
  { unfold framed, run0. cbn [trace]. rewrite framings_fetch. constructor. }
  pose proof (rounds_framed fatal_message env req (roundBudget round_ceiling req) 1 k0
                (roster (req_session req)) run0 H0) as H1.
  destruct (rounds fatal_message env req (roundBudget round_ceiling req) 1 k0
              (roster (req_session req)) run0).2;
    intros H; inversion H; subst; clear H; [|exact H1].
  apply emit_framed; [reflexivity|].
  destruct (mode (req_session req)); [exact H1|].
  destruct (ses_moderator (req_session req)) as [m|]; [|exact H1].
  apply moderatorPhase_framed, H1.
Qed.

(** *** The shape of a run *)

Lemma events_actionShape (tr : list Action) :
  events (map actionShape tr) = map eventShape (events tr).
Proof.
  induction tr as [|a tr IH]; [reflexivity|].
  destruct a; cbn; unfold events in IH; rewrite IH; reflexivity.
Qed.

Lemma actionShape_emits (evs : list RoundtableEvent) :
  map actionShape (map Emit evs) = map Emit (map eventShape evs).
Proof. rewrite !map_map. reflexivity. Qed.

Lemma erased_fragments (id : string) (fs1 fs2 : list string) :
  length fs1 = length fs2 →
  map eventShape (map (content id) fs1) = map eventShape (map (content id) fs2).
Proof.
  revert fs2. induction fs1 as [|f1 fs1 IH]; intros [|f2 fs2] Hl;
    try discriminate; [reflexivity|].
  cbn [map eventShape]. f_equal. apply IH. now injection Hl.
Qed.

Lemma executeTurn_shape (g1 g2 : GenResult) (id : string)
    (start stop : RoundtableEvent) :
  genShape g1 = genShape g2 →
  map eventShape (executeTurn g1 id start stop)
  = map eventShape (executeTurn g2 id start stop).
Proof.
  unfold genShape, executeTurn, completed. intros [= Hl Hc].
  cbn [map]. rewrite !map_app, (erased_fragments id _ _ Hl). f_equal. f_equal.
  destruct (failure g1), (failure g2); try discriminate; reflexivity.
Qed.

Section Shapes.

Variable moderator_kind : string.
Variable fatal_message : string.
Variable env1 env2 : Env.
Variable req : TurnRequest.
Variable d1 d2 : option DebateStyle.

(** The backend's results in the two exchanges have the same shape. *)
Hypothesis same_shape :
  ∀ r id, genShape (generate env1 r id) = genShape (generate env2 r id).

Lemma fetch_shape pos k1 k2 :
  (fetch env1 (withStyle d1 req) pos k1).1 = (fetch env2 (withStyle d2 req) pos k2).1.
Proof.
  unfold fetch. cbn [withStyle kb_timing user_message kb_top_k kb_max_candidates].
  destruct (shouldFetch _ _); reflexivity.
Qed.

Lemma emit_sameShape acts run1 run2 :
  sameShape run1 run2 → sameShape (emit acts run1) (emit acts run2).
Proof.
  unfold sameShape. intros H. cbn [emit trace]. rewrite !map_app, H. reflexivity.
Qed.

Lemma coachTurn_shape r k1 k2 run1 run2 p :
  sameShape run1 run2 →
  sameShape (coachTurn env1 (withStyle d1 req) r k1 run1 p).1
            (coachTurn env2 (withStyle d2 req) r k2 run2 p).1
  ∧ (coachTurn env1 (withStyle d1 req) r k1 run1 p).2
    = (coachTurn env2 (withStyle d2 req) r k2 run2 p).2.
Proof.
  unfold sameShape. intros H.
  pose proof (same_shape r (participant_id p)) as Hg.
  split.
  - unfold coachTurn. cbn [fst trace].
    rewrite !map_app, H, (fetch_shape _ k1 k2), !actionShape_emits.
    rewrite (executeTurn_shape _ _ _ _ _ Hg). reflexivity.
  - unfold coachTurn. cbn [snd]. unfold genShape in Hg. now injection Hg.
Qed.

Lemma coachTurns_shape r roster :
  ∀ k1 k2 run1 run2,
  sameShape run1 run2 →
  sameShape (coachTurns env1 (withStyle d1 req) r k1 roster run1).1
            (coachTurns env2 (withStyle d2 req) r k2 roster run2).1
  ∧ (coachTurns env1 (withStyle d1 req) r k1 roster run1).2
    = (coachTurns env2 (withStyle d2 req) r k2 roster run2).2.
Proof.
  induction roster as [|p rest IH]; intros k1 k2 run1 run2 Hsim;
    cbn [coachTurns fst snd].
  - split; [exact Hsim | reflexivity].
  - destruct (coachTurn_shape r k1 k2 run1 run2 p Hsim) as [H1 H2].
    destruct (IH k1 k2 _ _ H1) as [H3 H4].
    split; [exact H3|]. rewrite H2, H4. reflexivity.
Qed.

Lemma rounds_shape budget :
  ∀ r k1 k2 roster run1 run2,
  sameShape run1 run2 →
  sameShape (rounds fatal_message env1 (withStyle d1 req) budget r k1 roster run1).1
            (rounds fatal_message env2 (withStyle d2 req) budget r k2 roster run2).1
  ∧ (rounds fatal_message env1 (withStyle d1 req) budget r k1 roster run1).2
    = (rounds fatal_message env2 (withStyle d2 req) budget r k2 roster run2).2.
Proof.
  induction budget as [|budget IH]; intros r k1 k2 roster run1 run2 Hsim;
    cbn [rounds].
  - split; [exact Hsim | reflexivity].
  - rewrite (fetch_shape (BeforeRound r) k1 k2).
    set (acts := (fetch env2 (withStyle d2 req) (BeforeRound r) k2).1
                 ++ [Emit (round_start (Z.of_nat r))]).
    destruct (coachTurns_shape r roster
                (fetch env1 (withStyle d1 req) (BeforeRound r) k1).2
                (fetch env2 (withStyle d2 req) (BeforeRound r) k2).2 _ _
                (emit_sameShape acts _ _ Hsim)) as [H1 H2].
    rewrite H2.
    destruct (coachTurns env2 (withStyle d2 req) r _ roster (emit acts run2)).2
      as [|q qs].
    + split; [|reflexivity]. cbn [fst]. apply emit_sameShape, H1.
    + apply IH, emit_sameShape, H1.
Qed.

End Shapes.

Lemma exchange_shape (round_ceiling : nat) (moderator_kind fatal_message : string)
    (env1 env2 : Env) (req : TurnRequest) (d1 d2 : option DebateStyle) :
  mode (req_session req) = Free →
  (∀ r id, genShape (generate env1 r id) = genShape (generate env2 r id)) →
  match exchange round_ceiling moderator_kind fatal_message env1 (withStyle d1 req),
        exchange round_ceiling moderator_kind fatal_message env2 (withStyle d2 req) with
  | Ran run1 fin1, Ran run2 fin2 =>
      map actionShape (trace run1) = map actionShape (trace run2) ∧ fin1 = fin2
  | Rejected e1, Rejected e2 => e1 = e2
  | _, _ => False
  end.
Proof.
  intros Hfree Hgen. rewrite !exchange_validated.
  change (validate (withStyle d1 req)) with (validate req).
  change (validate (withStyle d2 req)) with (validate req).
  destruct (validate req) as [e|]; [reflexivity|]. cbn zeta.
  change (roundBudget round_ceiling (withStyle d1 req))
    with (roundBudget round_ceiling req).
  change (roundBudget round_ceiling (withStyle d2 req))
    with (roundBudget round_ceiling req).
  change (req_session (withStyle d1 req)) with (req_session req).
  change (req_session (withStyle d2 req)) with (req_session req).
  rewrite Hfree.
  set (f1 := fetch env1 (withStyle d1 req) BeforeExchange noKnowledge).
  set (f2 := fetch env2 (withStyle d2 req) BeforeExchange noKnowledge).
  assert (H0 : sameShape {| trace := f1.1; transcript := [] |}
                         {| trace := f2.1; transcript := [] |}).
  { unfold sameShape, f1, f2. cbn [trace].
    rewrite (fetch_shape env1 env2 req d1 d2 BeforeExchange noKnowledge noKnowledge).
    reflexivity. }
  destruct (rounds_shape fatal_message env1 env2 req d1 d2 Hgen
              (roundBudget round_ceiling req) 1 f1.2 f2.2 (roster (req_session req))
              _ _ H0) as [H1 H2].
  rewrite H2.
  destruct (rounds fatal_message env2 (withStyle d2 req) (roundBudget round_ceiling req)
              1 f2.2 (roster (req_session req)) _).2.
  - split; [|reflexivity]. apply emit_sameShape, H1.
  - split; [exact H1 | reflexivity].
Qed.

(** C7, as the design has it.  The orchestrator hands the debate style to
    the Context Assembler and reads it nowhere else: in two free-mode
    exchanges that differ in the debate style only, every Context Assembler
    call receives the convergent framing in the one and the adversarial
    framing in the other.  The style reaches the generation backend in the
    prompt, so the two exchanges need not meet the same results.  When the
    results have the same shape turn by turn (as many fragments, the same
    success or failure), the two exchanges are both rejected for the same
    reason or both run to the same final state, with the same kinds of events
    for the same participants in the same order and the same calls of the
    collaborators; when the results are the same, the events and the
    finalized turns are the same and the actions differ in the framing only.
    The client puts a debate style in the request for a free session only. *)
Theorem debate_style_changes_framing_only (round_ceiling : nat)
    (moderator_kind fatal_message : string) (env1 env2 : Env) (req : TurnRequest) :
  mode (req_session req) = Free →
  (∀ r id, genShape (generate env1 r id) = genShape (generate env2 r id)) →
  let o1 := exchange round_ceiling moderator_kind fatal_message env1
              (withStyle (Some Converge) req) in
  let o2 := exchange round_ceiling moderator_kind fatal_message env2
              (withStyle (Some Clash) req) in
  ((∃ e, o1 = Rejected e ∧ o2 = Rejected e)
   ∨ (∃ run1 run2 fin,
        o1 = Ran run1 fin ∧ o2 = Ran run2 fin
        ∧ map eventShape (events (trace run1)) = map eventShape (events (trace run2))
        ∧ map actionShape (trace run1) = map actionShape (trace run2)
        ∧ Forall (λ f, f = Some ConvergentCritique) (framings (trace run1))
        ∧ Forall (λ f, f = Some AdversarialFraming) (framings (trace run2))
        ∧ (env1 = env2 →
           events (trace run1) = events (trace run2)
           ∧ map unframe (trace run1) = map unframe (trace run2)
           ∧ transcript run1 = transcript run2)))
  ∧ (∀ p st userContent apiAttachments,
       rq_debate_style (chatRequest p st userContent apiAttachments)
       = match discussion_mode (session p) with
         | Free => Some (debateStyle st)
         | Moderated => None
         end).
Proof.
  intros Hfree Hgen o1 o2. split.
  - pose proof (exchange_shape round_ceiling moderator_kind fatal_message env1 env2
                  req (Some Converge) (Some Clash) Hfree Hgen) as S.
    fold o1 in S. fold o2 in S.
    pose proof (exchange_framed round_ceiling moderator_kind fatal_message env1
                  (withStyle (Some Converge) req)) as F1.
    pose proof (exchange_framed round_ceiling moderator_kind fatal_message env2
                  (withStyle (Some Clash) req)) as F2.
    fold o1 in F1. fold o2 in F2.
    assert (Hsame : env1 = env2 →
              match o1, o2 with
              | Ran run1 _, Ran run2 _ =>
                  map unframe (trace run1) = map unframe (trace run2)
                  ∧ transcript run1 = transcript run2
              | _, _ => True
              end).
    { intros <-.
      pose proof (exchange_style round_ceiling moderator_kind fatal_message env1 req
                    (Some Converge)) as S1.
      pose proof (exchange_style round_ceiling moderator_kind fatal_message env1 req
                    (Some Clash)) as S2.
      fold o1 in S1. fold o2 in S2.
      destruct o1 as [|run1 fin1], o2 as [|run2 fin2]; try exact I.
      destruct (exchange round_ceiling moderator_kind fatal_message env1 req)
        as [|run fin]; [contradiction|].
      destruct S1 as [[T1 U1] _], S2 as [[T2 U2] _]. split; congruence. }
    destruct o1 as [e1|run1 fin1], o2 as [e2|run2 fin2]; try contradiction.
    + left. exists e1. subst e2. split; reflexivity.
    + right. destruct S as [HS ->].
      exists run1, run2, fin2. split; [reflexivity|]. split; [reflexivity|].
      split; [rewrite <- !events_actionShape, HS; reflexivity|].
      split; [exact HS|].
      specialize (F1 run1 fin2 eq_refl). specialize (F2 run2 fin2 eq_refl).
      unfold framed in F1, F2. cbn [withStyle req_session debate_style] in F1, F2.
      rewrite Hfree in F1, F2. split; [exact F1|]. split; [exact F2|].
      intros Heq. destruct (Hsame Heq) as [HT HU].
      split; [rewrite <- (events_unframe (trace run1)), HT; apply events_unframe|].
      split; assumption.
  - intros p st uc aa. unfold chatRequest. cbn.
    destruct (discussion_mode (session p)); reflexivity.
Qed.

(** Two coaches, two rounds, under both styles, the backend answering with
    other words in the second exchange. *)
Lemma debate_style_changes_framing_only_witness :
  let req := orchRequest Free ["A"; "B"] 2 KbRound in
  map eventShape
    (events (trace (runOf (exchange 3 "summary" "all coaches failed" calmEnv
                             (withStyle (Some Converge) req)))))
  = map eventShape
      (events (trace (runOf (exchange 3 "summary" "all coaches failed" terseEnv
                               (withStyle (Some Clash) req))))).
Proof.
  intros req.
  destruct (proj1 (debate_style_changes_framing_only 3 "summary"
                     "all coaches failed" calmEnv terseEnv req eq_refl
                     (λ _ _, eq_refl)))
    as [(e & H1 & _) | (run1 & run2 & fin & H1 & H2 & Hev & _)].
  - discriminate H1.
  - rewrite H1, H2. exact Hev.
Defined.

(** C7 as stated fails: one backend, a function of the prompt, that refuses
    the adversarial framing.  The two exchanges differ in the debate style
    only; under the convergent style coach "A" completes its turn and the
    exchange reaches [done], under the adversarial style the turn fails and
    the exchange ends with the unscoped error. *)
Lemma debate_style_reaches_the_backend :
  let req := orchRequest Free ["A"] 1 KbOff in
  let run1 := runOf (exchange 3 "summary" "all coaches failed" calmEnv
                       (withStyle (Some Converge) req)) in
  let run2 := runOf (exchange 3 "summary" "all coaches failed" refusingEnv
                       (withStyle (Some Clash) req)) in
  servedBy framingSensitive calmEnv (trace run1)
  ∧ servedBy framingSensitive refusingEnv (trace run2)
  ∧ events (trace run1)
    = [round_start 1; coach_start "A" "A" None; content "A" "Hold";
       content "A" " on"; coach_end "A"; round_end 1; done]
  ∧ events (trace run2)
    = [round_start 1; coach_start "A" "A" None; error (Some "A") "refused";
       error None "all coaches failed"]
  ∧ map eventShape (events (trace run1)) ≠ map eventShape (events (trace run2)).
Proof.
  intros req run1 run2.
  assert (E1 : events (trace run1)
               = [round_start 1; coach_start "A" "A" None; content "A" "Hold";
                  content "A" " on"; coach_end "A"; round_end 1; done])
    by (vm_compute; reflexivity).
  assert (E2 : events (trace run2)
               = [round_start 1; coach_start "A" "A" None; error (Some "A") "refused";
                  error None "all coaches failed"])
    by (vm_compute; reflexivity).
  split; [vm_compute; repeat split|].
  split; [vm_compute; repeat split|].
  split; [exact E1|]. split; [exact E2|].
  rewrite E1, E2. discriminate.
Qed.

End OrchestratorFacts.

(* ===================================================================== *)
(** ** Further properties of the roster selector *)
(* ===================================================================== *)

Module SelectorExtras.
Import CoachMultiSelector CoachMultiSelectorView.

Lemma filter_other_absent (c : string) (ids : list string) :
  c ∉ ids → filter (λ id, id ≠ c) ids = ids.
Proof.
  induction ids as [|d ids IH]; intros Hnin; [reflexivity|].
  apply not_elem_of_cons in Hnin as [Hne Hnin].
  rewrite filter_cons_True by congruence. f_equal. apply IH, Hnin.
Qed.

Lemma filter_other_snoc (c : string) (ids : list string) :
  filter (λ id, id ≠ c) (ids ++ [c]) = filter (λ id, id ≠ c) ids.
Proof.
  rewrite filter_app, (filter_cons_False _ c []) by (intros H; now apply H).
  apply app_nil_r.
Qed.

Lemma props_eta (p : CoachMultiSelectorProps) :
  withSelection p (selectedIds p) = p.
Proof. destruct p. reflexivity. Qed.

Lemma toggle_selected_eq p c :
  c ∈ selectedIds p →
  toggle p c = withSelection p (filter (λ id, id ≠ c) (selectedIds p)).
Proof.
  intros Hin. unfold toggle.
  now rewrite (SelectorFacts.handleToggle_selected p c Hin).
Qed.

Lemma toggle_unselected_eq p c :
  c ∉ selectedIds p →
  Z.of_nat (length (selectedIds p)) < maxCountOf p →
  toggle p c = withSelection p (selectedIds p ++ [c]).
Proof.
  intros Hnin Hlt. unfold toggle.
  rewrite (SelectorFacts.handleToggle_unselected p c Hnin).
  now rewrite bool_decide_eq_true_2.
Qed.

Lemma toggle_full_eq p c :
  c ∉ selectedIds p →
  maxCountOf p ≤ Z.of_nat (length (selectedIds p)) →
  toggle p c = p.
Proof.
  intros Hnin Hge. unfold toggle.
  rewrite (SelectorFacts.handleToggle_unselected p c Hnin).
  now rewrite bool_decide_eq_false_2 by lia.
Qed.

(** X1.  Selecting a coach and clicking it again gives back the selection one
    started from, order included. *)
Theorem toggle_twice_restores (p : CoachMultiSelectorProps) (c : string) :
  c ∉ selectedIds p →
  Z.of_nat (length (selectedIds p)) < maxCountOf p →
  c ∈ selectedIds (toggle p c) ∧ toggle (toggle p c) c = p.
Proof.
  intros Hnin Hlt. rewrite (toggle_unselected_eq p c Hnin Hlt).
  assert (Hin : c ∈ selectedIds (withSelection p (selectedIds p ++ [c]))).
  { simpl. apply elem_of_app. right. apply list_elem_of_singleton. reflexivity. }
  split; [exact Hin|].
  rewrite (toggle_selected_eq _ c Hin). simpl.
  rewrite filter_other_snoc, (filter_other_absent c _ Hnin).
  destruct p. reflexivity.
Qed.

Lemma toggle_twice_restores_witness :
  let p := {| selectedIds := ["a"; "b"]; minCount := None; maxCount := None |} in
  toggle (toggle p "c") "c" = p.
Proof.
  intros p. refine (proj2 (toggle_twice_restores p "c" _ _)).
  - subst p. simpl. intros H.
    apply elem_of_cons in H as [H|H]; [discriminate|].
    apply elem_of_cons in H as [H|H]; [discriminate|].
    apply elem_of_nil in H. exact H.
  - vm_compute. reflexivity.
Defined.

Lemma toggle_NoDup p c : NoDup (selectedIds p) → NoDup (selectedIds (toggle p c)).
Proof.
  intros Hnd. destruct (decide (c ∈ selectedIds p)) as [Hin|Hnin].
  - rewrite (toggle_selected_eq p c Hin). simpl. apply NoDup_filter, Hnd.
  - destruct (decide (Z.of_nat (length (selectedIds p)) < maxCountOf p)) as [Hlt|Hge].
    + rewrite (toggle_unselected_eq p c Hnin Hlt). simpl.
      apply NoDup_app. split; [exact Hnd|]. split.
      * intros x Hx Hx'. apply list_elem_of_singleton in Hx'. subst x. contradiction.
      * apply NoDup_singleton.
    + rewrite (toggle_full_eq p c Hnin) by lia. exact Hnd.
Qed.

(** X2.  A selection without repetitions stays without repetitions under every
    sequence of toggles: no coach is ever selected twice. *)
Theorem toggles_keep_selection_duplicate_free (p : CoachMultiSelectorProps)
    (cs : list string) :
  NoDup (selectedIds p) → NoDup (selectedIds (toggles p cs)).
Proof.
  unfold toggles. revert p. induction cs as [|c cs IH]; intros p Hnd; simpl.
  - exact Hnd.
  - apply IH, toggle_NoDup, Hnd.
Qed.

Lemma toggles_keep_selection_duplicate_free_witness :
  NoDup (selectedIds
           (toggles {| selectedIds := []; minCount := None; maxCount := Some 2 |}
              ["a"; "a"; "b"; "a"; "c"])).
Proof.
  refine (toggles_keep_selection_duplicate_free _ _ _). simpl. apply NoDup_nil_2.
Defined.

(** X3.  A card is disabled exactly when toggling its coach would do nothing,
    so the guard of the card's click handler never changes what a click
    does. *)
Theorem disabled_card_is_ignored_toggle (p : CoachMultiSelectorProps) (c : string) :
  (isDisabled p c = true ↔ handleToggle p c = None)
  ∧ cardClick p c = handleToggle p c.
Proof.
  assert (H : isDisabled p c = true ↔ handleToggle p c = None).
  { unfold isDisabled, handleToggle.
    destruct (includes (selectedIds p) c); simpl.
    - split; discriminate.
    - rewrite bool_decide_eq_true. case_bool_decide as Hlt.
      + split; [lia | discriminate].
      + split; [reflexivity | lia]. }
  split; [exact H|].
  unfold cardClick. destruct (isDisabled p c) eqn:E; [|reflexivity].
  symmetry. apply H. reflexivity.
Qed.

(** X4.  Toggling a coach changes nobody else: every other coach is selected
    after the toggle exactly when it was before, and the others keep their
    order. *)
Theorem toggle_leaves_other_coaches (p : CoachMultiSelectorProps) (c : string) :
  filter (λ id, id ≠ c) (selectedIds (toggle p c))
  = filter (λ id, id ≠ c) (selectedIds p)
  ∧ ∀ d, d ≠ c → (d ∈ selectedIds (toggle p c) ↔ d ∈ selectedIds p).
Proof.
  assert (H : filter (λ id, id ≠ c) (selectedIds (toggle p c))
              = filter (λ id, id ≠ c) (selectedIds p)).
  { destruct (decide (c ∈ selectedIds p)) as [Hin|Hnin].
    - rewrite (toggle_selected_eq p c Hin). simpl.
      apply filter_other_absent. rewrite list_elem_of_filter. tauto.
    - destruct (decide (Z.of_nat (length (selectedIds p)) < maxCountOf p)) as [Hlt|Hge].
      + rewrite (toggle_unselected_eq p c Hnin Hlt). simpl. apply filter_other_snoc.
      + rewrite (toggle_full_eq p c Hnin) by lia. reflexivity. }
  split; [exact H|].
  intros d Hne.
  assert (Hd : ∀ l : list string, d ∈ l ↔ d ∈ filter (λ id, id ≠ c) l).
  { intros l. rewrite list_elem_of_filter. tauto. }
  rewrite (Hd (selectedIds (toggle p c))), (Hd (selectedIds p)), H. reflexivity.
Qed.

Lemma minCountOf_toggles cs : ∀ p, minCountOf (toggles p cs) = minCountOf p.
Proof.
  unfold toggles. induction cs as [|c cs IH]; intros p; simpl; [reflexivity|].
  rewrite IH. unfold toggle. destruct (handleToggle p c); reflexivity.
Qed.

Lemma maxCountOf_toggles cs : ∀ p, maxCountOf (toggles p cs) = maxCountOf p.
Proof.
  unfold toggles. induction cs as [|c cs IH]; intros p; simpl; [reflexivity|].
  rewrite IH. unfold toggle. destruct (handleToggle p c); reflexivity.
Qed.

(** X5.  The hint asking for at least [minCount] coaches is shown for a
    non-empty selection that is too small or too large.  Along toggles from
    a selection within [maxCount] it is shown exactly when the selection is
    non-empty and below [minCount]. *)
Theorem minimum_hint_when_too_few (p : CoachMultiSelectorProps) :
  (showsMinimumHint p = true
   ↔ (0 < length (selectedIds p))%nat
     ∧ (Z.of_nat (length (selectedIds p)) < minCountOf p
        ∨ maxCountOf p < Z.of_nat (length (selectedIds p))))
  ∧ (within_max p →
     ∀ cs, showsMinimumHint (toggles p cs) = true
           ↔ 0 < Z.of_nat (length (selectedIds (toggles p cs))) < minCountOf p).
Proof.
  assert (H : ∀ q, showsMinimumHint q = true
     ↔ (0 < length (selectedIds q))%nat
       ∧ (Z.of_nat (length (selectedIds q)) < minCountOf q
          ∨ maxCountOf q < Z.of_nat (length (selectedIds q)))).
  { intros q. unfold showsMinimumHint.
    rewrite andb_true_iff, negb_true_iff, bool_decide_eq_true.
    rewrite <- not_true_iff_false, SelectorFacts.isValid_spec. lia. }
  split; [apply H|].
  intros Hmax cs. rewrite H, minCountOf_toggles, maxCountOf_toggles.
  pose proof (SelectorFacts.toggles_within_max cs p Hmax) as Hb.
  unfold within_max in Hb. rewrite maxCountOf_toggles in Hb. lia.
Qed.

Lemma minimum_hint_when_too_few_witness :
  showsMinimumHint
    (toggles {| selectedIds := []; minCount := None; maxCount := None |} ["a"])
  = true.
Proof.
  apply (proj2 (minimum_hint_when_too_few
                  {| selectedIds := []; minCount := None; maxCount := None |})).
  - unfold within_max. simpl. vm_compute. discriminate.
  - vm_compute. split; reflexivity.
Defined.

Lemma ownLabel_elem ls style v :
  ownLabel ls style = Some v → (style, v) ∈ ls.
Proof.
  induction ls as [|[k w] ls IH]; simpl; [discriminate|].
  case_decide as E.
  - intros [= <-]. subst k. left.
  - intros H. right. apply IH, H.
Qed.

(** X6.  For a style that is not the name of a property of [Object.prototype],
    [getStyleLabel] returns a string: the label of one of the five known
    styles, or the style itself.  The string is empty only for the empty
    style, and a label is shown unchanged when it is labelled again. *)
Theorem style_label_or_style_itself (style : string) :
  style ∉ objectPrototypeKeys →
  ∃ s, getStyleLabel style = LabelString s
       ∧ ((style, s) ∈ labels ∨ (ownLabel labels style = None ∧ s = style))
       ∧ (style ≠ "" → s ≠ "")
       ∧ getStyleLabel s = LabelString s.
Proof.
  intros Hproto. unfold getStyleLabel.
  destruct (ownLabel labels style) as [v|] eqn:E.
  - pose proof (ownLabel_elem _ _ _ E) as Hin.
    assert (Hv : v ≠ "" ∧ getStyleLabel v = LabelString v).
    { unfold labels in Hin.
      repeat (apply elem_of_cons in Hin as [Hin|Hin];
              [inversion Hin; subst; split; [discriminate | reflexivity]|]).
      apply elem_of_nil in Hin. contradiction. }
    destruct Hv as [Hne Hstable].
    rewrite decide_False by exact Hne.
    exists v. split; [reflexivity|]. split; [left; exact Hin|].
    split; [intros _; exact Hne | exact Hstable].
  - rewrite bool_decide_eq_false_2 by exact Hproto.
    exists style. split; [reflexivity|]. split; [right; split; reflexivity|].
    split; [auto|].
    unfold getStyleLabel. rewrite E.
    rewrite bool_decide_eq_false_2 by exact Hproto. reflexivity.
Qed.

Lemma style_label_or_style_itself_witness :
  getStyleLabel "stoic" = LabelString "stoic".
Proof.
  destruct (style_label_or_style_itself "stoic") as (s & Hs & [Hin|[_ ->]] & _).
  - vm_compute. intros H.
    repeat (apply elem_of_cons in H as [H|H]; [discriminate|]).
    apply elem_of_nil in H. exact H.
  - exfalso. unfold labels in Hin.
    repeat (apply elem_of_cons in Hin as [Hin|Hin]; [discriminate|]).
    apply elem_of_nil in Hin. exact Hin.
  - exact Hs.
Defined.

End SelectorExtras.

(* ===================================================================== *)
(** ** Further properties of the chat component *)
(* ===================================================================== *)

Module ChatExtras.
Import RoundtableChat RoundtableChatIO.

(** *** [trim] *)

Lemma chars_of_list (l : list Ascii.ascii) :
  chars (String.string_of_list_ascii l) = l.
Proof. apply String.list_ascii_of_string_of_list_ascii. Qed.


Lemma chars_nil (s : string) : chars s = [] ↔ s = "".
Proof. split; [|intros ->; reflexivity]. destruct s; [reflexivity | discriminate]. Qed.

Lemma chars_trim (s : string) :
  chars (trim s) = trimEndBytes (trimStartBytes (chars s)).
Proof. apply chars_of_list. Qed.

Section Dropping.

Variable ws : list (list Ascii.ascii).

Lemma dropSpace_Some l l' :
  dropSpace ws l = Some l' → ∃ w, w ∈ ws ∧ l = w ++ l'.
Proof.
  induction ws as [|w ws' IH]; cbn [dropSpace]; [discriminate|].
  case_decide as Hp.
  - intros [= <-]. exists w. split; [left|].
    destruct Hp as [k ->]. rewrite drop_app_length. reflexivity.
  - intros H. destruct (IH H) as (w' & Hin & Hl). exists w'. split; [now right | exact Hl].
Qed.

Lemma dropSpace_None l :
  dropSpace ws l = None ↔ ∀ w, w ∈ ws → ¬ w `prefix_of` l.
Proof.
  induction ws as [|w ws' IH]; cbn [dropSpace].
  - split; [|reflexivity]. intros _ w Hw. inversion Hw.
  - case_decide as Hp.
    + split; [discriminate|]. intros H. exfalso. apply (H w); [left | exact Hp].
    + rewrite IH. split.
      * intros H w' Hw'. apply elem_of_cons in Hw' as [->|Hw']; [exact Hp | apply H, Hw'].
      * intros H w' Hw'. apply H. now right.
Qed.

Lemma spaces_app b1 b2 : spaces ws b1 → spaces ws b2 → spaces ws (b1 ++ b2).
Proof.
  induction 1 as [|w l Hw Hl IH]; intros H2; [exact H2|].
  rewrite <- app_assoc. constructor; [exact Hw | apply IH, H2].
Qed.

Lemma spaces_one w : w ∈ ws → spaces ws w.
Proof.
  intros Hw. rewrite <- (app_nil_r w). constructor; [exact Hw | constructor].
Qed.

Hypothesis nonempty : Forall (λ w, w ≠ []) ws.

Lemma dropSpace_shorter l l' : dropSpace ws l = Some l' → (length l' < length l)%nat.
Proof.
  intros H. apply dropSpace_Some in H as (w & Hw & ->).
  rewrite Forall_forall in nonempty. specialize (nonempty w Hw).
  rewrite length_app. destruct w; [congruence | cbn; lia].
Qed.

(** With [length l] steps nothing of [ws] is left at the front, and what was
    dropped is a sequence of characters of [ws]. *)
Lemma dropSpaces_split n :
  ∀ l, (length l ≤ n)%nat →
  ∃ b, spaces ws b ∧ l = b ++ dropSpaces ws n l
       ∧ dropSpace ws (dropSpaces ws n l) = None.
Proof.
  induction n as [|n IH]; intros l Hn; cbn [dropSpaces].
  - destruct l; [|cbn in Hn; lia]. exists []. split; [constructor|].
    split; [reflexivity|]. apply dropSpace_None. intros w Hw [k Hk].
    rewrite Forall_forall in nonempty. apply (nonempty w Hw).
    symmetry in Hk. apply app_eq_nil in Hk as [-> _]. reflexivity.
  - destruct (dropSpace ws l) as [l'|] eqn:E.
    + pose proof (dropSpace_shorter _ _ E) as Hlt.
      apply dropSpace_Some in E as (w & Hw & ->).
      destruct (IH l' ltac:(lia)) as (b & Hb & Hl & Hc).
      exists (w ++ b). split; [constructor; assumption|].
      split; [|exact Hc]. rewrite <- app_assoc, <- Hl. reflexivity.
    + exists []. split; [constructor|]. split; [reflexivity | exact E].
Qed.

Lemma dropSpaces_clean n l : dropSpace ws l = None → dropSpaces ws n l = l.
Proof. intros H. destruct n; cbn [dropSpaces]; [reflexivity|]. rewrite H. reflexivity. Qed.

Lemma dropSpace_nil : dropSpace ws [] = None.
Proof.
  apply dropSpace_None. intros w Hw [k Hk].
  rewrite Forall_forall in nonempty. apply (nonempty w Hw).
  symmetry in Hk. apply app_eq_nil in Hk as [-> _]. reflexivity.
Qed.

(** No character of [ws] is the beginning of another. *)
Hypothesis prefix_free :
  ∀ w w', w ∈ ws → w' ∈ ws → w `prefix_of` w' → w = w'.

Lemma dropSpace_spaces w l : w ∈ ws → dropSpace ws (w ++ l) = Some l.
Proof.
  intros Hw. destruct (dropSpace ws (w ++ l)) as [l'|] eqn:E.
  - apply dropSpace_Some in E as (w' & Hw' & Hl).
    assert (w = w') as <-.
    { destruct (prefix_weak_total w w' (w ++ l)) as [H|H].
      - now exists l.
      - exists l'. exact Hl.
      - apply prefix_free; assumption.
      - symmetry. apply prefix_free; assumption. }
    apply app_inv_head in Hl. now subst.
  - exfalso. rewrite dropSpace_None in E. apply (E w Hw). now exists l.
Qed.

Lemma dropSpaces_spaces b :
  spaces ws b → ∀ n, (length b ≤ n)%nat → dropSpaces ws n b = [].
Proof.
  induction 1 as [|w l Hw Hl IH]; intros n Hn.
  - apply dropSpaces_clean, dropSpace_nil.
  - rewrite Forall_forall in nonempty. specialize (nonempty w Hw).
    rewrite length_app in Hn.
    destruct n as [|n]; [destruct w; [congruence | cbn in Hn; lia]|].
    cbn [dropSpaces]. rewrite (dropSpace_spaces w l Hw). apply IH.
    destruct w; [congruence | cbn in Hn; lia].
Qed.

End Dropping.

Lemma spaces_reverse ws b : spaces (map reverse ws) b → spaces ws (reverse b).
Proof.
  induction 1 as [|w l Hw Hl IH]; [constructor|].
  rewrite reverse_app. apply spaces_app; [exact IH|].
  apply list_elem_of_fmap in Hw as (w0 & -> & Hw0).
  rewrite reverse_involutive. apply spaces_one, Hw0.
Qed.

Lemma whiteSpace_nonempty : Forall (λ w, w ≠ []) whiteSpace.
Proof. refine (bool_decide_unpack _ _). vm_compute. exact I. Qed.

Lemma whiteSpace_reverse_nonempty : Forall (λ w, w ≠ []) (map reverse whiteSpace).
Proof. refine (bool_decide_unpack _ _). vm_compute. exact I. Qed.

Lemma whiteSpace_prefix_free w w' :
  w ∈ whiteSpace → w' ∈ whiteSpace → w `prefix_of` w' → w = w'.
Proof.
  assert (H : Forall (λ w, Forall (λ w', w `prefix_of` w' → w = w') whiteSpace) whiteSpace).
  { refine (bool_decide_unpack _ _). vm_compute. exact I. }
  rewrite Forall_forall in H. intros Hw Hw'. specialize (H w Hw).
  rewrite Forall_forall in H. apply H, Hw'.
Qed.

(** What [trim] leaves and what it drops. *)
Lemma trim_split (s : string) :
  ∃ b1 b2, spaces whiteSpace b1 ∧ spaces whiteSpace b2
           ∧ chars s = b1 ++ chars (trim s) ++ b2
           ∧ dropSpace whiteSpace (chars (trim s) ++ b2) = None
           ∧ dropSpace (map reverse whiteSpace) (reverse (chars (trim s))) = None.
Proof.
  rewrite chars_trim. unfold trimStartBytes, trimEndBytes.
  destruct (dropSpaces_split whiteSpace whiteSpace_nonempty (length (chars s)) (chars s))
    as (b1 & Hb1 & Hs & Hc1); [lia|].
  set (t := dropSpaces whiteSpace (length (chars s)) (chars s)) in *.
  destruct (dropSpaces_split (map reverse whiteSpace) whiteSpace_reverse_nonempty
              (length t) (reverse t)) as (b2 & Hb2 & Ht & Hc2);
    [rewrite length_reverse; lia|].
  set (u := dropSpaces (map reverse whiteSpace) (length t) (reverse t)) in *.
  assert (Ht' : t = reverse u ++ reverse b2).
  { rewrite <- reverse_app, <- Ht, reverse_involutive. reflexivity. }
  exists b1, (reverse b2). split; [exact Hb1|]. split; [apply spaces_reverse, Hb2|].
  split; [rewrite <- Ht'; exact Hs|]. split; [rewrite <- Ht'; exact Hc1|].
  rewrite reverse_involutive. exact Hc2.
Qed.

Lemma trim_empty (s : string) : trim s = "" ↔ blank s.
Proof.
  unfold blank. split.
  - intros H. destruct (trim_split s) as (b1 & b2 & H1 & H2 & Hs & _).
    rewrite H in Hs. cbn [chars String.list_ascii_of_string app] in Hs.
    rewrite Hs. apply spaces_app; assumption.
  - intros H. apply chars_nil. rewrite chars_trim. unfold trimStartBytes.
    rewrite (dropSpaces_spaces whiteSpace whiteSpace_nonempty whiteSpace_prefix_free
               _ H) by lia.
    reflexivity.
Qed.




(** *** Frame properties *)

Lemma handleStreamEvent_untouched p rr clk e st :
  untouched (handleStreamEvent p rr clk e st) = untouched st.
Proof.
  destruct e as [n|i nm av|i nm av mt|i f|i|i mt|n| |oi msg]; simpl;
    try reflexivity; destruct (member (streamingResponses st) i); reflexivity.
Qed.

Lemma handleStream_untouched p rr stream :
  ∀ st, untouched (handleStream p rr stream st) = untouched st.
Proof.
  unfold handleStream. induction stream as [|[clk e] stream IH]; intros st;
    cbn [foldl]; [reflexivity|].
  rewrite IH. apply handleStreamEvent_untouched.
Qed.

Lemma handleStream_app p rr s1 s2 st :
  handleStream p rr (s1 ++ s2) st = handleStream p rr s2 (handleStream p rr s1 st).
Proof. unfold handleStream. apply foldl_app. Qed.

Lemma handleStream_cons p rr clk e stream st :
  handleStream p rr ((clk, e) :: stream) st
  = handleStream p rr stream (handleStreamEvent p rr clk e st).
Proof. reflexivity. Qed.

Lemma handleStream_currentRound p rr stream :
  ∀ st, currentRound (handleStream p rr stream st)
        = lastRoundStart (currentRound st) stream.
Proof.
  unfold handleStream, lastRoundStart.
  induction stream as [|[clk e] stream IH]; intros st; cbn [foldl]; [reflexivity|].
  rewrite IH. f_equal.
  destruct e as [n|i nm av|i nm av mt|i f|i|i mt|n| |oi msg]; simpl;
    try reflexivity; destruct (member (streamingResponses st) i); reflexivity.
Qed.

(** *** Messages a stream records *)

Lemma recorded_mono p rr s1 s2 m :
  (∀ ce, ce ∈ s1 → ce ∈ s2) → recorded p rr s1 m → recorded p rr s2 m.
Proof.
  intros Hsub (H1 & H2 & H3 & H4 & id & H5 & ce & Hin & He).
  repeat split; try assumption. exists id. split; [assumption|].
  exists ce. split; [apply Hsub, Hin | exact He].
Qed.

Lemma handleStreamEvent_records p rr clk e st :
  ∃ new, messages (handleStreamEvent p rr clk e st) = messages st ++ new
         ∧ Forall (recorded p rr [(clk, e)]) new
         ∧ (length new ≤ if is_end e then 1 else 0)%nat.
Proof.
  assert (Hnone : ∃ new, messages st = messages st ++ new
            ∧ Forall (recorded p rr [(clk, e)]) new ∧ (length new ≤ 0)%nat).
  { exists []. rewrite app_nil_r. repeat split; [constructor | reflexivity]. }
  destruct e as [n|i nm av|i nm av mt|i f|i|i mt|n| |oi msg]; simpl;
    try exact Hnone.
  - assert (Hrec : ∀ response,
              Forall (recorded p rr [(clk, coach_end i)])
                [coachMessage p rr clk i response]).
    { intros response. constructor; [|constructor].
      repeat split. exists i. split; [reflexivity|].
      exists (clk, coach_end i). split; [left|]. simpl.
      apply bool_decide_eq_true_2. reflexivity. }
    destruct (member (streamingResponses st) i) as [r| |]; simpl.
    + exists [coachMessage p rr clk i (OwnEntry r)]. split; [reflexivity|].
      split; [apply Hrec | reflexivity].
    + exists [coachMessage p rr clk i InheritedMember]. split; [reflexivity|].
      split; [apply Hrec | reflexivity].
    + destruct Hnone as (new & H1 & H2 & H3). exists new.
      split; [exact H1|]. split; [exact H2 | lia].
  - assert (Hrec : ∀ response,
              Forall (recorded p rr [(clk, moderator_end i mt)])
                [moderatorMessage p rr clk i mt response]).
    { intros response. constructor; [|constructor].
      repeat split. exists i. split; [reflexivity|].
      exists (clk, moderator_end i mt). split; [left|]. simpl.
      apply bool_decide_eq_true_2. reflexivity. }
    destruct (member (streamingResponses st) i) as [r| |]; simpl.
    + exists [moderatorMessage p rr clk i mt (OwnEntry r)]. split; [reflexivity|].
      split; [apply Hrec | reflexivity].
    + exists [moderatorMessage p rr clk i mt InheritedMember]. split; [reflexivity|].
      split; [apply Hrec | reflexivity].
    + destruct Hnone as (new & H1 & H2 & H3). exists new.
      split; [exact H1|]. split; [exact H2 | lia].
Qed.

Lemma handleStream_records p rr stream :
  ∀ st, ∃ new, messages (handleStream p rr stream st) = messages st ++ new
               ∧ Forall (recorded p rr stream) new
               ∧ (length new ≤ length (List.filter (λ ce, is_end ce.2) stream))%nat.
Proof.
  induction stream as [|[clk e] stream IH]; intros st.
  - exists []. rewrite app_nil_r. repeat split; [constructor | reflexivity].
  - rewrite handleStream_cons.
    destruct (handleStreamEvent_records p rr clk e st) as (n1 & H1 & F1 & L1).
    destruct (IH (handleStreamEvent p rr clk e st)) as (n2 & H2 & F2 & L2).
    exists (n1 ++ n2). split; [rewrite H2, H1, app_assoc; reflexivity|].
    split.
    + apply Forall_app. split.
      * eapply Forall_impl; [exact F1|]. intros m. apply recorded_mono.
        intros ce Hce. apply list_elem_of_singleton in Hce. subst ce. left.
      * eapply Forall_impl; [exact F2|]. intros m. apply recorded_mono.
        intros ce Hce. now right.
    + rewrite length_app. cbn [List.filter snd].
      destruct (is_end e); cbn [length]; lia.
Qed.

(** *** [handleSend] *)

Lemma ignored_iff st value :
  ignored st value = true ↔ blank value ∨ isLoading st = true.
Proof.
  unfold ignored. rewrite orb_true_iff, bool_decide_eq_true, trim_empty.
  reflexivity.
Qed.

Lemma handleSend_ignored p clk value processed stream fin st :
  ignored st value = true → handleSend p clk value processed stream fin st = st.
Proof. unfold handleSend. now intros ->. Qed.

Lemma handleSend_invalid p clk value processed stream fin st :
  ignored st value = false → truthy (session_id (session p)) = false →
  handleSend p clk value processed stream fin st
  = setMessages (λ prev, prev ++ [invalidSessionMessage clk]) st.
Proof. unfold handleSend. now intros -> ->. Qed.

Lemma starts_exchange_iff p st value :
  starts_exchange p st value = true
  ↔ ignored st value = false ∧ truthy (session_id (session p)) = true.
Proof.
  unfold starts_exchange. rewrite andb_true_iff, negb_true_iff. reflexivity.
Qed.

(** The messages of the state [handleSend] leaves after an exchange. *)
Lemma handleSend_messages p clk value processed stream fin st :
  starts_exchange p st value = true →
  ∃ new,
    messages (handleSend p clk value processed stream fin st)
    = messages st
      ++ userMessage p clk (trim value) processed.1
      :: new
      ++ match fin with
         | Completed => []
         | Thrown message clkE => [errorMessage p clkE message]
         end
    ∧ Forall (recorded p (currentRound st) stream) new
    ∧ (length new ≤ length (List.filter (λ ce, is_end ce.2) stream))%nat.
Proof.
  intros Hstart. rewrite (ChatFacts.handleSend_exchange _ _ _ _ _ _ _ Hstart).
  destruct (handleStream_records p (currentRound st) stream
              (beginExchange p clk value processed.1 st)) as (new & Hm & Hrec & Hlen).
  exists new. split; [|split; [exact Hrec | exact Hlen]].
  transitivity (messages (catchError p fin
     (handleStream p (currentRound st) stream
        (beginExchange p clk value processed.1 st)))); [reflexivity|].
  destruct fin as [|message clkE]; simpl; rewrite Hm; simpl;
    rewrite <- ?app_assoc; simpl; rewrite ?app_nil_r; reflexivity.
Qed.

(** X7.  A send changes nothing exactly when the text is blank or an exchange
    is running: then the state is left as it is and no request is built; every
    other send appends at least one message. *)
Theorem blank_or_busy_send_changes_nothing (p : Props) (clk : Clock)
    (value : string) (processed : list ChatAttachment * list ApiMessageAttachment)
    (stream : list (Clock * RoundtableEvent)) (fin : StreamEnd) (st : State) :
  (handleSend p clk value processed stream fin st = st
   ↔ blank value ∨ isLoading st = true)
  ∧ (blank value ∨ isLoading st = true → requestSent p value processed st = None)
  ∧ (¬ (blank value ∨ isLoading st = true) →
     (length (messages st)
      < length (messages (handleSend p clk value processed stream fin st)))%nat).
Proof.
  assert (Hgrow : ignored st value = false →
     (length (messages st)
      < length (messages (handleSend p clk value processed stream fin st)))%nat).
  { intros Hi. destruct (truthy (session_id (session p))) eqn:Ht.
    - destruct (handleSend_messages p clk value processed stream fin st)
        as (new & Hm & _); [apply starts_exchange_iff; auto|].
      rewrite Hm, length_app. simpl. lia.
    - rewrite (handleSend_invalid _ _ _ _ _ _ _ Hi Ht). simpl.
      rewrite length_app. simpl. lia. }
  split; [|split].
  - rewrite <- ignored_iff. split.
    + intros Heq. destruct (ignored st value) eqn:Hi; [reflexivity|].
      specialize (Hgrow eq_refl). rewrite Heq in Hgrow. lia.
    + apply handleSend_ignored.
  - rewrite <- ignored_iff. intros Hi. unfold requestSent, starts_exchange.
    now rewrite Hi.
  - rewrite <- ignored_iff. intros Hi. apply Hgrow.
    destruct (ignored st value); [contradiction | reflexivity].
Qed.

(** A text of an ideographic space, a no-break space and a space. *)
Lemma blank_or_busy_send_changes_nothing_witness :
  let value := ideographicSpace +:+ noBreakSpace +:+ " " in
  blank value
  ∧ requestSent (sampleProps Free) value ([], []) (sampleState false) = None.
Proof.
  intros value.
  assert (Hb : blank value) by (apply trim_empty; vm_compute; reflexivity).
  split; [exact Hb|].
  exact (proj1 (proj2 (blank_or_busy_send_changes_nothing (sampleProps Free)
           sampleClock value ([], []) [] Completed (sampleState false)))
           (or_introl Hb)).
Defined.



(** X9.  After an exchange, however its stream ended, the component is idle
    again: not loading, no streaming card, no highlighted coach, the input
    cleared; rounds, debate style and the override's values are as before the
    send.  The messages are the old ones, the user's message, the messages
    recorded from the stream and, when the stream threw, the error message;
    the next non-blank text starts another exchange. *)
Theorem exchange_leaves_component_idle (p : Props) (clk : Clock) (value : string)
    (processed : list ChatAttachment * list ApiMessageAttachment)
    (stream : list (Clock * RoundtableEvent)) (fin : StreamEnd) (st : State) :
  starts_exchange p st value = true →
  let st' := handleSend p clk value processed stream fin st in
  isLoading st' = false
  ∧ streamingResponses st' = ∅
  ∧ currentCoachId st' = None
  ∧ input st' = ""
  ∧ maxRounds st' = maxRounds st
  ∧ debateStyle st' = debateStyle st
  ∧ (∃ new,
       messages st'
       = messages st
         ++ userMessage p clk (trim value) processed.1
         :: new
         ++ match fin with
            | Completed => []
            | Thrown message clkE => [errorMessage p clkE message]
            end
       ∧ (length new ≤ length (List.filter (λ ce, is_end ce.2) stream))%nat)
  ∧ (∀ value', starts_exchange p st' value' = true ↔ ¬ blank value').
Proof.
  intros Hstart st'.
  pose proof (handleSend_messages p clk value processed stream fin st Hstart)
    as (new & Hm & _ & Hlen).
  assert (Hst : st' = finally (catchError p fin
            (handleStream p (currentRound st) stream
               (beginExchange p clk value processed.1 st))))
    by apply (ChatFacts.handleSend_exchange _ _ _ _ _ _ _ Hstart).
  assert (Hu : untouched (catchError p fin
            (handleStream p (currentRound st) stream
               (beginExchange p clk value processed.1 st)))
          = untouched (beginExchange p clk value processed.1 st)).
  { transitivity (untouched (handleStream p (currentRound st) stream
               (beginExchange p clk value processed.1 st))).
    - destruct fin; reflexivity.
    - apply handleStream_untouched. }
  assert (Hload : isLoading st' = false) by (rewrite Hst; reflexivity).
  split; [exact Hload|].
  split; [rewrite Hst; reflexivity|].
  split; [rewrite Hst; reflexivity|].
  split; [rewrite Hst; cbn [finally setOverrideEnabled setStreamingResponses
                             setCurrentCoachId setIsLoading input];
          now inversion Hu|].
  split; [rewrite Hst; cbn [finally setOverrideEnabled setStreamingResponses
                             setCurrentCoachId setIsLoading maxRounds];
          now inversion Hu|].
  split; [rewrite Hst; cbn [finally setOverrideEnabled setStreamingResponses
                             setCurrentCoachId setIsLoading debateStyle];
          now inversion Hu|].
  split; [exists new; split; [exact Hm | exact Hlen]|].
  intros value'. rewrite starts_exchange_iff.
  apply starts_exchange_iff in Hstart as [_ Ht]. rewrite Ht.
  rewrite <- not_true_iff_false, ignored_iff, Hload.
  split; [intros [H _] Hb; apply H; now left|].
  intros Hb. split; [|reflexivity]. intros [H|H]; [tauto | discriminate].
Qed.

Lemma exchange_leaves_component_idle_witness :
  isLoading
    (handleSend (sampleProps Free) sampleClock "hi" ([], [])
       [(sampleClock, coach_start "A" "Coach A" None)] (Thrown None sampleClock)
       (sampleState true)) = false.
Proof.
  refine (proj1 (exchange_leaves_component_idle (sampleProps Free) sampleClock "hi"
                   ([], []) [(sampleClock, coach_start "A" "Coach A" None)]
                   (Thrown None sampleClock) (sampleState true) _)).
  vm_compute. reflexivity.
Defined.

(** X10.  A stream records messages at end events only: what it appends is at
    most one message per end event, each an assistant message of a
    participant the stream has an end event for, numbered with the round the
    handler captured. *)
Theorem stream_records_at_end_events_only (p : Props) (renderRound : Z)
    (stream : list (Clock * RoundtableEvent)) (st : State) :
  ∃ new,
    messages (handleStream p renderRound stream st) = messages st ++ new
    ∧ Forall (recorded p renderRound stream) new
    ∧ (length new ≤ length (List.filter (λ ce, is_end ce.2) stream))%nat.
Proof.
  destruct (handleStream_records p renderRound stream st) as (new & Hm & Hrec & Hlen).
  exists new. split; [exact Hm|]. split; [exact Hrec | exact Hlen].
Qed.

(** X11.  The round number of a recorded message is the value [currentRound] had
    when [handleSend] was called, whatever [round_start] events the stream
    carries; those events only set the counter the next send will read. *)
Theorem turn_number_is_round_at_send (p : Props) (clk : Clock) (value : string)
    (processed : list ChatAttachment * list ApiMessageAttachment)
    (stream : list (Clock * RoundtableEvent)) (fin : StreamEnd) (st : State) :
  starts_exchange p st value = true →
  let st' := handleSend p clk value processed stream fin st in
  currentRound st' = lastRoundStart (currentRound st) stream
  ∧ ∀ m, m ∈ messages st' → m ∉ messages st → is_Some (m_coach_id m) →
         m_turn_number m = Some (currentRound st).
Proof.
  intros Hstart st'. split.
  - subst st'. rewrite (ChatFacts.handleSend_exchange _ _ _ _ _ _ _ Hstart).
    transitivity (currentRound (handleStream p (currentRound st) stream
                     (beginExchange p clk value processed.1 st))).
    + destruct fin; reflexivity.
    + rewrite handleStream_currentRound. reflexivity.
  - intros m Hin Hold [id Hid].
    destruct (handleSend_messages p clk value processed stream fin st Hstart)
      as (new & Hm & Hrec & _).
    fold st' in Hm. rewrite Hm in Hin.
    apply elem_of_app in Hin as [Hin|Hin]; [contradiction|].
    apply elem_of_cons in Hin as [Hin|Hin]; [subst m; discriminate|].
    apply elem_of_app in Hin as [Hin|Hin].
    + rewrite Forall_forall in Hrec. apply Hrec in Hin as (_ & Ht & _). exact Ht.
    + destruct fin; [apply elem_of_nil in Hin; contradiction|].
      apply list_elem_of_singleton in Hin. subst m. discriminate.
Qed.

(** From a counter at 0, a stream that opens round 1 records its coach
    message under round 0 and leaves the counter at 1. *)
Lemma turn_number_is_round_at_send_witness :
  let stream := [(sampleClock, round_start 1);
                 (sampleClock, coach_start "A" "Coach A" None);
                 (sampleClock, content "A" "Hi");
                 (sampleClock, coach_end "A")] in
  let st' := handleSend (sampleProps Free) sampleClock "hi" ([], []) stream
               Completed (sampleState false) in
  currentRound st' = 1
  ∧ map m_turn_number (messages st') = [None; Some 0].
Proof.
  intros stream st'. split; [|reflexivity].
  refine (proj1 (turn_number_is_round_at_send (sampleProps Free) sampleClock "hi"
                   ([], []) stream Completed (sampleState false) _)).
  vm_compute. reflexivity.
Defined.

(** *** The coach table *)

Lemma coach_table_fold (id : string) (cs : list CoachBrief) :
  ∀ m : gmap string CoachBrief,
  foldl (λ acc c, <[cb_id c := c]> acc) m cs !! id
  = match lastCoachWith id cs with
    | Some c => Some c
    | None => m !! id
    end.
Proof.
  unfold lastCoachWith.
  induction cs as [|c cs IH]; intros m; cbn [foldl List.filter]; [reflexivity|].
  rewrite IH. case_bool_decide as E.
  - destruct (List.filter _ cs) as [|d ds] eqn:F.
    + subst id. apply lookup_insert_eq.
    + rewrite last_cons_cons. destruct (last (d :: ds)) eqn:L; [reflexivity|].
      apply last_None in L. discriminate.
  - destruct (last (List.filter _ cs)); [reflexivity|].
    apply lookup_insert_ne, E.
Qed.

(** X12.  [coachesMap] finds, for an id, the moderator when the id is the
    moderator's, otherwise the last coach of the session with that id, and
    nothing for an id that belongs to nobody.  A coach whose id no other coach
    and not the moderator shares is found under its id. *)
Theorem coach_table_lookup (session : RoundtableSession) (id : string) :
  coachesMap session !! id
  = match moderator session with
    | Some md =>
        if decide (cb_id md = id) then Some md
        else lastCoachWith id (default [] (coaches session))
    | None => lastCoachWith id (default [] (coaches session))
    end
  ∧ ((∀ c, c ∈ default [] (coaches session) → cb_id c ≠ id) →
     (∀ md, moderator session = Some md → cb_id md ≠ id) →
     coachesMap session !! id = None)
  ∧ (∀ c, c ∈ default [] (coaches session) →
       NoDup (map cb_id (default [] (coaches session))) →
       (∀ md, moderator session = Some md → cb_id md ≠ cb_id c) →
       coachesMap session !! cb_id c = Some c).
Proof.
  assert (Hlookup : ∀ i, coachesMap session !! i
    = match moderator session with
      | Some md =>
          if decide (cb_id md = i) then Some md
          else lastCoachWith i (default [] (coaches session))
      | None => lastCoachWith i (default [] (coaches session))
      end).
  { intros i. unfold coachesMap. destruct (moderator session) as [md|].
    - case_decide as E.
      + subst i. apply lookup_insert_eq.
      + rewrite lookup_insert_ne by exact E. rewrite coach_table_fold, lookup_empty.
        destruct (lastCoachWith _ _); reflexivity.
    - rewrite coach_table_fold, lookup_empty.
      destruct (lastCoachWith _ _); reflexivity. }
  assert (Hnone : ∀ i cs, (∀ c, c ∈ cs → cb_id c ≠ i) → lastCoachWith i cs = None).
  { intros i cs H. unfold lastCoachWith.
    destruct (List.filter _ cs) as [|d ds] eqn:F; [reflexivity|].
    assert (Hd : In d (List.filter (λ c, bool_decide (cb_id c = i)) cs))
      by (rewrite F; left; reflexivity).
    apply List.filter_In in Hd as [Hd He]. apply bool_decide_eq_true in He.
    apply list_elem_of_In in Hd. exfalso. exact (H d Hd He). }
  assert (Hsome : ∀ cs c, c ∈ cs → NoDup (map cb_id cs) →
            lastCoachWith (cb_id c) cs = Some c).
  { intros cs c. unfold lastCoachWith.
    induction cs as [|d cs IH]; intros Hin Hnd; [inversion Hin|].
    cbn [map] in Hnd. apply NoDup_cons in Hnd as [Hd Hnd].
    cbn [List.filter]. apply elem_of_cons in Hin as [->|Hin].
    - rewrite bool_decide_eq_true_2 by reflexivity.
      assert (Hn : lastCoachWith (cb_id d) cs = None).
      { apply Hnone. intros c Hc Heq. apply Hd. rewrite <- Heq.
        apply (list_elem_of_fmap_2 cb_id), Hc. }
      unfold lastCoachWith in Hn. rewrite last_cons, Hn. reflexivity.
    - rewrite bool_decide_eq_false_2.
      + apply IH; assumption.
      + intros Heq. apply Hd. rewrite Heq.
        apply (list_elem_of_fmap_2 cb_id), Hin. }
  split; [apply Hlookup|]. split.
  - intros Hc Hm. rewrite Hlookup. destruct (moderator session) as [md|].
    + rewrite decide_False by (apply Hm; reflexivity). apply Hnone, Hc.
    + apply Hnone, Hc.
  - intros c Hin Hnd Hm. rewrite Hlookup. destruct (moderator session) as [md|].
    + rewrite decide_False by (apply Hm; reflexivity). apply Hsome; assumption.
    + apply Hsome; assumption.
Qed.

Lemma coach_table_lookup_witness :
  coachesMap (sampleSession Free) !! "B" = Some coachB
  ∧ coachesMap (sampleSession Free) !! "Z" = None.
Proof.
  pose proof (coach_table_lookup (sampleSession Free) "Z") as (_ & HZ & _).
  pose proof (coach_table_lookup (sampleSession Free) "B") as (_ & _ & HB).
  split.
  - apply (HB coachB).
    + right. left.
    + simpl. apply NoDup_cons. split.
      * intros H. apply list_elem_of_singleton in H. discriminate.
      * apply NoDup_singleton.
    + intros md H. discriminate.
  - apply HZ.
    + intros c Hc. simpl in Hc.
      apply elem_of_cons in Hc as [->|Hc]; [discriminate|].
      apply list_elem_of_singleton in Hc. subst c. discriminate.
    + intros md H. discriminate.
Defined.

(** *** Streams of whole turns *)

Lemma streaming_state_eta st :
  setStreamingResponses (λ _, streamingResponses st) st = st.
Proof. destruct st. reflexivity. Qed.

Lemma withContent_eta r : withContent (OwnEntry r) (s_content r) = r.
Proof. destruct r. reflexivity. Qed.

(** The content events of one participant, from a state in which it has
    an in-flight response. *)
Lemma contents_accumulate p rr id (fs : list string) :
  ∀ (stream : list (Clock * RoundtableEvent)) st r m0,
  map snd stream = map (content id) fs →
  streamingResponses st = <[id := r]> m0 →
  handleStream p rr stream st
  = setStreamingResponses
      (λ _, <[id := withContent (OwnEntry r) (s_content r +:+ concatenation fs)]> m0) st.
Proof.
  induction fs as [|f fs IH]; intros stream st r m0 Hs Hst.
  - apply fmap_nil_inv in Hs. subst stream.
    change (handleStream p rr [] st) with st.
    change (concatenation []) with "".
    rewrite ChatFacts.append_empty_r, withContent_eta, <- Hst.
    symmetry. apply streaming_state_eta.
  - cbn [map] in Hs. apply fmap_cons_inv in Hs as ([clk e] & rest & He & Hrest & ->).
    cbn in He. subst e. symmetry in Hrest. rewrite handleStream_cons.
    set (r1 := withContent (OwnEntry r) (s_content r +:+ f)).
    assert (Hm : member (streamingResponses st) id = OwnEntry r).
    { apply ChatFacts.member_own. rewrite Hst. apply lookup_insert_eq. }
    assert (H1 : handleStreamEvent p rr clk (content id f) st
                 = setStreamingResponses (λ _, <[id := r1]> m0) st).
    { change (handleStreamEvent p rr clk (content id f) st)
        with (setStreamingResponses
                (λ prev, <[id := withContent (member prev id)
                                   (contentOf (member prev id) +:+ f)]> prev) st).
      unfold setStreamingResponses. f_equal. cbn beta.
      rewrite Hm, Hst, insert_insert_eq. unfold r1, contentOf.
      rewrite ChatFacts.str_or_empty. reflexivity. }
    rewrite H1.
    rewrite (IH rest (setStreamingResponses (λ _, <[id := r1]> m0) st) r1 m0
               Hrest eq_refl).
    unfold setStreamingResponses. cbn. f_equal. f_equal.
    unfold r1. cbn. rewrite ChatFacts.append_assoc. reflexivity.
Qed.

(** One whole turn. *)
Lemma turn_recorded p rr (t : Turn) (stream : list (Clock * RoundtableEvent)) st :
  map snd stream = turnEvents t →
  ∃ m, messages (handleStream p rr stream st) = messages st ++ [m]
       ∧ m_content m = Some (concatenation (turn_fragments t))
       ∧ m_coach_id m = Some (turn_id t)
       ∧ m_message_type m = turnMessageType t
       ∧ streamingResponses (handleStream p rr stream st)
         = delete (turn_id t) (streamingResponses st)
       ∧ currentCoachId (handleStream p rr stream st) = None.
Proof.
  unfold turnEvents. intros Hs.
  apply fmap_cons_inv in Hs as ([clkS eS] & rest & HeS & Hrest & ->).
  symmetry in Hrest.
  apply fmap_app_inv in Hrest as (mid & fin & Hmid & Hfin & ->).
  symmetry in Hmid, Hfin.
  apply fmap_cons_inv in Hfin as ([clkE eE] & nil & HeE & Hnil & ->).
  symmetry in Hnil. apply fmap_nil_inv in Hnil. subst nil. cbn in HeS, HeE.
  symmetry in HeS, HeE.
  rewrite handleStream_cons, handleStream_app.
  set (id := turn_id t) in *.
  set (mt := match turn_type t with Some mt => mt | None => "response" end).
  set (r0 := startResponse id (turn_name t) (turn_avatar t) mt).
  set (st1 := handleStreamEvent p rr clkS eS st).
  assert (H1 : streamingResponses st1 = <[id := r0]> (streamingResponses st)
               ∧ messages st1 = messages st).
  { unfold st1, r0, mt. subst eS. destruct (turn_type t); split; reflexivity. }
  destruct H1 as [H1 H1m].
  rewrite (contents_accumulate p rr id (turn_fragments t) mid st1 r0
             (streamingResponses st) Hmid H1).
  set (r1 := withContent (OwnEntry r0) (s_content r0 +:+ concatenation (turn_fragments t))).
  set (st2 := setStreamingResponses (λ _, <[id := r1]> (streamingResponses st)) st1).
  assert (H2s : streamingResponses st2 = <[id := r1]> (streamingResponses st))
    by reflexivity.
  assert (H2 : streamingResponses st2 !! id = Some r1)
    by (rewrite H2s; apply lookup_insert_eq).
  assert (H2m : messages st2 = messages st) by exact H1m.
  assert (Hr1 : s_content r1 = concatenation (turn_fragments t)
                ∧ s_message_type r1 = Some mt) by (split; reflexivity).
  destruct Hr1 as [Hr1c Hr1t].
  clearbody st2 r1. subst eE. unfold turnMessageType. subst mt.
  destruct (turn_type t) as [ty|] eqn:Ety; unfold handleStream;
    cbn [foldl fst snd handleStreamEvent]; rewrite (ChatFacts.member_own _ _ _ H2);
    cbn [messages setMessages setCurrentCoachId setStreamingResponses
         streamingResponses currentCoachId].
  - exists (moderatorMessage p rr clkE id ty (OwnEntry r1)).
    split; [rewrite H2m; reflexivity|].
    split; [cbn [moderatorMessage m_content memberContent]; rewrite Hr1c; reflexivity|].
    split; [reflexivity|]. split; [reflexivity|].
    split; [rewrite H2s; apply delete_insert_eq | reflexivity].
  - exists (coachMessage p rr clkE id (OwnEntry r1)).
    split; [rewrite H2m; reflexivity|].
    split; [cbn [coachMessage m_content memberContent]; rewrite Hr1c; reflexivity|].
    split; [reflexivity|].
    split; [cbn [coachMessage m_message_type memberMessageType]; rewrite Hr1t;
            reflexivity|].
    split; [rewrite H2s; apply delete_insert_eq | reflexivity].
Qed.

Lemma marker_keeps p rr clk e st :
  is_marker e = true →
  messages (handleStreamEvent p rr clk e st) = messages st
  ∧ streamingResponses (handleStreamEvent p rr clk e st) = streamingResponses st
  ∧ currentCoachId (handleStreamEvent p rr clk e st) = currentCoachId st.
Proof.
  destruct e; try discriminate; intros _; repeat split.
Qed.

(** X13.  A stream of whole turns, one after the other, records one message per
    turn, in stream order: its content is the concatenation of the turn's
    fragments, its type "response" for a coach and the moderator's message
    type otherwise.  Each turn's streaming entry is removed again, so from an
    empty streaming map the stream ends with an empty one, and after the last
    turn no coach is highlighted. *)
Theorem whole_turns_are_recorded_in_order (p : Props) (renderRound : Z)
    (stream : list (Clock * RoundtableEvent)) (ts : list Turn) (st : State) :
  turnStream (map snd stream) ts →
  let st' := handleStream p renderRound stream st in
  (∃ new, messages st' = messages st ++ new
          ∧ map m_content new = map (λ t, Some (concatenation (turn_fragments t))) ts
          ∧ map m_coach_id new = map (λ t, Some (turn_id t)) ts
          ∧ map m_message_type new = map turnMessageType ts)
  ∧ streamingResponses st'
    = foldl (λ m t, delete (turn_id t) m) (streamingResponses st) ts
  ∧ (streamingResponses st = ∅ → streamingResponses st' = ∅)
  ∧ currentCoachId st' = match ts with [] => currentCoachId st | _ => None end.
Proof.
  intros Hts. cbn zeta.
  assert (Hmain :
    (∃ new, messages (handleStream p renderRound stream st) = messages st ++ new
          ∧ map m_content new = map (λ t, Some (concatenation (turn_fragments t))) ts
          ∧ map m_coach_id new = map (λ t, Some (turn_id t)) ts
          ∧ map m_message_type new = map turnMessageType ts)
    ∧ streamingResponses (handleStream p renderRound stream st)
      = foldl (λ m t, delete (turn_id t) m) (streamingResponses st) ts
    ∧ currentCoachId (handleStream p renderRound stream st)
      = match ts with [] => currentCoachId st | _ => None end).
  { remember (map snd stream) as evs eqn:Hevs. revert stream st Hevs.
    induction Hts as [|e evs ts Hmark _ IH|t evs ts _ IH]; intros stream st Hevs.
    - symmetry in Hevs. apply fmap_nil_inv in Hevs. subst stream.
      split; [exists []; rewrite app_nil_r; repeat split|]. split; reflexivity.
    - symmetry in Hevs.
      apply fmap_cons_inv in Hevs as ([clk e'] & rest & He & Hrest & ->).
      cbn in He. subst e'. rewrite handleStream_cons.
      destruct (marker_keeps p renderRound clk e st Hmark) as (Hm & Hs & Hc).
      destruct (IH rest (handleStreamEvent p renderRound clk e st) Hrest)
        as ((new & Hnew & Hrest') & Hstr & Hcur).
      rewrite Hm in Hnew. rewrite Hs in Hstr. rewrite Hc in Hcur.
      split; [exists new; split; [exact Hnew | exact Hrest']|].
      split; [exact Hstr | exact Hcur].
    - symmetry in Hevs.
      apply fmap_app_inv in Hevs as (s1 & s2 & H1 & H2 & ->).
      rewrite handleStream_app.
      destruct (turn_recorded p renderRound t s1 st (eq_sym H1))
        as (m & Hm & Hc & Hid & Hty & Hstr1 & Hcur1).
      destruct (IH s2 (handleStream p renderRound s1 st) H2)
        as ((new & Hnew & Hc' & Hid' & Hty') & Hstr & Hcur).
      split; [|split].
      + exists (m :: new). rewrite Hnew, Hm, <- app_assoc.
        split; [reflexivity|]. cbn [map].
        rewrite Hc, Hid, Hty, Hc', Hid', Hty'. repeat split.
      + rewrite Hstr, Hstr1. reflexivity.
      + rewrite Hcur, Hcur1. destruct ts; reflexivity. }
  destruct Hmain as (Hmsg & Hstr & Hcur).
  split; [exact Hmsg|]. split; [exact Hstr|]. split; [|exact Hcur].
  intros Hempty. rewrite Hstr, Hempty. clear.
  induction ts as [|t ts IH]; cbn [foldl]; [reflexivity|].
  rewrite delete_empty. exact IH.
Qed.

Lemma whole_turns_are_recorded_in_order_witness :
  let tA := {| turn_id := "A"; turn_name := "Coach A"; turn_avatar := None;
               turn_type := None; turn_fragments := ["Hel"; "lo"] |} in
  let tM := {| turn_id := "M"; turn_name := "Mod"; turn_avatar := None;
               turn_type := Some "summary"; turn_fragments := ["Done"] |} in
  let stream := map (pair sampleClock)
                  (round_start 1 :: turnEvents tA ++ round_end 1 :: turnEvents tM ++ [done]) in
  streamingResponses (handleStream (sampleProps Moderated) 0 stream (sampleState false))
  = ∅.
Proof.
  intros tA tM stream.
  refine (proj1 (proj2 (proj2 (whole_turns_are_recorded_in_order
            (sampleProps Moderated) 0 stream [tA; tM] (sampleState false) _))) _).
  - subst stream. rewrite <- list_fmap_compose. rewrite list_fmap_id.
    apply turnStream_marker; [reflexivity|].
    apply turnStream_turn.
    apply turnStream_marker; [reflexivity|].
    apply turnStream_turn.
    apply turnStream_marker; [reflexivity|]. apply turnStream_nil.
  - reflexivity.
Defined.

(** *** A fresh component *)

(** X14.  Right after mounting, and after the effects of a session change, the
    override is off and its cells hold the session's own settings: a request
    carries the session's configuration whether or not the user switches the
    override on without editing it.  The request asks for two rounds with the
    converging style in a free session, and for one round and no style in a
    moderated one. *)
Theorem fresh_component_request (p : Props) (st : State)
    (userContent : string) (apiAttachments : list ApiMessageAttachment) :
  fresh p st →
  overrideEnabled st = false
  ∧ overrideBundle st = sessionBundle p
  ∧ requestConfig (chatRequest p st userContent apiAttachments)
    = bundleConfig (sessionBundle p)
  ∧ requestConfig (chatRequest p (toggleOverride st) userContent apiAttachments)
    = bundleConfig (sessionBundle p)
  ∧ rq_max_rounds (chatRequest p st userContent apiAttachments)
    = match discussion_mode (session p) with Free => 2 | Moderated => 1 end
  ∧ rq_debate_style (chatRequest p st userContent apiAttachments)
    = match discussion_mode (session p) with
      | Free => Some Converge
      | Moderated => None
      end.
Proof.
  intros Hfresh.
  assert (H : overrideEnabled st = false ∧ overrideBundle st = sessionBundle p
              ∧ maxRounds st = (if is_free (discussion_mode (session p)) then 2 else 1)
              ∧ debateStyle st = Converge).
  { destruct Hfresh as [[ms ->]|[before ->]]; repeat split. }
  destruct H as (Hoff & Hb & Hr & Hd).
  split; [exact Hoff|]. split; [exact Hb|].
  split; [rewrite ChatFacts.chatRequest_config; unfold configChoice;
          rewrite Hoff; reflexivity|].
  split; [rewrite ChatFacts.chatRequest_config; unfold configChoice, toggleOverride;
          cbn; rewrite Hoff; cbn; f_equal; exact Hb|].
  unfold chatRequest. cbn. rewrite Hr, Hd.
  destruct (discussion_mode (session p)); split; reflexivity.
Qed.

Lemma fresh_component_request_witness :
  requestConfig (chatRequest (sampleProps Free)
                   (toggleOverride (sessionEffects (sampleProps Free) (sampleState true)))
                   "hi" [])
  = bundleConfig (sessionBundle (sampleProps Free)).
Proof.
  refine (proj1 (proj2 (proj2 (proj2 (fresh_component_request (sampleProps Free)
            (sessionEffects (sampleProps Free) (sampleState true)) "hi" [] _))))).
  right. exists (sampleState true). reflexivity.
Defined.

(** *** Invariants of the component *)

Lemma step_maxRounds p st st' :
  step p st st' →
  maxRounds st' = maxRounds st
  ∨ (discussion_mode (session p) = Free ∧ maxRounds st' ∈ roundChoices).
Proof.
  intros H. destruct H; try (left; reflexivity).
  - right. split; assumption.
  - left. pose proof (handleStreamEvent_untouched p renderRound clk e st) as Hu.
    now inversion Hu.
  - left. destruct fin; reflexivity.
Qed.

Lemma step_idle p st st' :
  step p st st' →
  (isLoading st = false → streamingResponses st = ∅ ∧ currentCoachId st = None) →
  isLoading st' = false → streamingResponses st' = ∅ ∧ currentCoachId st' = None.
Proof.
  intros H Hinv. destruct H; cbn; try exact Hinv; try discriminate.
  - pose proof (handleStreamEvent_untouched p renderRound clk e st) as Hu.
    intros Hl. exfalso. inversion Hu. congruence.
  - intros Hl. exfalso. destruct fin; cbn in Hl; congruence.
  - intros _. split; reflexivity.
Qed.

(** X15.  Whatever the user does and whatever the streams carry, from a fresh
    component on every request asks for 1, 2 or 3 rounds, and for exactly one
    round when the session is moderated. *)
Theorem requested_rounds_stay_in_range (p : Props) (st0 st : State)
    (userContent : string) (apiAttachments : list ApiMessageAttachment) :
  fresh p st0 →
  steps p st0 st →
  rq_max_rounds (chatRequest p st userContent apiAttachments) ∈ roundChoices
  ∧ (discussion_mode (session p) = Moderated →
     rq_max_rounds (chatRequest p st userContent apiAttachments) = 1).
Proof.
  intros Hfresh Hsteps.
  change (rq_max_rounds (chatRequest p st userContent apiAttachments))
    with (maxRounds st).
  induction Hsteps as [st|st1 st2 st3 _ IH Hstep].
  - assert (H : maxRounds st = (if is_free (discussion_mode (session p)) then 2 else 1))
      by (destruct Hfresh as [[ms ->]|[before ->]]; reflexivity).
    rewrite H. unfold roundChoices.
    destruct (discussion_mode (session p)); cbn; split;
      try (intros; reflexivity); try discriminate.
    + right. left.
    + left.
  - destruct (IH Hfresh) as [Hin Hmod].
    destruct (step_maxRounds p st2 st3 Hstep) as [->|[Hfree Hin']].
    + split; assumption.
    + split; [exact Hin'|]. intros Hm. congruence.
Qed.

Lemma requested_rounds_stay_in_range_witness :
  let p := sampleProps Free in
  let st := setMaxRounds 3 (initialState p []) in
  rq_max_rounds (chatRequest p st "hi" []) ∈ roundChoices.
Proof.
  intros p st.
  refine (proj1 (requested_rounds_stay_in_range p (initialState p []) st "hi" [] _ _)).
  - left. exists []. reflexivity.
  - eapply steps_step; [apply steps_refl|].
    apply step_rounds; [reflexivity | reflexivity|].
    right. right. left.
Defined.

(** X16.  Outside an exchange nothing is streaming: in every state the
    component reaches after mounting in which it is not loading, the
    streaming map is empty, no coach is highlighted and the spinner is not
    shown. *)
Theorem idle_component_has_no_streaming_card (p : Props)
    (initialMessages : list RoundtableMessage) (st : State) :
  steps p (initialState p initialMessages) st →
  isLoading st = false →
  streamingResponses st = ∅ ∧ currentCoachId st = None ∧ showsSpinner st = false.
Proof.
  intros Hsteps Hl.
  assert (H : isLoading st = false →
              streamingResponses st = ∅ ∧ currentCoachId st = None).
  { clear Hl. remember (initialState p initialMessages) as st0 eqn:E.
    induction Hsteps as [st|st1 st2 st3 _ IH Hstep].
    - intros _. subst st. split; reflexivity.
    - apply (step_idle p st2 st3 Hstep), IH, E. }
  destruct (H Hl) as [Hs Hc]. split; [exact Hs|]. split; [exact Hc|].
  unfold showsSpinner. rewrite Hl. reflexivity.
Qed.

Lemma idle_component_has_no_streaming_card_witness :
  let p := sampleProps Free in
  let st1 := beginExchange p sampleClock "hi" [] (initialState p []) in
  let st2 := handleStreamEvent p 0 sampleClock (coach_start "A" "Coach A" None) st1 in
  streamingResponses (finally st2) = ∅.
Proof.
  intros p st1 st2.
  refine (proj1 (idle_component_has_no_streaming_card p [] (finally st2) _ _)).
  - eapply steps_step; [eapply steps_step; [eapply steps_step; [apply steps_refl|]|]|].
    + apply (step_send_begin p (initialState p []) sampleClock "hi" []);
        vm_compute; reflexivity.
    + apply (step_event p st1 0 sampleClock (coach_start "A" "Coach A" None)).
      reflexivity.
    + apply step_finally. reflexivity.
  - reflexivity.
Defined.

(** *** Attachments *)

Lemma omap_step {A B} (f : A → option B) (a : A) (l : list A) :
  omap f (a :: l)
  = match f a with Some b => b :: omap f l | None => omap f l end.
Proof. reflexivity. Qed.

Lemma omap_length_le {A B} (f : A → option B) (l : list A) :
  (length (omap f l) ≤ length l)%nat.
Proof.
  induction l as [|a l IH]; [reflexivity|].
  rewrite omap_step. destruct (f a); cbn [length]; lia.
Qed.

Section AttachmentFacts.

Variable isImageForVision : string → bool.
Variable canExtractText : string → bool.

Lemma processAttachments_fold items :
  ∀ acc : list ChatAttachment * list ApiMessageAttachment,
  foldl (λ acc item,
           match processOne isImageForVision canExtractText item with
           | Some ca => (acc.1 ++ [ca.1], acc.2 ++ [ca.2])
           | None => acc
           end) acc items
  = (acc.1 ++ map fst (omap (processOne isImageForVision canExtractText) items),
     acc.2 ++ map snd (omap (processOne isImageForVision canExtractText) items)).
Proof.
  induction items as [|item items IH]; intros [u a]; cbn [foldl].
  - cbn. rewrite !app_nil_r. reflexivity.
  - rewrite IH. rewrite (omap_step _ item items).
    destruct (processOne isImageForVision canExtractText item) as [[c b]|];
      cbn [fst snd map]; [|reflexivity].
    rewrite <- !app_assoc. reflexivity.
Qed.

Lemma processAttachments_omap items :
  processAttachments isImageForVision canExtractText items
  = (map fst (omap (processOne isImageForVision canExtractText) items),
     map snd (omap (processOne isImageForVision canExtractText) items)).
Proof. unfold processAttachments. rewrite processAttachments_fold. reflexivity. Qed.

Lemma processOne_paired item c a :
  processOne isImageForVision canExtractText item = Some (c, a) → paired c a.
Proof.
  unfold processOne. destruct (uploadFile _) as [result|]; [|discriminate].
  destruct (isImageForVision _); [destruct (base64_read _); [|discriminate]|];
    intros [= <- <-]; repeat split.
Qed.

Lemma processOne_kept item :
  is_Some (processOne isImageForVision canExtractText item)
  ↔ kept isImageForVision item = true.
Proof.
  unfold processOne, kept, uploadFile.
  destruct (upload_fetch item.2) as [response|]; [|split; [intros [x H]|]; discriminate].
  destruct (ok response); cbn [andb]; [|split; [intros [x H]|]; discriminate].
  destruct (json response) as [body|]; cbn;
    [|split; [intros [x H]|]; discriminate].
  destruct (isImageForVision (pa_type item.1)); cbn.
  - destruct (base64_read item.2); cbn; split; eauto; try discriminate.
    intros [x H]. discriminate.
  - split; eauto.
Qed.

Lemma processAttachments_nil_iff items :
  (processAttachments isImageForVision canExtractText items).1 = []
  ↔ (processAttachments isImageForVision canExtractText items).2 = [].
Proof.
  rewrite processAttachments_omap. cbn [fst snd].
  destruct (omap (processOne isImageForVision canExtractText) items);
    cbn; split; intros H; first [reflexivity | discriminate].
Qed.

(** X17.  The two lists [processAttachments] returns go together: they have the
    same length, at most the number of attachments, and the records at the
    same position agree on id, type, file name, size, MIME type, URL,
    extracted text and transcription. *)
Theorem attachments_stay_paired (items : list (PendingAttachment * Outcomes)) :
  let r := processAttachments isImageForVision canExtractText items in
  length r.1 = length r.2
  ∧ (length r.1 ≤ length items)%nat
  ∧ Forall2 paired r.1 r.2
  ∧ (r.1 = [] ↔ r.2 = []).
Proof.
  cbn zeta. rewrite processAttachments_omap. cbn [fst snd].
  set (l := omap (processOne isImageForVision canExtractText) items).
  assert (Hl : ∀ c a, (c, a) ∈ l → paired c a).
  { intros c a Hin. apply list_elem_of_omap in Hin as (item & _ & Hitem).
    apply (processOne_paired item), Hitem. }
  split; [rewrite !length_map; reflexivity|].
  split; [rewrite length_map; apply omap_length_le|].
  split.
  - clearbody l. induction l as [|[c a] l IH]; cbn [map fst snd]; constructor.
    + apply Hl. left.
    + apply IH. intros c' a' Hin. apply Hl. now right.
  - destruct l; cbn; split; intros H; first [reflexivity | discriminate].
Qed.

(** X18.  An attachment is sent exactly when its upload answered with a parsed
    body and, for an image meant for a vision model, the file could be read.
    Whether text extraction or transcription succeed never decides it, and
    the attachments kept stay in the order they were given. *)
Theorem attachment_kept_iff_uploaded (items : list (PendingAttachment * Outcomes)) :
  (∀ item, is_Some (processOne isImageForVision canExtractText item)
           ↔ kept isImageForVision item = true)
  ∧ (processAttachments isImageForVision canExtractText items).1
    = omap (λ item, fst <$> processOne isImageForVision canExtractText item) items
  ∧ length (processAttachments isImageForVision canExtractText items).1
    = length (List.filter (kept isImageForVision) items)
  ∧ (Forall (λ item, kept isImageForVision item = true) items →
     length (processAttachments isImageForVision canExtractText items).1
     = length items).
Proof.
  assert (Hlen : length (processAttachments isImageForVision canExtractText items).1
                 = length (List.filter (kept isImageForVision) items)).
  { rewrite processAttachments_omap. cbn [fst]. rewrite length_map.
    induction items as [|item items IH]; [reflexivity|].
    rewrite omap_step. cbn [List.filter].
    pose proof (processOne_kept item) as Hk.
    destruct (processOne isImageForVision canExtractText item) as [ca|].
    - rewrite (proj1 Hk) by eauto. cbn [length]. rewrite IH. reflexivity.
    - destruct (kept isImageForVision item); [|exact IH].
      destruct (proj2 Hk eq_refl) as [x Hx]. discriminate. }
  split; [apply processOne_kept|]. split; [|split; [exact Hlen|]].
  - clear Hlen. rewrite processAttachments_omap. cbn [fst].
    induction items as [|item items IH]; [reflexivity|].
    rewrite !omap_step.
    destruct (processOne isImageForVision canExtractText item) as [[c a]|];
      cbn [fmap option_fmap option_map map fst]; rewrite IH; reflexivity.
  - intros Hall. rewrite Hlen. clear Hlen. f_equal.
    induction Hall as [|item items Hk _ IH]; [reflexivity|].
    cbn [List.filter]. rewrite Hk, IH. reflexivity.
Qed.

(** X19.  What a record carries depends on the kind of attachment: image data
    only for an image meant for a vision model, extracted text only for a type
    text can be extracted from and an extraction that reported success, a
    transcription only for audio, and a thumbnail only when the server
    classified the upload as an image. *)
Theorem attachment_fields_follow_kind (att : PendingAttachment) (o : Outcomes)
    (c : ChatAttachment) (a : ApiMessageAttachment) :
  processOne isImageForVision canExtractText (att, o) = Some (c, a) →
  aa_base64Data a = (if isImageForVision (pa_type att) then base64_read o else None)
  ∧ (is_Some (ca_extractedText c) →
     canExtractText (pa_type att) = true
     ∧ ∃ response data, extract_fetch o = Some response ∧ ok response = true
         ∧ json response = Some data ∧ eb_success data = true
         ∧ eb_text data = ca_extractedText c)
  ∧ (is_Some (ca_transcription c) →
     pa_type att = "audio"
     ∧ ∃ response data, transcribe_fetch o = Some response ∧ ok response = true
         ∧ json response = Some data ∧ tb_text data = ca_transcription c)
  ∧ (is_Some (ca_thumbnailUrl c) →
     ca_thumbnailUrl c = pa_previewUrl att
     ∧ ∃ response body, upload_fetch o = Some response ∧ json response = Some body
         ∧ up_type body = "image").
Proof.
  unfold processOne. cbn [fst snd].
  destruct (uploadFile (upload_fetch o)) as [result|] eqn:Eu; [|discriminate].
  assert (Hup : ∃ response, upload_fetch o = Some response
                  ∧ json response = Some result).
  { unfold uploadFile in Eu. destruct (upload_fetch o) as [response|]; [|discriminate].
    destruct (ok response); [|discriminate].
    destruct (json response) as [body|] eqn:Ej; [|discriminate].
    inversion Eu; subst. eauto. }
  assert (Hgoal : ∀ b64,
    (b64 = if isImageForVision (pa_type att) then base64_read o else None) →
    Some ({| ca_id := up_id result; ca_type := pa_type att;
             ca_fileName := up_fileName result; ca_fileSize := up_fileSize result;
             ca_mimeType := up_mimeType result; ca_url := up_url result;
             ca_thumbnailUrl :=
               if decide (up_type result = "image") then pa_previewUrl att else None;
             ca_extractedText :=
               (if canExtractText (pa_type att) then extractText (extract_fetch o)
                else None) ≫= text;
             ca_transcription :=
               (if decide (pa_type att = "audio")
                then transcribeAudio (transcribe_fetch o) else None) ≫= text |},
          {| aa_id := up_id result; aa_type := pa_type att;
             aa_fileName := up_fileName result; aa_fileSize := up_fileSize result;
             aa_mimeType := up_mimeType result; aa_url := up_url result;
             aa_base64Data := b64;
             aa_extractedText :=
               (if canExtractText (pa_type att) then extractText (extract_fetch o)
                else None) ≫= text;
             aa_transcription :=
               (if decide (pa_type att = "audio")
                then transcribeAudio (transcribe_fetch o) else None) ≫= text |})
    = Some (c, a) →
    aa_base64Data a = (if isImageForVision (pa_type att) then base64_read o else None)
    ∧ (is_Some (ca_extractedText c) →
       canExtractText (pa_type att) = true
       ∧ ∃ response data, extract_fetch o = Some response ∧ ok response = true
           ∧ json response = Some data ∧ eb_success data = true
           ∧ eb_text data = ca_extractedText c)
    ∧ (is_Some (ca_transcription c) →
       pa_type att = "audio"
       ∧ ∃ response data, transcribe_fetch o = Some response ∧ ok response = true
           ∧ json response = Some data ∧ tb_text data = ca_transcription c)
    ∧ (is_Some (ca_thumbnailUrl c) →
       ca_thumbnailUrl c = pa_previewUrl att
       ∧ ∃ response body, upload_fetch o = Some response ∧ json response = Some body
           ∧ up_type body = "image")).
  { intros b64 Hb H. inversion H; subst c a; clear H. cbn.
    split; [exact Hb|]. split; [|split].
    - destruct (canExtractText (pa_type att)); [|intros [x Hx]; discriminate].
      unfold extractText. destruct (extract_fetch o) as [response|];
        [|intros [x Hx]; discriminate].
      destruct (ok response) eqn:Eok; [|intros [x Hx]; discriminate].
      destruct (json response) as [data|] eqn:Ej; [|intros [x Hx]; discriminate].
      destruct (eb_success data) eqn:Es; [|intros [x Hx]; discriminate].
      intros _. split; [reflexivity|]. exists response, data. repeat split; assumption.
    - destruct (decide (pa_type att = "audio")) as [Ea|]; [|intros [x Hx]; discriminate].
      unfold transcribeAudio. destruct (transcribe_fetch o) as [response|];
        [|intros [x Hx]; discriminate].
      destruct (ok response) eqn:Eok; [|intros [x Hx]; discriminate].
      destruct (json response) as [data|] eqn:Ej; [|intros [x Hx]; discriminate].
      intros _. split; [exact Ea|]. exists response, data. repeat split; assumption.
    - destruct (decide (up_type result = "image")) as [Ei|]; [|intros [x Hx]; discriminate].
      intros _. split; [reflexivity|].
      destruct Hup as (response & H1 & H2). exists response, result. auto. }
  destruct (isImageForVision (pa_type att)).
  - destruct (base64_read o) as [data|]; [|discriminate]. apply Hgoal. reflexivity.
  - apply Hgoal. reflexivity.
Qed.

(** X20.  The user's message and the request carry the attachments that were
    processed, and they agree on whether there are any: both carry none when
    no attachment was given or none could be uploaded. *)
Theorem message_and_request_attachments_agree (p : Props) (clk : Clock)
    (value : string) (attachments : option (list (PendingAttachment * Outcomes)))
    (stream : list (Clock * RoundtableEvent)) (fin : StreamEnd) (st : State) :
  starts_exchange p st value = true →
  let r := processAttachments isImageForVision canExtractText
             (default [] attachments) in
  let st' := handleSendAttachments isImageForVision canExtractText p clk value
               attachments stream fin st in
  ∃ request userMsg,
    requestSentAttachments isImageForVision canExtractText p value attachments st
    = Some request
    ∧ messages st' !! length (messages st) = Some userMsg
    ∧ m_role userMsg = User
    ∧ rq_attachments request = (match r.2 with [] => None | _ => Some r.2 end)
    ∧ m_attachments userMsg = (match r.1 with [] => None | _ => Some r.1 end)
    ∧ (is_Some (rq_attachments request) ↔ is_Some (m_attachments userMsg)).
Proof.
  intros Hstart r st'.
  assert (Hproc : match attachments with
                  | Some (item :: items) =>
                      processAttachments isImageForVision canExtractText (item :: items)
                  | _ => ([], [])
                  end = r).
  { subst r. destruct attachments as [[|item items]|]; reflexivity. }
  unfold requestSentAttachments, requestSent. subst st'.
  unfold handleSendAttachments. rewrite Hproc, Hstart.
  destruct (handleSend_messages p clk value r stream fin st Hstart)
    as (new & Hm & _).
  exists (chatRequest p st (trim value) r.2), (userMessage p clk (trim value) r.1).
  split; [reflexivity|]. split.
  - rewrite Hm. rewrite lookup_app_r by lia.
    rewrite Nat.sub_diag. reflexivity.
  - split; [reflexivity|]. split; [reflexivity|]. split; [reflexivity|].
    cbn [rq_attachments chatRequest m_attachments userMessage].
    pose proof (processAttachments_nil_iff (default [] attachments)) as Hnil.
    fold r in Hnil.
    destruct (r.1) as [|c cs] eqn:E1; destruct (r.2) as [|a as'] eqn:E2.
    + split; intros [x Hx]; discriminate.
    + destruct Hnil as [Hnil _]. specialize (Hnil eq_refl). discriminate.
    + destruct Hnil as [_ Hnil]. specialize (Hnil eq_refl). discriminate.
    + split; eauto.
Qed.

End AttachmentFacts.

Lemma message_and_request_attachments_agree_witness :
  let p := sampleProps Free in
  let failed := ({| pa_file := {| file_name := "a.png" |}; pa_type := "image";
                    pa_previewUrl := None |},
                 {| upload_fetch := Some {| ok := false; detail := None; json := None |};
                    base64_read := None; extract_fetch := None;
                    transcribe_fetch := None |}) in
  ∃ request,
    requestSentAttachments (λ _, true) (λ _, false) p "hi" (Some [failed])
      (sampleState false) = Some request
    ∧ rq_attachments request = None.
Proof.
  intros p failed.
  destruct (message_and_request_attachments_agree (λ _, true) (λ _, false) p
              sampleClock "hi" (Some [failed]) [] Completed (sampleState false))
    as (request & userMsg & Hr & _ & _ & Ha & _).
  - vm_compute. reflexivity.
  - exists request. split; [exact Hr | exact Ha].
Defined.

Lemma attachment_fields_follow_kind_witness :
  let att := {| pa_file := {| file_name := "a.txt" |}; pa_type := "document";
                pa_previewUrl := None |} in
  let up := {| up_id := "f1"; up_fileName := "a.txt"; up_fileSize := 3;
               up_mimeType := "text/plain"; up_type := "document";
               up_url := "/files/f1"; up_thumbnailBase64 := None |} in
  let o := {| upload_fetch := Some {| ok := true; detail := None; json := Some up |};
              base64_read := Some "data:..."; extract_fetch := None;
              transcribe_fetch := None |} in
  ∃ c a, processOne (λ _, false) (λ _, true) (att, o) = Some (c, a)
         ∧ aa_base64Data a = None.
Proof.
  intros att up o. eexists. eexists. split; [vm_compute; reflexivity|].
  refine (proj1 (attachment_fields_follow_kind (λ _, false) (λ _, true) att o _ _ _)).
  vm_compute. reflexivity.
Defined.

(** *** Round indicators *)

Lemma cellOfRound_cell (n : Z) :
  match n with 0 => ZeroValue | _ => RoundIndicator n end = cellOfRound n.
Proof. unfold cellOfRound. destruct n; reflexivity. Qed.

Lemma indicatorCell_first msgs m : indicatorCell msgs 0 m = cellAfter None m.
Proof.
  unfold indicatorCell, showRoundIndicator, cellAfter.
  destruct (m_turn_number m) as [n|]; [|reflexivity].
  apply cellOfRound_cell.
Qed.

Lemma indicatorCell_next msgs i m prev :
  msgs !! i = Some prev →
  indicatorCell msgs (S i) m = cellAfter (Some (m_turn_number prev)) m.
Proof.
  intros Hprev. unfold indicatorCell, showRoundIndicator, cellAfter.
  rewrite Hprev. cbn [mbind option_bind].
  destruct (m_turn_number m) as [n|]; [|reflexivity].
  case_bool_decide as E; cbn [negb].
  - rewrite decide_True by exact E. reflexivity.
  - rewrite decide_False by exact E. apply cellOfRound_cell.
Qed.

Lemma cells_along pre :
  ∀ l, imap (λ n, indicatorCell (pre ++ l) (length pre + n)) l
       = cellsAfter (turnBefore None pre) l.
Proof.
  intros l. revert pre. induction l as [|m l IH]; intros pre; [reflexivity|].
  rewrite imap_cons. cbn [cellsAfter]. f_equal.
  - rewrite Nat.add_0_r. unfold turnBefore.
    destruct (last pre) as [prev|] eqn:L.
    + apply last_Some in L as [pre' ->]. rewrite length_app. cbn [length].
      replace (length pre' + 1)%nat with (S (length pre')) by lia.
      apply indicatorCell_next.
      rewrite <- !app_assoc. rewrite lookup_app_r by lia.
      rewrite Nat.sub_diag. reflexivity.
    + apply last_None in L. subst pre. apply indicatorCell_first.
  - specialize (IH (pre ++ [m])).
    assert (Ht : turnBefore None (pre ++ [m]) = Some (m_turn_number m)).
    { unfold turnBefore. rewrite last_snoc. reflexivity. }
    rewrite Ht in IH. rewrite <- IH.
    apply imap_ext. intros i x _. cbn.
    rewrite <- app_assoc, length_app. cbn [length app].
    f_equal. lia.
Qed.

Lemma indicatorCells_along msgs : indicatorCells msgs = cellsAfter None msgs.
Proof. exact (cells_along [] msgs). Qed.

Lemma cellsAfter_app prev l1 l2 :
  cellsAfter prev (l1 ++ l2)
  = cellsAfter prev l1 ++ cellsAfter (turnBefore prev l1) l2.
Proof.
  revert prev. induction l1 as [|m l1 IH]; intros prev; [reflexivity|].
  cbn [app cellsAfter]. rewrite IH. f_equal. f_equal.
  unfold turnBefore. destruct l1 as [|m' l1]; [reflexivity|].
  rewrite last_cons_cons. destruct (last (m' :: l1)) eqn:L; [reflexivity|].
  apply last_None in L. discriminate.
Qed.

Lemma cellsAfter_same_round r l :
  Forall (λ m, m_turn_number m = Some r) l →
  cellsAfter (Some (Some r)) l = map (λ _, NoIndicator) l.
Proof.
  induction 1 as [|m l Hm _ IH]; [reflexivity|].
  cbn [cellsAfter map]. rewrite Hm, IH. unfold cellAfter. rewrite Hm.
  rewrite decide_True by reflexivity. reflexivity.
Qed.

(** Two messages in a row with the same round number never both open a
    round, and a message without a round number never does. *)
Lemma indicator_not_repeated msgs i prev m :
  msgs !! i = Some prev →
  m_turn_number m = None ∨ m_turn_number prev = m_turn_number m →
  indicatorCell msgs (S i) m = NoIndicator.
Proof.
  intros Hprev H. rewrite (indicatorCell_next _ _ _ _ Hprev). unfold cellAfter.
  destruct (m_turn_number m) as [n|]; [|reflexivity].
  destruct H as [H|H]; [discriminate|].
  rewrite decide_True by exact H. reflexivity.
Qed.

(** X21.  The messages of one exchange open at most one round in the message
    area: the user's message and the error message show no indicator, the
    first message recorded from the stream shows the indicator of the round
    counter as it was when the message was sent (the number 0 instead of an
    indicator when the counter was 0), and the later ones show none, however
    many rounds the stream went through. *)
Theorem exchange_shows_one_round_indicator (p : Props) (clk : Clock)
    (value : string) (processed : list ChatAttachment * list ApiMessageAttachment)
    (stream : list (Clock * RoundtableEvent)) (fin : StreamEnd) (st : State) :
  starts_exchange p st value = true →
  let st' := handleSend p clk value processed stream fin st in
  ∃ new : list RoundtableMessage,
    length (messages st')
    = (length (messages st) + 1 + length new
       + match fin with Completed => 0 | Thrown _ _ => 1 end)%nat
    ∧ indicatorCells (messages st')
      = indicatorCells (messages st)
        ++ NoIndicator
        :: match new with
           | [] => []
           | _ :: rest =>
               cellOfRound (currentRound st) :: map (λ _, NoIndicator) rest
           end
        ++ match fin with Completed => [] | Thrown _ _ => [NoIndicator] end.
Proof.
  intros Hstart st'.
  destruct (handleSend_messages p clk value processed stream fin st Hstart)
    as (new & Hm & Hrec & _).
  fold st' in Hm. exists new. split.
  - rewrite Hm, length_app. cbn [length]. rewrite length_app.
    destruct fin; cbn [length]; lia.
  - assert (Hturn : Forall (λ m, m_turn_number m = Some (currentRound st)) new).
    { eapply Forall_impl; [exact Hrec|]. intros m (_ & Ht & _). exact Ht. }
    rewrite !indicatorCells_along, Hm, cellsAfter_app. f_equal.
    cbn [cellsAfter]. f_equal. rewrite cellsAfter_app. f_equal.
    + destruct Hturn as [|m new Hm1 Hrest]; [reflexivity|].
      cbn [cellsAfter]. unfold cellAfter at 1. rewrite Hm1.
      cbn [userMessage m_turn_number].
      rewrite decide_False by discriminate. f_equal.
      apply cellsAfter_same_round, Hrest.
    + destruct fin; reflexivity.
Qed.

(** A first exchange of two rounds: the only cell that is not empty is the
    number 0 at the first coach message. *)
Lemma exchange_shows_one_round_indicator_witness :
  let stream := map (pair sampleClock)
                  [round_start 1; coach_start "A" "Coach A" None; content "A" "x";
                   coach_end "A"; round_end 1; round_start 2;
                   coach_start "A" "Coach A" None; content "A" "y"; coach_end "A";
                   round_end 2; done] in
  indicatorCells
    (messages (handleSend (sampleProps Free) sampleClock "hi" ([], []) stream
                 Completed (sampleState false)))
  = [NoIndicator; ZeroValue; NoIndicator].
Proof.
  intros stream.
  destruct (exchange_shows_one_round_indicator (sampleProps Free) sampleClock "hi"
              ([], []) stream Completed (sampleState false)) as (new & Hlen & Hcells).
  - vm_compute. reflexivity.
  - rewrite Hcells. destruct new as [|m1 [|m2 [|m3 new]]];
      first [ reflexivity | exfalso; vm_compute in Hlen; lia ].
Defined.

(** *** Fragments without a start event *)

Lemma accumulatedBare_event p rr clk e id fs st :
  accumulatedBare id fs st →
  is_start_for id e = false → is_end_for id e = false →
  accumulatedBare id (fs ++ fragmentsFor id [(clk, e)])
    (handleStreamEvent p rr clk e st).
Proof.
  intros Hacc Hs He.
  assert (Hsame : streamingResponses (handleStreamEvent p rr clk e st) !! id
                  = streamingResponses st !! id →
                  fragmentsFor id [(clk, e)] = [] →
                  accumulatedBare id (fs ++ fragmentsFor id [(clk, e)])
                    (handleStreamEvent p rr clk e st)).
  { intros Hl Hf. rewrite Hf, app_nil_r. unfold accumulatedBare in *.
    destruct fs; rewrite Hl; exact Hacc. }
  destruct e as [n|i nm av|i nm av mt|i f|i|i mt|n| |oi msg]; simpl in Hs, He;
    try (apply Hsame; reflexivity).
  - apply bool_decide_eq_false in Hs. apply Hsame; [|reflexivity].
    simpl. apply lookup_insert_ne, Hs.
  - apply bool_decide_eq_false in Hs. apply Hsame; [|reflexivity].
    simpl. apply lookup_insert_ne, Hs.
  - destruct (decide (i = id)) as [->|Hne].
    + assert (Hf : fragmentsFor id [(clk, content id f)] = [f]).
      { unfold fragmentsFor. cbn [omap list_omap snd].
        rewrite decide_True by reflexivity. reflexivity. }
      rewrite Hf. clear Hsame.
      assert (Hstr : streamingResponses (handleStreamEvent p rr clk (content id f) st)
                = <[id := withContent (member (streamingResponses st) id)
                            (contentOf (member (streamingResponses st) id) +:+ f)]>
                    (streamingResponses st)) by reflexivity.
      unfold accumulatedBare in *.
      destruct fs as [|f0 fs]; cbn [app]; rewrite Hstr, lookup_insert_eq.
      * assert (Hb : withContent (member (streamingResponses st) id)
                       (contentOf (member (streamingResponses st) id) +:+ f)
                     = withContent NoMember ("" +:+ f)).
        { unfold member. rewrite Hacc. case_bool_decide; reflexivity. }
        rewrite Hb. eexists. split; [reflexivity|].
        split; [|repeat split].
        change (s_content (withContent NoMember ("" +:+ f))) with ("" +:+ f).
        unfold concatenation. cbn [foldr].
        rewrite ChatFacts.append_empty_r. reflexivity.
      * destruct Hacc as (r & Hr & Hc & Hb).
        rewrite (ChatFacts.member_own _ _ _ Hr).
        eexists. split; [reflexivity|]. split.
        -- change (s_content (withContent (OwnEntry r) (contentOf (OwnEntry r) +:+ f)))
             with (str_or (s_content r) "" +:+ f).
           rewrite ChatFacts.str_or_empty, Hc.
           change (f0 :: fs ++ [f]) with ((f0 :: fs) ++ [f]).
           rewrite ChatFacts.concatenation_app. f_equal.
           unfold concatenation. cbn [foldr].
           rewrite ChatFacts.append_empty_r. reflexivity.
        -- destruct Hb as (H1 & H2 & H3 & H4 & H5). repeat split; assumption.
    + apply Hsame.
      * simpl. apply lookup_insert_ne, Hne.
      * unfold fragmentsFor. cbn [omap list_omap snd].
        rewrite decide_False by exact Hne. reflexivity.
  - apply bool_decide_eq_false in He. apply Hsame; [|reflexivity].
    simpl. destruct (member (streamingResponses st) i); simpl;
      apply lookup_delete_ne, He.
  - apply bool_decide_eq_false in He. apply Hsame; [|reflexivity].
    simpl. destruct (member (streamingResponses st) i); simpl;
      apply lookup_delete_ne, He.
Qed.

Lemma accumulatedBare_stream p rr id stream :
  ∀ fs st,
  accumulatedBare id fs st →
  Forall (within_turn id) stream →
  accumulatedBare id (fs ++ fragmentsFor id stream) (handleStream p rr stream st).
Proof.
  induction stream as [|[clk e] stream IH]; intros fs st Hacc Hall.
  - change (fragmentsFor id []) with (@nil string). rewrite app_nil_r. exact Hacc.
  - apply Forall_cons in Hall as [[Hs He] Hall]. cbn in Hs, He.
    rewrite handleStream_cons, (ChatFacts.fragmentsFor_cons id (clk, e) stream), app_assoc.
    apply IH; [|exact Hall]. apply accumulatedBare_event; assumption.
Qed.

(** X22.  Content events need no start event.  For a participant without
    an in-flight response, fragments still accumulate in order in an entry
    that holds nothing but the text; a [coach_end] then records them as a
    message of type "response".  Without any fragment the participant still
    has no entry; the end event then records nothing, unless the id is the
    name of a member of [Object.prototype], for which it records a message
    without content. *)
Theorem fragments_without_start_are_kept (p : Props) (renderRound : Z)
    (id : string) (clkE : Clock) (stream : list (Clock * RoundtableEvent))
    (st : State) :
  streamingResponses st !! id = None →
  Forall (within_turn id) stream →
  let st1 := handleStream p renderRound stream st in
  let st2 := handleStreamEvent p renderRound clkE (coach_end id) st1 in
  (fragmentsFor id stream = [] →
   streamingResponses st1 !! id = None
   ∧ (id ∉ objectPrototypeKeys → messages st2 = messages st1)
   ∧ (id ∈ objectPrototypeKeys →
      ∃ m, messages st2 = messages st1 ++ [m]
           ∧ m_content m = None
           ∧ m_message_type m = "response"
           ∧ m_coach_id m = Some id))
  ∧ (fragmentsFor id stream ≠ [] →
     (∃ r, streamingResponses st1 !! id = Some r
           ∧ s_content r = concatenation (fragmentsFor id stream) ∧ bare r)
     ∧ ∃ m, messages st2 = messages st1 ++ [m]
            ∧ m_content m = Some (concatenation (fragmentsFor id stream))
            ∧ m_message_type m = "response"
            ∧ m_coach_id m = Some id).
Proof.
  intros Hnone Hall st1 st2.
  pose proof (accumulatedBare_stream p renderRound id stream [] st Hnone Hall) as Hacc.
  cbn [app] in Hacc. fold st1 in Hacc. unfold accumulatedBare in Hacc.
  split.
  - intros Hf. rewrite Hf in Hacc. split; [exact Hacc|]. split.
    + intros Hin. subst st2. simpl.
      rewrite (ChatFacts.member_absent _ _ Hacc Hin). reflexivity.
    + intros Hin. exists (coachMessage p renderRound clkE id InheritedMember).
      split; [|repeat split].
      subst st2. simpl. rewrite (ChatFacts.member_inherited _ _ Hacc Hin).
      reflexivity.
  - intros Hf. destruct (fragmentsFor id stream) as [|f fs] eqn:E; [congruence|].
    destruct Hacc as (r & Hr & Hc & Hb). split; [exists r; auto|].
    exists (coachMessage p renderRound clkE id (OwnEntry r)).
    split; [subst st2; simpl; rewrite (ChatFacts.member_own _ _ _ Hr); reflexivity|].
    split; [cbn [coachMessage m_content memberContent]; rewrite Hc; reflexivity|].
    split; [|reflexivity].
    destruct Hb as (_ & _ & _ & _ & Hmt).
    cbn [coachMessage m_message_type memberMessageType]. rewrite Hmt. reflexivity.
Qed.

Lemma fragments_without_start_are_kept_witness :
  let stream := [(sampleClock, content "A" "Hel"); (sampleClock, content "A" "lo")] in
  let st1 := handleStream (sampleProps Free) 0 stream (sampleState false) in
  ∃ m, messages (handleStreamEvent (sampleProps Free) 0 sampleClock (coach_end "A") st1)
       = messages st1 ++ [m]
       ∧ m_content m = Some "Hello".
Proof.
  intros stream st1.
  assert (Hall : Forall (within_turn "A") stream).
  { subst stream. repeat constructor. }
  destruct (proj2 (fragments_without_start_are_kept (sampleProps Free) 0 "A"
                     sampleClock stream (sampleState false) (lookup_empty _) Hall))
    as (_ & m & Hm & Hc & _).
  - vm_compute. discriminate.
  - exists m. split; [exact Hm | exact Hc].
Defined.

End ChatExtras.
